(** * Hybrid recommender (models/hybrid.ipynb): shallow embedding

    The notebook keeps its tables in module-level pandas objects and
    scores videos for a user by blending a collaborative ranking with a
    content ranking.  Here the tables are fields of a record, a Series is
    an ordered association list from label to value, and every lookup that
    can raise in Python returns in an error monad.

    Numbers.  Inputs (watch ratios, similarity entries, weights) are exact
    rationals.  Values held in a Series are [float64]: a rational, or one of
    the three special values that NumPy division produces (nan, inf, -inf).
    Rounding is not modelled.

    Counts ([res_length], [nb_top_similar], [head_count]) are natural
    numbers, as their docstrings describe them ("number of ...").

    Ties.  Python's [sorted] is stable.  NumPy's default sort kind, which
    [argsort] and pandas' [sort_values] use, leaves the order of equal keys
    open.  The recommenders are therefore given twice: with the stable
    order (first-seen order among equal keys), which can be evaluated, and
    with the sorting routines as a parameter [sort_kind] of which only the
    contract [sorts] is known.  The first is the instance [stable] of the
    second. *)

From Stdlib Require Import List ListSet ZArith QArith Qreduction Lia Bool.
From Stdlib Require Import Sorting.Sorted Sorting.Permutation Lqa.
Import ListNotations.

(** ** Exceptions *)

Inductive exn : Type :=
| IndexError
| KeyError
| ZeroDivisionError.

(** [IndexError] and [KeyError] are the subclasses of Python's
    [LookupError]. *)
Definition is_lookup_error (e : exn) : bool :=
  match e with
  | IndexError | KeyError => true
  | ZeroDivisionError => false
  end.

Inductive result (A : Type) : Type :=
| Ok (a : A)
| Raise (e : exn).

Arguments Ok {A} a.
Arguments Raise {A} e.

Definition bind {A B} (m : result A) (k : A -> result B) : result B :=
  match m with
  | Ok a => k a
  | Raise e => Raise e
  end.

Definition fmap {A B} (f : A -> B) (m : result A) : result B :=
  bind m (fun a => Ok (f a)).

Notation "x <- m ;; k" := (bind m (fun x => k))
  (at level 61, m at next level, right associativity).

(** [mapM f l]: a comprehension or a loop whose body can raise; the first
    exception aborts it. *)
Fixpoint mapM {A B} (f : A -> result B) (l : list A) : result (list B) :=
  match l with
  | [] => Ok []
  | a :: l' => b <- f a ;; bs <- mapM f l' ;; Ok (b :: bs)
  end.

(** ** Stable insertion sort

    [before y x = true] when [y] must come strictly before [x].  An element
    is inserted in front of the first element that is not strictly before
    it, so elements that compare equal keep their input order. *)

Section StableSort.
Context {A : Type} (before : A -> A -> bool).

Fixpoint insert (x : A) (l : list A) : list A :=
  match l with
  | [] => [x]
  | y :: l' => if before y x then y :: insert x l' else x :: y :: l'
  end.

Definition stable_sort (l : list A) : list A :=
  fold_right insert [] l.

(** [ord a b]: [a] may stand in front of [b] in a sorted list. *)
Definition ord (a b : A) : Prop := before b a = false.
End StableSort.

(** ** Rationals as booleans *)

Definition Qltb (a b : Q) : bool :=
  match a ?= b with Lt => true | _ => false end.

Definition Qeqb (a b : Q) : bool :=
  match a ?= b with Eq => true | _ => false end.

(** ** Python scalar arithmetic (the metric functions) *)

(** [a / b] on Python numbers. *)
Definition truediv (a b : Q) : result Q :=
  if Qeqb b 0 then Raise ZeroDivisionError else Ok (a / b).

(** [f1_score_at_k(precision, recall)] *)
Definition f1_score_at_k (precision recall : Q) : result Q :=
  if Qeqb (precision + recall) 0 then Ok 0
  else truediv (2 * (precision * recall)) (precision + recall).

(** ** float64 values of a Series *)

Inductive float64 : Type :=
| Fin (q : Q)
| PInf
| NInf
| NaN.

Definition isnan (a : float64) : bool :=
  match a with NaN => true | _ => false end.

Definition fadd (a b : float64) : float64 :=
  match a, b with
  | NaN, _ | _, NaN => NaN
  | Fin x, Fin y => Fin (Qred (x + y))
  | PInf, NInf | NInf, PInf => NaN
  | PInf, _ | _, PInf => PInf
  | NInf, _ | _, NInf => NInf
  end.

(** An infinity times a finite number: the sign of the number decides. *)
Definition scale_inf (pos : bool) (x : Q) : float64 :=
  match x ?= 0 with
  | Eq => NaN
  | Gt => if pos then PInf else NInf
  | Lt => if pos then NInf else PInf
  end.

Definition fmul (a b : float64) : float64 :=
  match a, b with
  | NaN, _ | _, NaN => NaN
  | Fin x, Fin y => Fin (Qred (x * y))
  | PInf, Fin x | Fin x, PInf => scale_inf true x
  | NInf, Fin x | Fin x, NInf => scale_inf false x
  | PInf, PInf | NInf, NInf => PInf
  | PInf, NInf | NInf, PInf => NInf
  end.

(** NumPy division: a zero divisor gives nan (0/0) or an infinity, it does
    not raise. *)
Definition fdiv (a b : float64) : float64 :=
  match a, b with
  | NaN, _ | _, NaN => NaN
  | Fin x, Fin y =>
      if Qeqb y 0 then
        match x ?= 0 with Eq => NaN | Gt => PInf | Lt => NInf end
      else Fin (Qred (x / y))
  | Fin _, _ => Fin 0
  | PInf, Fin y => if Qltb y 0 then NInf else PInf
  | NInf, Fin y => if Qltb y 0 then PInf else NInf
  | _, _ => NaN
  end.

(** Strict order of the values that are not nan. *)
Definition fltb (a b : float64) : bool :=
  match a, b with
  | Fin x, Fin y => Qltb x y
  | NInf, Fin _ | NInf, PInf | Fin _, PInf => true
  | _, _ => false
  end.

(** ** Series: label/value pairs in index order *)

Definition label := Z.
Definition series := list (label * float64).

Definition keys (s : series) : list label := map fst s.

Definition mem (k : label) (l : list label) : bool :=
  existsb (Z.eqb k) l.

(** Value at a label, nan when the label is absent (what alignment puts
    there). *)
Fixpoint get (k : label) (s : series) : float64 :=
  match s with
  | [] => NaN
  | (k', v) :: s' => if Z.eqb k k' then v else get k s'
  end.

Definition head {A} (n : nat) (l : list A) : list A := firstn n l.

(** [s.max()]: nan entries are skipped; nan when nothing is left. *)
Definition fmax_skipna (acc v : float64) : float64 :=
  if isnan v then acc
  else if isnan acc then v
  else if fltb acc v then v else acc.

Definition series_max (s : series) : float64 :=
  fold_left fmax_skipna (map snd s) NaN.

(** [s.mul(w)] with a scalar. *)
Definition series_mul (s : series) (w : Q) : series :=
  map (fun kv => (fst kv, fmul (snd kv) (Fin w))) s.

(** Descending order of the values: [y] goes before [x] when the value of
    [x] is strictly smaller. *)
Definition by_value_desc (y x : label * float64) : bool :=
  fltb (snd x) (snd y).

(** [s.sort_values(ascending=False)]: descending, nan entries last, equal
    values in index order (the stable order; [pd_sort_values] below leaves
    that order open). *)
Definition sort_values_desc (s : series) : series :=
  stable_sort by_value_desc (filter (fun kv => negb (isnan (snd kv))) s)
  ++ filter (fun kv => isnan (snd kv)) s.

(** [s.drop(labels=ls, errors='ignore')] *)
Definition drop (ls : list label) (s : series) : series :=
  filter (fun kv => negb (mem (fst kv) ls)) s.

Definition sorted_distinct (l : list Z) : list Z :=
  stable_sort Z.ltb (nodup Z.eq_dec l).

Definition list_eqb (l r : list Z) : bool :=
  if list_eq_dec Z.eq_dec l r then true else false.

(** Index of [l.add(r, ...)]: kept when both indexes are equal, the sorted
    union otherwise (also when one side is empty). *)
Definition align_index (l r : list label) : list label :=
  if list_eqb l r then l else sorted_distinct (l ++ r).

(** One cell of [add(..., fill_value=0)]: a value missing on exactly one
    side is replaced by 0 before the addition. *)
Definition fill_add (a b : float64) : float64 :=
  match isnan a, isnan b with
  | true, false => fadd (Fin 0) b
  | false, true => fadd a (Fin 0)
  | _, _ => fadd a b
  end.

(** [l.add(r, fill_value=0)] *)
Definition series_add (l r : series) : series :=
  map (fun k => (k, fill_add (get k l) (get k r)))
      (align_index (keys l) (keys r)).

(** ** The tables *)

Record interaction : Type := {
  user_id : Z;
  video_id : Z;
  watch_ratio : Q
}.

Record dataset : Type := {
  interactions : list interaction;
  (** [categories]: one row per video, [(video_id, feat)]; the row label
      is the row position. *)
  categories : list (Z * list Z);
  (** [user_similarity]: users x users array. *)
  user_similarity : list (list Q);
  (** [content_based_cosine_sim]: videos x videos array. *)
  content_based_cosine_sim : list (list Q)
}.

(** ** user_item_matrix = interactions.pivot_table(index="user_id",
       columns="video_id", values="watch_ratio", aggfunc="max",
       fill_value=0) *)

Definition qmax (a b : Q) : Q := if Qltb a b then b else a.

Definition uim_index (d : dataset) : list Z :=
  sorted_distinct (map user_id (interactions d)).

Definition uim_columns (d : dataset) : list Z :=
  sorted_distinct (map video_id (interactions d)).

Definition uim_cell (d : dataset) (u v : Z) : Q :=
  match map watch_ratio
            (filter (fun i => Z.eqb (user_id i) u && Z.eqb (video_id i) v)
                    (interactions d)) with
  | [] => 0
  | w :: ws => fold_left qmax ws w
  end.

(** [user_item_matrix.loc[u]]: the row labelled [u], in column order. *)
Definition uim_loc (d : dataset) (u : Z) : result (list Q) :=
  if mem u (uim_index d)
  then Ok (map (uim_cell d u) (uim_columns d))
  else Raise KeyError.

(** ** NumPy and list indexing *)

(** [enumerate(row)] *)
Definition enumerate {A} (l : list A) : list (nat * A) :=
  combine (seq 0 (length l)) l.

(** [a[i]] on the first axis of an array: a negative [i] counts from the
    end, anything outside [-n, n) raises. *)
Definition ndarray_getitem {A} (a : list A) (i : Z) : result A :=
  let n := Z.of_nat (length a) in
  let j := if (i <? 0)%Z then (n + i)%Z else i in
  if ((0 <=? j) && (j <? n))%Z
  then match nth_error a (Z.to_nat j) with
       | Some x => Ok x
       | None => Raise IndexError
       end
  else Raise IndexError.

(** [row.argsort()]: the positions in ascending order of value, equal
    values in ascending position (the stable order; [np_argsort] below
    leaves that order open). *)
Definition argsort (row : list Q) : list nat :=
  map fst (stable_sort (fun y x => Qltb (snd y) (snd x)) (enumerate row)).

(** [l[:-n:-1]]: walk from the last element down to, and without, the one
    at position [-n]; [-0] is position 0. *)
Definition slice_to_neg_rev {A} (n : nat) (l : list A) : list A :=
  firstn (match n with O => length l - 1 | S k => k end) (rev l).

(** ** Collaborative filtering *)

(** [user_similarity[user_id].argsort()[:-nb_top_similar:-1]] *)
Definition similar_users (d : dataset) (user_id : Z) (nb_top_similar : nat)
  : result (list nat) :=
  row <- ndarray_getitem (user_similarity d) user_id ;;
  Ok (slice_to_neg_rev nb_top_similar (argsort row)).

(** Mean of one column over the selected rows; nan over no row. *)
Definition mean (xs : list Q) : float64 :=
  match xs with
  | [] => NaN
  | _ => Fin (Qred (fold_left Qplus xs 0 / inject_Z (Z.of_nat (length xs))))
  end.

(** [frame.mean(axis=0)], the columns labelled by [cols]. *)
Definition mean_axis0 (cols : list Z) (rows : list (list Q)) : series :=
  map (fun jc => (snd jc, mean (map (fun r => nth (fst jc) r 0) rows)))
      (enumerate cols).

(** [user_item_matrix.loc[u][user_item_matrix.loc[u] != 0].index] *)
Definition items_user_has_watched (d : dataset) (u : Z) : result (list Z) :=
  row <- uim_loc d u ;;
  Ok (map fst (filter (fun cv => negb (Qeqb (snd cv) 0))
                      (combine (uim_columns d) row))).

Definition recommend_videos_by_users (d : dataset) (user_id : Z)
    (nb_top_similar res_length : nat) : result series :=
  similar <- similar_users d user_id nb_top_similar ;;
  rows <- mapM (fun p => uim_loc d (Z.of_nat p)) similar ;;
  let recommended_items :=
    sort_values_desc (mean_axis0 (uim_columns d) rows) in
  watched <- items_user_has_watched d user_id ;;
  let recommended_items :=
    filter (fun kv => negb (mem (fst kv) watched)) recommended_items in
  Ok (head res_length recommended_items).

(** ** Content based filtering *)

Fixpoint index_of (v : Z) (l : list Z) : option nat :=
  match l with
  | [] => None
  | x :: l' => if Z.eqb x v then Some O else option_map S (index_of v l')
  end.

(** [seq[i]] for a position [i >= 0]. *)
Definition iloc {A} (l : list A) (i : nat) : result A :=
  match nth_error l i with
  | Some x => Ok x
  | None => Raise IndexError
  end.

(** [sorted(enumerate(row), key=lambda x: x[1], reverse=True)] *)
Definition sorted_sim_scores (row : list Q) : list (nat * Q) :=
  stable_sort (fun y x => Qltb (snd x) (snd y)) (enumerate row).

Definition recommend_similar_videos (d : dataset) (video_id : Z)
    (res_length : nat) : result series :=
  idx <- match index_of video_id (map fst (categories d)) with
         | Some i => Ok i
         | None => Raise IndexError
         end ;;
  row <- iloc (content_based_cosine_sim d) idx ;;
  let sim_scores := firstn res_length (skipn 1 (sorted_sim_scores row)) in
  let movie_indices := map fst sim_scores in
  let scores := map snd sim_scores in
  video_ids <- mapM (iloc (map fst (categories d))) movie_indices ;;
  Ok (combine video_ids (map Fin scores)).

(** ** Hybrid filtering *)

(** [df[df["user_id"] == u].sort_values(by="watch_ratio",
    ascending=False).head(head_count)], rows of equal watch ratio in table
    order (the stable order; [pd_sort_rows] below leaves that order
    open). *)
Definition get_most_watched_videos_by_user_id (df : list interaction)
    (u : Z) (head_count : nat) : list interaction :=
  head head_count
       (stable_sort (fun y x => Qltb (watch_ratio x) (watch_ratio y))
                    (filter (fun i => Z.eqb (user_id i) u) df)).

(** [user_history]: the video ids of the 20 most watched rows. *)
Definition user_history (d : dataset) (u : Z) : list Z :=
  map video_id (get_most_watched_videos_by_user_id (interactions d) u 20).

(** The loop that accumulates [content_scores]. *)
Fixpoint accumulate (d : dataset) (history : list Z) (content_scores : series)
  : result series :=
  match history with
  | [] => Ok content_scores
  | video_id :: rest =>
      similar_videos <- recommend_similar_videos d video_id 10 ;;
      accumulate d rest (series_add content_scores similar_videos)
  end.

Definition content_scores (d : dataset) (u : Z) : result series :=
  accumulate d (user_history d u) [].

(** [if not s.empty: s /= s.max()] *)
Definition normalize (s : series) : series :=
  match s with
  | [] => s
  | _ => map (fun kv => (fst kv, fdiv (snd kv) (series_max s))) s
  end.

(** [combined_scores] after the weighted sum, before the drop. *)
Definition combined_scores (d : dataset) (u : Z) (content_weight : Q)
  : result series :=
  collab <- recommend_videos_by_users d u 10 50 ;;
  content <- content_scores d u ;;
  Ok (series_add (series_mul (normalize content) content_weight)
                 (series_mul (normalize collab) (1 - content_weight))).

Definition recommmend_videos_for_user (d : dataset) (u : Z)
    (content_weight : Q) (res_length : nat) : result series :=
  combined <- combined_scores d u content_weight ;;
  let combined := drop (user_history d u) combined in
  Ok (head res_length (sort_values_desc combined)).

(** ** Benchmarks

    A Python set of ints is a list without repetition, handled through
    [ListSet]; [len] of a set is the length of the list. *)

(** An int used as a number in a division. *)
Definition of_nat (n : nat) : Q := inject_Z (Z.of_nat n).

(** [video_categories.update(feats)] *)
Definition set_update (s : set Z) (feats : list Z) : set Z :=
  fold_left (fun acc f => set_add Z.eq_dec f acc) feats s.

(** [categories[categories['video_id'] == video_id]['feat'].values[0]] *)
Definition feat_of (d : dataset) (video_id : Z) : result (list Z) :=
  match find (fun c => Z.eqb (fst c) video_id) (categories d) with
  | Some c => Ok (snd c)
  | None => Raise IndexError
  end.

(** The loop of [get_features_of_videos]. *)
Fixpoint features_loop (d : dataset) (videos : list Z)
    (video_categories : set Z) : result (set Z) :=
  match videos with
  | [] => Ok video_categories
  | video_id :: rest =>
      feats <- feat_of d video_id ;;
      features_loop d rest (set_update video_categories feats)
  end.

Definition get_features_of_videos (d : dataset) (videos : list Z)
  : result (set Z) :=
  features_loop d videos (empty_set Z).

Definition precision_at_k (recommended relevant : set Z) (k : nat)
  : result Q :=
  let relevant_items_in_top_k :=
    length (set_inter Z.eq_dec recommended relevant) in
  truediv (of_nat relevant_items_in_top_k) (of_nat k).

Definition recall_at_k (recommended relevant : set Z) : result Q :=
  let relevant_items_in_top_k :=
    length (set_inter Z.eq_dec recommended relevant) in
  if (0 <? length relevant)%nat
  then truediv (of_nat relevant_items_in_top_k) (of_nat (length relevant))
  else Ok 0.

Definition hit_ratio_at_k (recommended relevant : set Z) : nat :=
  if (0 <? length (set_inter Z.eq_dec recommended relevant))%nat
  then 1%nat else 0%nat.

Definition coverage_at_k (recommended : set Z) (total_features : nat)
  : result Q :=
  truediv (of_nat (length recommended)) (of_nat total_features).

(** [pd.Series([feat for feats in categories["feat"] for feat in
    feats]).nunique()] *)
Definition total_features (d : dataset) : nat :=
  length (nodup Z.eq_dec (flat_map snd (categories d))).

(** What [metrics(K)] prints, as a record; [test_df] is the table read
    from small_matrix.csv. *)
Record metric_values : Type := {
  precision : Q;
  recall : Q;
  f1_score : Q;
  hit_ratio : nat;
  coverage : Q
}.

Definition metrics (d : dataset) (test_df : list interaction) (K : nat)
  : result metric_values :=
  recommended <- recommmend_videos_for_user d 14 (3 # 10) K ;;
  recommended_features <- get_features_of_videos d (keys recommended) ;;
  let most_watched_videos_by_user_14 :=
    get_most_watched_videos_by_user_id test_df 14 K in
  favorite_videos_features_of_user_14 <-
    get_features_of_videos d (map video_id most_watched_videos_by_user_14) ;;
  precision <- precision_at_k recommended_features
                 favorite_videos_features_of_user_14 K ;;
  recall <- recall_at_k recommended_features
              favorite_videos_features_of_user_14 ;;
  f1_score <- f1_score_at_k precision recall ;;
  let hit_ratio := hit_ratio_at_k recommended_features
                     favorite_videos_features_of_user_14 in
  coverage <- coverage_at_k recommended_features (total_features d) ;;
  Ok {| precision := precision; recall := recall; f1_score := f1_score;
        hit_ratio := hit_ratio; coverage := coverage |}.

(** ** Similarity kernels (the routines that build the two arrays) *)

Definition dot (x y : list Q) : Q :=
  fold_right Qplus 0 (map (fun p => fst p * snd p) (combine x y)).

(** [linear_kernel(X, Y)[a][b]] is the dot product of row [a] of [X] and
    row [b] of [Y]. *)
Definition linear_kernel (X Y : list (list Q)) : list (list Q) :=
  map (fun x => map (fun y => dot x y) Y) X.

(** [cosine_similarity(X)]: the linear kernel of the rows after their
    normalisation; the normalisation of one row (division by its Euclidean
    norm) is a parameter. *)
Definition cosine_similarity (normalize_row : list Q -> list Q)
    (X : list (list Q)) : list (list Q) :=
  linear_kernel (map normalize_row X) (map normalize_row X).

Definition entry (M : list (list Q)) (a b : nat) : Q :=
  nth b (nth a M []) 0.

(** [user_item_matrix] as an array of rows. *)
Definition uim_values (d : dataset) : list (list Q) :=
  map (fun u => map (uim_cell d u) (uim_columns d)) (uim_index d).

(** ** Orders and predicates used in the statements *)

(** A Series whose values never increase from one entry to the next. *)
Definition descending (s : series) : Prop :=
  StronglySorted (fun a b => fltb (snd a) (snd b) = false) s.

(** The strict order extended to nan, taken as the least value; it agrees
    with [fltb] on the values that are not nan. *)
Definition fltb_total (a b : float64) : bool :=
  match a, b with
  | NaN, NaN => false
  | NaN, _ => true
  | _, NaN => false
  | _, _ => fltb a b
  end.

Definition by_value_desc_total (y x : label * float64) : bool :=
  fltb_total (snd x) (snd y).

Definition no_nan (s : series) : Prop :=
  forall kv, In kv s -> isnan (snd kv) = false.

Definition positive (v : float64) : bool := fltb (Fin 0) v.

Definition finite_or_nan (v : float64) : Prop :=
  match v with Fin _ | NaN => True | _ => False end.

Definition zero_or_nan (t : float64) : Prop :=
  t = NaN \/ exists q, t = Fin q /\ q == 0.

(** What the blend at weight 0 makes of a collaborative score [x], the
    maximum of the component being [m]. *)
Definition rescale (m : Q) (v : float64) : float64 :=
  match v with
  | Fin x => Fin (Qred (Qred (Qred (x / m) * (1 - 0))))
  | _ => v
  end.

(** The nan entries of the Series come after all the others. *)
Definition nan_last (s : series) : Prop :=
  exists a b,
    s = a ++ b /\ no_nan a /\ forall kv, In kv b -> isnan (snd kv) = true.

(** Labels without repetition, all of them video ids of [categories]. *)
Definition catalogued (d : dataset) (s : series) : Prop :=
  NoDup (keys s) /\ forall k, In k (keys s) -> In k (map fst (categories d)).

(** Every value of the Series is a rational that satisfies [P]. *)
Definition values_in (P : Q -> Prop) (s : series) : Prop :=
  forall kv, In kv s -> exists q, snd kv = Fin q /\ P q.

(** Every value of the Series is a rational. *)
Definition all_finite (s : series) : Prop := values_in (fun _ => True) s.

(** The maximum of the Series is 0. *)
Definition zero_max (s : series) : Prop :=
  exists m, series_max s = Fin m /\ m == 0.

(** ** Well-formed tables

    What the notebook relies on without checking: the user ids are
    [0 .. n-1], so that a position in [user_similarity] is also a row label
    of [user_item_matrix]; both similarity arrays are square and as large as
    the table they come from; every video that was interacted with has one
    row in [categories], and no video has two. *)

Fixpoint distinctb (l : list Z) : bool :=
  match l with
  | [] => true
  | x :: l' => negb (mem x l') && distinctb l'
  end.

Definition squareb (n : nat) (M : list (list Q)) : bool :=
  (length M =? n)%nat && forallb (fun r => (length r =? n)%nat) M.

Definition wf_dataset (d : dataset) : bool :=
  list_eqb (uim_index d)
           (map Z.of_nat (seq 0 (length (uim_index d))))
  && squareb (length (uim_index d)) (user_similarity d)
  && squareb (length (categories d)) (content_based_cosine_sim d)
  && forallb (fun i => mem (video_id i) (map fst (categories d)))
             (interactions d)
  && distinctb (map fst (categories d)).

(** ** The sorts with the order of equal keys left open

    The three sorts of the notebook that go through NumPy: [argsort] of a
    similarity row, [sort_values(ascending=False)] of a Series and
    [sort_values(by="watch_ratio", ascending=False)] of the interactions of
    a user. *)

Record sort_kind : Type := {
  np_argsort : list Q -> list nat;
  pd_sort_values : series -> series;
  pd_sort_rows : list interaction -> list interaction
}.

(** The contract of the three sorts: the positions of the row in ascending
    order of value; the entries of the Series in descending order of value
    with the nan entries last; the rows in descending order of watch
    ratio.  Nothing is said about equal keys. *)
Definition sorts (k : sort_kind) : Prop :=
  (forall row,
      Permutation (np_argsort k row) (seq 0 (length row))
      /\ StronglySorted (fun i j => nth i row 0 <= nth j row 0)
                        (np_argsort k row))
  /\ (forall s,
         Permutation (pd_sort_values k s) s
         /\ StronglySorted (fun a b => fltb_total (snd a) (snd b) = false)
                           (pd_sort_values k s))
  /\ (forall df,
         Permutation (pd_sort_rows k df) df
         /\ StronglySorted (fun a b => watch_ratio b <= watch_ratio a)
                           (pd_sort_rows k df)).

(** The stable sorts of the definitions above. *)
Definition stable : sort_kind := {|
  np_argsort := argsort;
  pd_sort_values := sort_values_desc;
  pd_sort_rows :=
    stable_sort (fun y x => Qltb (watch_ratio x) (watch_ratio y))
|}.

(** The recommenders over a [sort_kind]; everything but the sorts is as
    above. *)
Definition similar_users_by (k : sort_kind) (d : dataset) (user_id : Z)
    (nb_top_similar : nat) : result (list nat) :=
  row <- ndarray_getitem (user_similarity d) user_id ;;
  Ok (slice_to_neg_rev nb_top_similar (np_argsort k row)).

Definition recommend_videos_by_users_by (k : sort_kind) (d : dataset)
    (user_id : Z) (nb_top_similar res_length : nat) : result series :=
  similar <- similar_users_by k d user_id nb_top_similar ;;
  rows <- mapM (fun p => uim_loc d (Z.of_nat p)) similar ;;
  let recommended_items :=
    pd_sort_values k (mean_axis0 (uim_columns d) rows) in
  watched <- items_user_has_watched d user_id ;;
  let recommended_items :=
    filter (fun kv => negb (mem (fst kv) watched)) recommended_items in
  Ok (head res_length recommended_items).

Definition get_most_watched_videos_by (k : sort_kind)
    (df : list interaction) (u : Z) (head_count : nat) : list interaction :=
  head head_count
       (pd_sort_rows k (filter (fun i => Z.eqb (user_id i) u) df)).

Definition user_history_by (k : sort_kind) (d : dataset) (u : Z) : list Z :=
  map video_id (get_most_watched_videos_by k (interactions d) u 20).

Definition content_scores_by (k : sort_kind) (d : dataset) (u : Z)
  : result series :=
  accumulate d (user_history_by k d u) [].

Definition combined_scores_by (k : sort_kind) (d : dataset) (u : Z)
    (content_weight : Q) : result series :=
  collab <- recommend_videos_by_users_by k d u 10 50 ;;
  content <- content_scores_by k d u ;;
  Ok (series_add (series_mul (normalize content) content_weight)
                 (series_mul (normalize collab) (1 - content_weight))).

Definition recommmend_videos_for_user_by (k : sort_kind) (d : dataset)
    (u : Z) (content_weight : Q) (res_length : nat) : result series :=
  combined <- combined_scores_by k d u content_weight ;;
  let combined := drop (user_history_by k d u) combined in
  Ok (head res_length (pd_sort_values k combined)).

(** ** The blend as the specification words it

    The maximum of a component: one of its scores, and no score of the
    component is larger. *)
Definition is_maximum (m : Q) (component : series) : Prop :=
  (exists v x, In (v, Fin x) component /\ x == m)
  /\ forall v s, In (v, s) component -> exists x, s = Fin x /\ x <= m.

(** The score of an item in a component whose maximum is [m]: its score
    divided by [m]; 0 for an item missing from the component (so 0 for
    every item when the component is empty, where nothing is divided). *)
Definition spec_component_score (component : series) (m : Q) (v : label)
  : Q :=
  match find (fun kv => Z.eqb (fst kv) v) component with
  | Some (_, Fin x) => if Qeqb m 0 then 0 else x / m
  | _ => 0
  end.

Definition spec_final_score (w c e : Q) : Q := w * c + (1 - w) * e.

(** ** Small tables used in examples *)

Definition row (u v : Z) (w : Q) : interaction :=
  {| user_id := u; video_id := v; watch_ratio := w |}.

Definition one_hot (n j : nat) : list Q :=
  map (fun i => if (i =? j)%nat then 1 else 0) (seq 0 n).

(** Two users, three videos.  User 0 watched video 1; user 1 watched videos
    1 and 3.  The rows of the pivot table are (1,0) and (3,4), their cosine
    is 3/5.  Videos 1 and 2 carry the same feature, video 3 another one. *)
Definition two_users : dataset := {|
  interactions := [row 0 1 1; row 1 1 3; row 1 3 4];
  categories := [(1%Z, [10%Z]); (2%Z, [10%Z]); (3%Z, [11%Z])];
  user_similarity := [[1; 3 # 5]; [3 # 5; 1]];
  content_based_cosine_sim :=
    linear_kernel [one_hot 2 0; one_hot 2 0; one_hot 2 1]
                  [one_hot 2 0; one_hot 2 0; one_hot 2 1]
|}.

(** Three users.  The rows of the pivot table are (1,0,0), (3,4,0) and
    (0,0,1); their cosines are 3/5, 0 and 0. *)
Definition three_users : dataset := {|
  interactions := [row 0 1 1; row 1 1 3; row 1 2 4; row 2 3 1];
  categories := [(1%Z, [10%Z]); (2%Z, [11%Z]); (3%Z, [12%Z])];
  user_similarity := [[1; 3 # 5; 0]; [3 # 5; 1; 0]; [0; 0; 1]];
  content_based_cosine_sim :=
    linear_kernel [one_hot 3 0; one_hot 3 1; one_hot 3 2]
                  [one_hot 3 0; one_hot 3 1; one_hot 3 2]
|}.

(** One user with 21 interactions: video [k] (k = 1 .. 21) watched with
    ratio [22 - k], so video 21 is the least watched one.  Videos 1 and 21
    carry the same feature, every other video a feature of its own. *)
Definition long_history_feature (k : nat) : nat :=
  if (k =? 21)%nat then 0 else k - 1.

Definition long_history : dataset := {|
  interactions :=
    map (fun k => row 0 (Z.of_nat k) (inject_Z (22 - Z.of_nat k)))
        (seq 1 21);
  categories :=
    map (fun k => (Z.of_nat k, [Z.of_nat (10 + long_history_feature k)]))
        (seq 1 21);
  user_similarity := [[1]];
  content_based_cosine_sim :=
    linear_kernel (map (fun k => one_hot 20 (long_history_feature k))
                       (seq 1 21))
                  (map (fun k => one_hot 20 (long_history_feature k))
                       (seq 1 21))
|}.

(** Two users with the same taste; user 1 also opened video 2 without
    watching it (ratio 0).  The two videos share no feature. *)
Definition zero_maximum : dataset := {|
  interactions := [row 0 1 1; row 1 1 1; row 1 2 0];
  categories := [(1%Z, [10%Z]); (2%Z, [11%Z])];
  user_similarity := [[1; 1]; [1; 1]];
  content_based_cosine_sim :=
    linear_kernel [one_hot 2 0; one_hot 2 1] [one_hot 2 0; one_hot 2 1]
|}.

(** Fifteen users and three videos.  Users 0 .. 13 watched video 1 with
    ratio 3 and video 2 with ratio 4, user 14 watched video 1 with ratio
    1: the rows of the pivot table are (3,4) and (1,0), with cosine 3/5.
    Videos 1 and 2 carry feature 10, video 3 carries feature 11. *)
Definition fifteen_users : dataset := {|
  interactions :=
    flat_map (fun k => [row (Z.of_nat k) 1 3; row (Z.of_nat k) 2 4])
             (seq 0 14)
    ++ [row 14 1 1];
  categories := [(1%Z, [10%Z]); (2%Z, [10%Z]); (3%Z, [11%Z])];
  user_similarity :=
    map (fun i =>
           map (fun j => if (i =? j)%nat then 1
                         else if ((i =? 14) || (j =? 14))%nat then 3 # 5
                              else 1)
               (seq 0 15))
        (seq 0 15);
  content_based_cosine_sim :=
    linear_kernel [one_hot 2 0; one_hot 2 0; one_hot 2 1]
                  [one_hot 2 0; one_hot 2 0; one_hot 2 1]
|}.

(** The rows of user 14 in the test table. *)
Definition fifteen_users_test : list interaction :=
  [row 14 3 1; row 14 2 5; row 0 1 2].

(** One user who watched video 1 and video 9; video 9 has no row in
    [categories]. *)
Definition uncatalogued_video : dataset := {|
  interactions := [row 0 1 1; row 0 9 2];
  categories := [(1%Z, [10%Z])];
  user_similarity := [[1]];
  content_based_cosine_sim := [[1]]
|}.

(** * Properties *)

(** ** Rational comparisons *)

Lemma Qeqb_true (a b : Q) : Qeqb a b = true <-> a == b.
Proof.
  unfold Qeqb. rewrite Qeq_alt. destruct (a ?= b); split; congruence.
Qed.

Lemma Qeqb_false (a b : Q) : Qeqb a b = false <-> ~ a == b.
Proof.
  rewrite <- Qeqb_true. destruct (Qeqb a b); split; congruence.
Qed.

Lemma Qltb_true (a b : Q) : Qltb a b = true <-> a < b.
Proof.
  unfold Qltb. rewrite Qlt_alt. destruct (a ?= b); split; congruence.
Qed.

Lemma Qltb_false (a b : Q) : Qltb a b = false <-> b <= a.
Proof.
  split; intro H.
  - apply Qnot_lt_le. intro L. apply Qltb_true in L. congruence.
  - destruct (Qltb a b) eqn:E; trivial.
    apply Qltb_true in E. exfalso. exact (Qlt_not_le _ _ E H).
Qed.

Lemma Qmult_comm_eq (x y : Q) : (x * y = y * x)%Q.
Proof.
  unfold Qmult. f_equal; [apply Z.mul_comm | apply Pos.mul_comm].
Qed.

(** ** Lists *)

Lemma mem_In (k : Z) (l : list Z) : mem k l = true <-> In k l.
Proof.
  unfold mem. rewrite existsb_exists. split.
  - intros [x [Hx E]]. apply Z.eqb_eq in E. subst. exact Hx.
  - intro H. exists k. split; [exact H | apply Z.eqb_refl].
Qed.

Lemma mem_not_In (k : Z) (l : list Z) : mem k l = false <-> ~ In k l.
Proof.
  rewrite <- mem_In. destruct (mem k l); split; congruence.
Qed.

Lemma firstn_le_prefix {A} (n m : nat) (l : list A) :
  (n <= m)%nat -> exists rest, firstn m l = firstn n l ++ rest.
Proof.
  revert m l. induction n as [|n IH]; intros m l H.
  - exists (firstn m l). reflexivity.
  - destruct m as [|m]; [lia|]. destruct l as [|x l].
    + exists []. reflexivity.
    + destruct (IH m l) as [rest E]; [lia|].
      exists rest. simpl. now rewrite E.
Qed.

Lemma In_firstn {A} (n : nat) (l : list A) (x : A) :
  In x (firstn n l) -> In x l.
Proof.
  intro H. rewrite <- (firstn_skipn n l). apply in_or_app. now left.
Qed.

(** ** The stable sort: permutation, order, fixed points *)

Section StableSortFacts.
Context {A : Type} (before : A -> A -> bool).

Lemma insert_perm (x : A) (l : list A) :
  Permutation (insert before x l) (x :: l).
Proof.
  induction l as [|y l IH]; simpl.
  - apply Permutation_refl.
  - destruct (before y x).
    + eapply Permutation_trans; [apply perm_skip, IH | apply perm_swap].
    + apply Permutation_refl.
Qed.

Lemma stable_sort_perm (l : list A) : Permutation (stable_sort before l) l.
Proof.
  induction l as [|x l IH]; simpl.
  - apply perm_nil.
  - eapply Permutation_trans; [apply insert_perm | apply perm_skip, IH].
Qed.

Lemma stable_sort_In (l : list A) (x : A) :
  In x (stable_sort before l) <-> In x l.
Proof.
  split; apply Permutation_in;
    [apply stable_sort_perm | apply Permutation_sym, stable_sort_perm].
Qed.

Lemma stable_sort_length (l : list A) :
  length (stable_sort before l) = length l.
Proof. apply Permutation_length, stable_sort_perm. Qed.


Hypothesis before_asym : forall a b, before a b = true -> before b a = false.
Hypothesis ord_trans :
  forall a b c, ord before a b -> ord before b c -> ord before a c.

Lemma insert_sorted (x : A) (l : list A) :
  StronglySorted (ord before) l ->
  StronglySorted (ord before) (insert before x l).
Proof.
  induction 1 as [|y l Hl IH Hy]; simpl.
  - constructor; constructor.
  - destruct (before y x) eqn:B.
    + constructor; [exact IH|].
      apply Forall_forall. intros z Hz.
      apply (Permutation_in _ (insert_perm x l)) in Hz.
      destruct Hz as [<-|Hz].
      * apply before_asym, B.
      * rewrite Forall_forall in Hy. apply Hy, Hz.
    + constructor; [constructor; assumption|].
      constructor; [exact B|].
      apply Forall_forall. intros z Hz.
      rewrite Forall_forall in Hy.
      apply ord_trans with y; [exact B | apply Hy, Hz].
Qed.

Lemma stable_sort_sorted (l : list A) :
  StronglySorted (ord before) (stable_sort before l).
Proof.
  induction l as [|x l IH]; simpl.
  - constructor.
  - apply insert_sorted, IH.
Qed.

Lemma stable_sort_sorted_id (l : list A) :
  StronglySorted (ord before) l -> stable_sort before l = l.
Proof.
  induction 1 as [|x l Hl IH Hx]; simpl; [reflexivity|].
  rewrite IH. destruct l as [|y l]; [reflexivity|]. simpl.
  inversion Hx as [|? ? Hxy _]; subst. unfold ord in Hxy. now rewrite Hxy.
Qed.
Lemma insert_front (x : A) (l : list A) :
  Forall (ord before x) l -> insert before x l = x :: l.
Proof.
  destruct l as [|y l]; [reflexivity|].
  intro H. inversion H as [|? ? Hxy _]; subst.
  simpl. unfold ord in Hxy. now rewrite Hxy.
Qed.

Lemma insert_filter (P : A -> bool) (x : A) (l : list A) :
  StronglySorted (ord before) l ->
  filter P (insert before x l) =
  if P x then insert before x (filter P l) else filter P l.
Proof.
  induction 1 as [|y l Hl IH Hy]; simpl.
  - destruct (P x); reflexivity.
  - destruct (before y x) eqn:B; simpl.
    + rewrite IH. destruct (P y), (P x); simpl; try rewrite B; reflexivity.
    + assert (Hx : Forall (ord before x) (filter P l)).
      { apply Forall_forall. intros z Hz. apply filter_In in Hz.
        rewrite Forall_forall in Hy.
        apply ord_trans with y; [exact B | apply Hy, Hz]. }
      destruct (P x), (P y); simpl; try rewrite B; try reflexivity.
      now rewrite insert_front.
Qed.

Lemma stable_sort_filter (P : A -> bool) (l : list A) :
  filter P (stable_sort before l) = stable_sort before (filter P l).
Proof.
  induction l as [|x l IH]; simpl; [reflexivity|].
  rewrite insert_filter by apply stable_sort_sorted.
  rewrite IH. destruct (P x); reflexivity.
Qed.
End StableSortFacts.

(** ** F1 *)

(** C7.  For precision [p >= 0] and recall [r >= 0], [f1_score_at_k p r]
    returns 0 when [p + r = 0] and the harmonic mean [2*p*r/(p+r)]
    otherwise; [f1_score_at_k 0 0.5] returns 0.  In every case a value is
    returned: no division raises. *)
Theorem f1_score_at_k_harmonic_mean (p r : Q) :
  0 <= p -> 0 <= r ->
  (p + r == 0 -> f1_score_at_k p r = Ok 0) /\
  (~ p + r == 0 ->
   exists v, f1_score_at_k p r = Ok v /\ v == 2 * p * r / (p + r)) /\
  (exists v, f1_score_at_k 0 (1 # 2) = Ok v /\ v == 0).
Proof.
  intros _ _. unfold f1_score_at_k, truediv. repeat split.
  - intro H. apply Qeqb_true in H. now rewrite H.
  - intro H. apply Qeqb_false in H. rewrite H.
    eexists. split; [reflexivity|].
    unfold Qdiv. now rewrite Qmult_assoc.
  - eexists. split; [reflexivity|]. reflexivity.
Qed.

Lemma f1_score_at_k_harmonic_mean_witness :
  0 <= 3 # 5 /\ 0 <= 1 # 2
  /\ ((3 # 5) + (1 # 2) == 0 -> f1_score_at_k (3 # 5) (1 # 2) = Ok 0)
  /\ (~ (3 # 5) + (1 # 2) == 0 ->
      exists v, f1_score_at_k (3 # 5) (1 # 2) = Ok v
                /\ v == 2 * (3 # 5) * (1 # 2) / ((3 # 5) + (1 # 2)))
  /\ (exists v, f1_score_at_k 0 (1 # 2) = Ok v /\ v == 0).
Proof.
  assert (P : 0 <= 3 # 5) by discriminate.
  assert (R : 0 <= 1 # 2) by discriminate.
  split; [exact P|]. split; [exact R|].
  exact (f1_score_at_k_harmonic_mean (3 # 5) (1 # 2) P R).
Defined.

(** The F1 score of the first evaluation of the notebook (precision 0.6,
    recall 0.5) is 6/11, printed as 0.5455. *)
Example f1_score_at_k_notebook :
  exists v, f1_score_at_k (3 # 5) (1 # 2) = Ok v /\ v == 6 # 11.
Proof. eexists. split; reflexivity. Qed.

(** ** Symmetry of the similarity arrays *)

Lemma dot_comm (x y : list Q) : dot x y = dot y x.
Proof.
  unfold dot. revert y.
  induction x as [|a x IH]; intros [|b y]; simpl; try reflexivity.
  rewrite IH. f_equal. apply Qmult_comm_eq.
Qed.

Lemma entry_linear_kernel (X Y : list (list Q)) (a b : nat) :
  entry (linear_kernel X Y) a b =
  match nth_error X a, nth_error Y b with
  | Some x, Some y => dot x y
  | _, _ => 0
  end.
Proof.
  unfold entry, linear_kernel.
  destruct (nth_error X a) as [x|] eqn:Ea.
  - rewrite (nth_error_nth _ _ _ (map_nth_error _ _ _ Ea)).
    destruct (nth_error Y b) as [y|] eqn:Eb.
    + now rewrite (nth_error_nth _ _ _ (map_nth_error _ _ _ Eb)).
    + apply nth_overflow. rewrite length_map. now apply nth_error_None.
  - rewrite (nth_overflow (map _ X)).
    + now destruct b.
    + rewrite length_map. now apply nth_error_None.
Qed.

Lemma linear_kernel_symmetric (X : list (list Q)) (a b : nat) :
  entry (linear_kernel X X) a b = entry (linear_kernel X X) b a.
Proof.
  rewrite !entry_linear_kernel.
  destruct (nth_error X a), (nth_error X b); try reflexivity.
  apply dot_comm.
Qed.

(** C8.  Both similarity arrays are symmetric: the user-user array
    [cosine_similarity(user_item_matrix)] and the item-item array
    [linear_kernel(tfidf_matrix, tfidf_matrix)] have equal entries at
    [(a, b)] and [(b, a)]. *)
Theorem similarity_symmetric (normalize_row : list Q -> list Q)
    (d : dataset) (tfidf_matrix : list (list Q)) (a b : nat) :
  entry (cosine_similarity normalize_row (uim_values d)) a b =
  entry (cosine_similarity normalize_row (uim_values d)) b a
  /\ entry (linear_kernel tfidf_matrix tfidf_matrix) a b =
     entry (linear_kernel tfidf_matrix tfidf_matrix) b a.
Proof.
  split; [unfold cosine_similarity|]; apply linear_kernel_symmetric.
Qed.

(** ** Unknown users *)

Lemma similar_users_raises (d : dataset) (u : Z) (n : nat) (e : exn) :
  similar_users d u n = Raise e -> e = IndexError.
Proof.
  unfold similar_users, ndarray_getitem.
  destruct (_ && _); [|simpl; congruence].
  destruct (nth_error _ _); simpl; congruence.
Qed.

Lemma uim_loc_raises (d : dataset) (u : Z) (e : exn) :
  uim_loc d u = Raise e -> e = KeyError.
Proof. unfold uim_loc. destruct (mem _ _); congruence. Qed.

Lemma mapM_uim_loc_raises (d : dataset) (l : list nat) (e : exn) :
  mapM (fun p => uim_loc d (Z.of_nat p)) l = Raise e -> e = KeyError.
Proof.
  induction l as [|p l IH]; simpl; [congruence|].
  destruct (uim_loc d (Z.of_nat p)) eqn:E; simpl.
  - destruct (mapM _ l); simpl; [congruence|].
    intro H. apply IH. congruence.
  - intro H. apply (uim_loc_raises d (Z.of_nat p)). congruence.
Qed.

Lemma by_users_unknown (d : dataset) (u : Z) (n r : nat) :
  ~ In u (uim_index d) ->
  recommend_videos_by_users d u n r = Raise IndexError
  \/ recommend_videos_by_users d u n r = Raise KeyError.
Proof.
  intro H. apply mem_not_In in H. unfold recommend_videos_by_users.
  destruct (similar_users d u n) as [similar|e] eqn:Es; simpl.
  - destruct (mapM _ similar) as [rows|e] eqn:Er; simpl.
    + unfold items_user_has_watched, uim_loc. rewrite H. now right.
    + apply mapM_uim_loc_raises in Er. subst. now right.
  - apply similar_users_raises in Es. subst. now left.
Qed.

(** C5.  A [user_id] that is not a row label of the user-item matrix (the
    index space from which the similarity array is built) makes both
    recommenders raise a lookup error, [IndexError] or [KeyError]; neither
    returns a result. *)
Theorem unknown_user_raises_lookup_error (d : dataset) (u : Z)
    (nb_top_similar res_length : nat) (content_weight : Q) :
  ~ In u (uim_index d) ->
  (exists e, is_lookup_error e = true
             /\ recommend_videos_by_users d u nb_top_similar res_length
                = Raise e)
  /\ (exists e, is_lookup_error e = true
                /\ recommmend_videos_for_user d u content_weight res_length
                   = Raise e).
Proof.
  intro H. split.
  - destruct (by_users_unknown d u nb_top_similar res_length H) as [E|E];
      rewrite E; eexists; (split; [|reflexivity]); reflexivity.
  - unfold recommmend_videos_for_user, combined_scores.
    destruct (by_users_unknown d u 10 50 H) as [E|E];
      rewrite E; eexists; (split; [|reflexivity]); reflexivity.
Qed.

Lemma unknown_user_raises_lookup_error_witness :
  ~ In 7%Z (uim_index two_users)
  /\ (exists e, is_lookup_error e = true
                /\ recommend_videos_by_users two_users 7 10 10 = Raise e)
  /\ (exists e, is_lookup_error e = true
                /\ recommmend_videos_for_user two_users 7 (3 # 10) 10
                   = Raise e).
Proof.
  assert (H : ~ In 7%Z (uim_index two_users)).
  { apply mem_not_In. reflexivity. }
  split; [exact H|].
  exact (unknown_user_raises_lookup_error two_users 7 10 10 (3 # 10) H).
Defined.

(** On [two_users] (user ids 0 and 1): a user id beyond the array raises
    [IndexError]; a negative one is taken from the end by the array and
    then missed by [.loc]. *)
Example unknown_user_examples :
  recommmend_videos_for_user two_users 7 (3 # 10) 10 = Raise IndexError
  /\ recommmend_videos_for_user two_users (-1) (3 # 10) 10 = Raise KeyError.
Proof. split; reflexivity. Qed.

(** ** Truncation *)

(** C6.  For result lengths [n <= m], the list returned with
    [res_length = n] is a prefix of the list returned with
    [res_length = m] (and the two calls raise the same exception when one
    of them raises). *)
Theorem res_length_prefix (d : dataset) (u : Z) (content_weight : Q)
    (n m : nat) :
  (n <= m)%nat ->
  match recommmend_videos_for_user d u content_weight n,
        recommmend_videos_for_user d u content_weight m with
  | Ok short, Ok long => exists rest, long = short ++ rest
  | Raise e, Raise e' => e = e'
  | _, _ => False
  end.
Proof.
  intro H. unfold recommmend_videos_for_user.
  destruct (combined_scores d u content_weight); simpl; [|reflexivity].
  apply firstn_le_prefix, H.
Qed.

Lemma res_length_prefix_witness :
  (1 <= 2)%nat
  /\ match recommmend_videos_for_user two_users 0 (3 # 10) 1,
           recommmend_videos_for_user two_users 0 (3 # 10) 2 with
     | Ok short, Ok long => exists rest, long = short ++ rest
     | Raise e, Raise e' => e = e'
     | _, _ => False
     end.
Proof.
  split; [lia|].
  apply (res_length_prefix two_users 0 (3 # 10) 1 2). lia.
Defined.

(** ** Content based candidates *)

Lemma index_of_Some (v : Z) (l : list Z) :
  In v l -> exists i, index_of v l = Some i /\ (i < length l)%nat.
Proof.
  induction l as [|x l IH]; simpl; [tauto|].
  intro H. destruct (Z.eqb x v) eqn:E.
  - exists O. split; [reflexivity | lia].
  - destruct H as [H|H]; [apply Z.eqb_neq in E; congruence|].
    destruct (IH H) as [i [Ei Li]]. exists (S i). rewrite Ei.
    split; [reflexivity | lia].
Qed.

Lemma mapM_iloc (l : list Z) (ps : list nat) :
  Forall (fun i => (i < length l)%nat) ps ->
  mapM (iloc l) ps = Ok (map (fun i => nth i l 0%Z) ps).
Proof.
  induction 1 as [|i ps Hi _ IH]; simpl; [reflexivity|].
  unfold iloc at 1. apply nth_error_Some in Hi.
  destruct (nth_error l i) as [x|] eqn:E; [|congruence].
  simpl. rewrite IH. simpl. now rewrite (nth_error_nth _ _ _ E).
Qed.

Lemma enumerate_fst_lt {A} (l : list A) (p : nat * A) :
  In p (enumerate l) -> (fst p < length l)%nat.
Proof.
  destruct p as [i a]. unfold enumerate. intro H.
  apply in_combine_l in H. apply in_seq in H. simpl. lia.
Qed.

Lemma combine_map_same {A B C} (f : A -> B) (g : A -> C) (l : list A) :
  combine (map f l) (map g l) = map (fun x => (f x, g x)) l.
Proof. induction l; simpl; congruence. Qed.

Lemma sim_before_asym (a b : nat * Q) :
  Qltb (snd b) (snd a) = true -> Qltb (snd a) (snd b) = false.
Proof.
  rewrite Qltb_true, Qltb_false. apply Qlt_le_weak.
Qed.

Lemma sim_ord_trans (a b c : nat * Q) :
  ord (fun y x => Qltb (snd x) (snd y)) a b ->
  ord (fun y x => Qltb (snd x) (snd y)) b c ->
  ord (fun y x => Qltb (snd x) (snd y)) a c.
Proof.
  unfold ord. rewrite !Qltb_false. intros H1 H2.
  now apply Qle_trans with (snd b).
Qed.

Lemma sorted_sim_scores_sorted (r : list Q) :
  StronglySorted (fun a b => snd b <= snd a) (sorted_sim_scores r).
Proof.
  pose proof (stable_sort_sorted (fun y x => Qltb (snd x) (snd y))
                sim_before_asym sim_ord_trans (enumerate r)) as S.
  unfold sorted_sim_scores.
  induction S as [|x l _ IH Hx]; constructor; [exact IH|].
  eapply Forall_impl; [|exact Hx].
  intros b Hb. unfold ord in Hb. now apply Qltb_false in Hb.
Qed.

Lemma StronglySorted_firstn {A} (R : A -> A -> Prop) (n : nat) (l : list A) :
  StronglySorted R l -> StronglySorted R (firstn n l).
Proof.
  intro S. revert n. induction S as [|x l _ IH Hx]; intro n.
  - rewrite firstn_nil. constructor.
  - destruct n; simpl; constructor; [apply IH|].
    apply Forall_forall. intros y Hy. rewrite Forall_forall in Hx.
    apply Hx. exact (In_firstn _ _ _ Hy).
Qed.

Lemma squareb_rows (n : nat) (M : list (list Q)) :
  squareb n M = true ->
  length M = n /\ forall r, In r M -> length r = n.
Proof.
  unfold squareb. intro H. apply andb_true_iff in H. destruct H as [H1 H2].
  apply Nat.eqb_eq in H1. split; [exact H1|].
  intros r Hr. rewrite forallb_forall in H2. now apply Nat.eqb_eq, H2.
Qed.

(** The candidates of one video when the similarity array has one row and
    one column per row of [categories]: the sorted list is not empty, its
    first entry is skipped, the next [res_length] are returned with their
    video ids. *)
Lemma recommend_similar_videos_ok (d : dataset) (v : Z) (res_length : nat) :
  squareb (length (categories d)) (content_based_cosine_sim d) = true ->
  In v (map fst (categories d)) ->
  exists sims top rest,
    sorted_sim_scores sims = top :: rest
    /\ length sims = length (categories d)
    /\ (exists idx, index_of v (map fst (categories d)) = Some idx
                    /\ nth_error (content_based_cosine_sim d) idx = Some sims)
    /\ recommend_similar_videos d v res_length
       = Ok (map (fun p => (nth (fst p) (map fst (categories d)) 0%Z,
                            Fin (snd p)))
                 (firstn res_length rest)).
Proof.
  intros W Hv. apply squareb_rows in W. destruct W as [Wl Wr].
  destruct (index_of_Some _ _ Hv) as [idx [Ei Li]].
  rewrite length_map in Li.
  destruct (nth_error (content_based_cosine_sim d) idx) as [sims|] eqn:En.
  2:{ apply nth_error_None in En. lia. }
  assert (Ls : length sims = length (categories d)).
  { apply Wr. eapply nth_error_In, En. }
  destruct (sorted_sim_scores sims) as [|top rest] eqn:Es.
  { apply (f_equal (@length _)) in Es. unfold sorted_sim_scores in Es.
    rewrite stable_sort_length in Es. unfold enumerate in Es.
    rewrite length_combine, length_seq, Nat.min_id in Es. simpl in Es. lia. }
  exists sims, top, rest. repeat split; trivial.
  - exists idx. now split.
  - unfold recommend_similar_videos. rewrite Ei. simpl.
    unfold iloc at 1. rewrite En. simpl. rewrite Es. simpl skipn.
    rewrite mapM_iloc.
    + simpl. rewrite !map_map. now rewrite combine_map_same.
    + apply Forall_forall. intros i Hi. apply in_map_iff in Hi.
      destruct Hi as [p [<- Hp]]. apply In_firstn in Hp.
      assert (Hin : In p (sorted_sim_scores sims)).
      { rewrite Es. now right. }
      unfold sorted_sim_scores in Hin. apply stable_sort_In in Hin.
      apply enumerate_fst_lt in Hin. rewrite length_map. lia.
Qed.

Lemma StronglySorted_map {A B} (R : A -> A -> Prop) (R' : B -> B -> Prop)
    (f : A -> B) (l : list A) :
  (forall a b, R a b -> R' (f a) (f b)) ->
  StronglySorted R l -> StronglySorted R' (map f l).
Proof.
  intros HR S. induction S as [|x l _ IH Hx]; simpl; constructor; trivial.
  apply Forall_forall. intros y Hy. apply in_map_iff in Hy.
  destruct Hy as [a [<- Ha]]. rewrite Forall_forall in Hx. auto.
Qed.

Lemma index_of_first (v : Z) (l : list Z) (i : nat) :
  index_of v l = Some i ->
  nth_error l i = Some v /\ forall j, (j < i)%nat -> nth_error l j <> Some v.
Proof.
  revert i. induction l as [|x l IH]; intro i; simpl; [discriminate|].
  destruct (Z.eqb x v) eqn:E.
  - intro H. injection H as <-. apply Z.eqb_eq in E. subst.
    split; [reflexivity | intros j Hj; lia].
  - destruct (index_of v l) as [i'|]; simpl; [|discriminate].
    intro H. injection H as <-. destruct (IH i' eq_refl) as [Hn Hf].
    split; [exact Hn|]. intros [|j] Hj; simpl.
    + intro H. injection H as ->. rewrite Z.eqb_refl in E. discriminate.
    + apply Hf. lia.
Qed.

(** Python's [sorted] is stable: candidates of equal similarity stay in
    ascending position. *)
Lemma insert_tie_order (x : nat * Q) (l : list (nat * Q)) :
  Forall (fun y => (fst x < fst y)%nat) l ->
  StronglySorted (fun a b => snd a == snd b -> (fst a < fst b)%nat) l ->
  StronglySorted (fun a b => snd a == snd b -> (fst a < fst b)%nat)
                 (insert (fun y x => Qltb (snd x) (snd y)) x l).
Proof.
  intros F S. induction S as [|y l Sl IH Hy]; simpl.
  - constructor; constructor.
  - inversion F as [|? ? Fy Fl]; subst.
    destruct (Qltb (snd x) (snd y)) eqn:B.
    + constructor; [now apply IH|].
      apply Forall_forall. intros z Hz.
      apply (Permutation_in _ (insert_perm _ x l)) in Hz.
      destruct Hz as [<-|Hz].
      * intro E. apply Qltb_true in B. rewrite E in B.
        now apply Qlt_irrefl in B.
      * rewrite Forall_forall in Hy. now apply Hy.
    + constructor; [now constructor|].
      apply Forall_forall. intros z Hz _.
      rewrite Forall_forall in F. now apply F.
Qed.

Lemma sorted_sim_scores_stable (sims : list Q) :
  StronglySorted (fun a b => snd a == snd b -> (fst a < fst b)%nat)
                 (sorted_sim_scores sims).
Proof.
  unfold sorted_sim_scores, enumerate. generalize 0%nat.
  induction sims as [|x sims IH]; intro s; simpl; [constructor|].
  apply insert_tie_order; [|apply IH].
  apply Forall_forall. intros [i y] Hy. apply stable_sort_In in Hy.
  apply in_combine_l, in_seq in Hy. simpl. lia.
Qed.

(** C9.  For a video of the categories table (the similarity array having
    one row and one column per row of that table), the candidates are the
    pairs (position, similarity) of the row of the video, arranged by
    descending similarity, pairs of equal similarity by ascending
    position.  The first candidate, than which none is more similar, is
    always skipped, whether or not it is the video itself;
    [recommend_similar_videos] returns the next [res_length] candidates,
    or all that remain when they are fewer, each under the video id of its
    position, in the order of the list: in descending order of
    similarity. *)
Theorem recommend_similar_videos_skips_top (d : dataset) (v : Z)
    (res_length : nat) :
  squareb (length (categories d)) (content_based_cosine_sim d) = true ->
  In v (map fst (categories d)) ->
  exists idx sims top rest s,
    (nth_error (map fst (categories d)) idx = Some v
     /\ forall j, (j < idx)%nat ->
                  nth_error (map fst (categories d)) j <> Some v)
    /\ nth_error (content_based_cosine_sim d) idx = Some sims
    /\ Permutation (top :: rest) (combine (seq 0 (length sims)) sims)
    /\ StronglySorted (fun a b => snd b <= snd a) (top :: rest)
    /\ StronglySorted (fun a b => snd a == snd b -> (fst a < fst b)%nat)
                      (top :: rest)
    /\ recommend_similar_videos d v res_length = Ok s
    /\ length s = Nat.min res_length (length rest)
    /\ s = map (fun p => (nth (fst p) (map fst (categories d)) 0%Z,
                          Fin (snd p)))
               (firstn res_length rest)
    /\ descending s.
Proof.
  intros W Hv.
  destruct (recommend_similar_videos_ok d v res_length W Hv)
    as [sims [top [rest [Es [_ [[idx [Ei En]] E]]]]]].
  pose proof (sorted_sim_scores_sorted sims) as S. rewrite Es in S.
  pose proof (sorted_sim_scores_stable sims) as T. rewrite Es in T.
  exists idx, sims, top, rest. eexists.
  split; [now apply index_of_first|]. split; [exact En|].
  split.
  { rewrite <- Es. apply stable_sort_perm. }
  split; [exact S|]. split; [exact T|]. split; [exact E|].
  split; [now rewrite length_map, length_firstn|].
  split; [reflexivity|].
  inversion S as [|? ? Srest _]; subst.
  apply StronglySorted_map with (R := fun a b => snd b <= snd a).
  - intros a b H. simpl. now apply Qltb_false.
  - now apply StronglySorted_firstn.
Qed.

Lemma recommend_similar_videos_skips_top_witness :
  squareb (length (categories two_users))
          (content_based_cosine_sim two_users) = true
  /\ In 1%Z (map fst (categories two_users))
  /\ exists idx sims top rest s,
       (nth_error (map fst (categories two_users)) idx = Some 1%Z
        /\ forall j, (j < idx)%nat ->
                     nth_error (map fst (categories two_users)) j
                     <> Some 1%Z)
       /\ nth_error (content_based_cosine_sim two_users) idx = Some sims
       /\ Permutation (top :: rest) (combine (seq 0 (length sims)) sims)
       /\ StronglySorted (fun a b => snd b <= snd a) (top :: rest)
       /\ StronglySorted
            (fun a b => snd a == snd b -> (fst a < fst b)%nat)
            (top :: rest)
       /\ recommend_similar_videos two_users 1 10 = Ok s
       /\ length s = Nat.min 10 (length rest)
       /\ s = map (fun p => (nth (fst p) (map fst (categories two_users)) 0%Z,
                             Fin (snd p)))
                  (firstn 10 rest)
       /\ descending s.
Proof.
  assert (W : squareb (length (categories two_users))
                      (content_based_cosine_sim two_users) = true)
    by reflexivity.
  assert (I : In 1%Z (map fst (categories two_users))) by (left; reflexivity).
  split; [exact W|]. split; [exact I|].
  exact (recommend_similar_videos_skips_top two_users 1 10 W I).
Defined.

(** ** Behaviour on the example tables *)

(** C1.  The hybrid recommender returns a video of the user's history:
    user 0 of [long_history] has watched video 21 (it is the least watched
    of 21 videos, so only the other 20 are dropped), and video 21 is the
    recommendation. *)
Theorem watched_video_is_recommended :
  In (row 0 21 1) (interactions long_history)
  /\ items_user_has_watched long_history 0 = Ok (map Z.of_nat (seq 1 21))
  /\ user_history long_history 0 = map Z.of_nat (seq 1 20)
  /\ recommmend_videos_for_user long_history 0 (3 # 10) 10
     = Ok [(21%Z, Fin (3 # 10))].
Proof.
  split; [|repeat split; vm_compute; reflexivity].
  vm_compute. do 20 right. left. reflexivity.
Qed.

Lemma similar_users_length (d : dataset) (u : Z) (n : nat)
    (l : list nat) :
  similar_users d u (S n) = Ok l -> (length l <= n)%nat.
Proof.
  unfold similar_users. destruct (ndarray_getitem _ _); simpl; [|congruence].
  intro H. injection H as <-. unfold slice_to_neg_rev.
  apply firstn_le_length.
Qed.

(** C2.  With [nb_top_similar = 2] the collaborative recommender of
    [three_users] selects one user for user 0, and that user is user 0:
    the scores it returns are the mean of user 0's own row, not the mean
    over the two other users.  With the default [nb_top_similar = 10] user
    0 is again among the selected users. *)
Theorem similar_users_selects_self_only :
  similar_users three_users 0 2 = Ok [0%nat]
  /\ recommend_videos_by_users three_users 0 2 10
     = Ok [(2%Z, Fin 0); (3%Z, Fin 0)]
  /\ similar_users three_users 0 10 = Ok [0%nat; 1%nat; 2%nat].
Proof. repeat split; vm_compute; reflexivity. Qed.


(** C10.  All watch ratios and similarity entries of [zero_maximum] are
    non-negative, and the score returned for user 0 is nan: the
    collaborative component holds the single score 0, its maximum is 0,
    and the normalisation divides 0 by 0. *)
Theorem zero_maximum_gives_nan :
  forallb (fun i => negb (Qltb (watch_ratio i) 0)) (interactions zero_maximum)
  = true
  /\ forallb (forallb (fun x => negb (Qltb x 0)))
             (user_similarity zero_maximum
              ++ content_based_cosine_sim zero_maximum) = true
  /\ recommend_videos_by_users zero_maximum 0 10 50 = Ok [(2%Z, Fin 0)]
  /\ recommmend_videos_for_user zero_maximum 0 (3 # 10) 10 = Ok [(2%Z, NaN)].
Proof. repeat split; vm_compute; reflexivity. Qed.

(** ** Series operations *)

Lemma keys_map_values (f : label -> float64 -> float64) (s : series) :
  keys (map (fun kv => (fst kv, f (fst kv) (snd kv))) s) = keys s.
Proof.
  unfold keys. rewrite map_map. apply map_ext. reflexivity.
Qed.

Lemma keys_series_mul (s : series) (w : Q) : keys (series_mul s w) = keys s.
Proof.
  exact (keys_map_values (fun _ v => fmul v (Fin w)) s).
Qed.

Lemma keys_normalize (s : series) : keys (normalize s) = keys s.
Proof.
  destruct s as [|kv s]; [reflexivity|].
  exact (keys_map_values (fun _ v => fdiv v (series_max (kv :: s))) (kv :: s)).
Qed.

Lemma get_absent (k : label) (s : series) :
  mem k (keys s) = false -> get k s = NaN.
Proof.
  induction s as [|[k' v] s IH]; simpl; [reflexivity|].
  unfold mem in *. simpl. destruct (Z.eqb k k'); simpl; [discriminate|].
  exact IH.
Qed.

Lemma get_map_values (f : float64 -> float64) (k : label) (s : series) :
  mem k (keys s) = true ->
  get k (map (fun kv => (fst kv, f (snd kv))) s) = f (get k s).
Proof.
  induction s as [|[k' v] s IH]; simpl; [discriminate|].
  unfold mem in *. simpl. destruct (Z.eqb k k'); simpl; [reflexivity|].
  exact IH.
Qed.

Lemma get_In (k : label) (v : float64) (s : series) :
  NoDup (keys s) -> In (k, v) s -> get k s = v.
Proof.
  induction s as [|[k' v'] s IH]; simpl; [tauto|].
  intros N H. inversion N as [|? ? Hk' N']; subst.
  destruct H as [H|H].
  - injection H as -> ->. now rewrite Z.eqb_refl.
  - destruct (Z.eqb k k') eqn:E; [|now apply IH].
    apply Z.eqb_eq in E. subst. exfalso. apply Hk'.
    unfold keys. apply in_map_iff. now exists (k', v).
Qed.

Lemma sorted_distinct_In (k : Z) (l : list Z) :
  In k (sorted_distinct l) <-> In k l.
Proof.
  unfold sorted_distinct. rewrite stable_sort_In. apply nodup_In.
Qed.

Lemma list_eqb_true (l r : list Z) : list_eqb l r = true -> l = r.
Proof. unfold list_eqb. destruct (list_eq_dec _ l r); congruence. Qed.

Lemma align_index_In (k : label) (l r : list label) :
  In k (align_index l r) <-> In k l \/ In k r.
Proof.
  unfold align_index. destruct (list_eqb l r) eqn:E.
  - apply list_eqb_true in E. subst. tauto.
  - rewrite sorted_distinct_In. apply in_app_iff.
Qed.

Lemma keys_series_add (l r : series) :
  keys (series_add l r) = align_index (keys l) (keys r).
Proof.
  unfold series_add, keys at 1. rewrite map_map. apply map_id.
Qed.

Lemma series_add_value (l r : series) (k : label) (v : float64) :
  In (k, v) (series_add l r) -> v = fill_add (get k l) (get k r).
Proof.
  unfold series_add. intro H. apply in_map_iff in H.
  destruct H as [k' [E _]]. now injection E as -> <-.
Qed.

Lemma sort_values_desc_In (s : series) (kv : label * float64) :
  In kv (sort_values_desc s) <-> In kv s.
Proof.
  unfold sort_values_desc.
  rewrite in_app_iff, stable_sort_In, !filter_In.
  destruct (isnan (snd kv)); simpl; intuition congruence.
Qed.

Lemma drop_In (ls : list label) (s : series) (kv : label * float64) :
  In kv (drop ls s) <-> In kv s /\ ~ In (fst kv) ls.
Proof.
  unfold drop. rewrite filter_In, negb_true_iff, mem_not_In. tauto.
Qed.

(** ** One component of the blend *)

Lemma mem_keys_nonempty (k : label) (s : series) :
  mem k (keys s) = true -> s <> [].
Proof. destruct s; [discriminate | congruence]. Qed.

Lemma get_normalize (k : label) (s : series) :
  mem k (keys s) = true ->
  get k (normalize s) = fdiv (get k s) (series_max s).
Proof.
  intro H. destruct s as [|kv s]; [discriminate|].
  exact (get_map_values (fun v => fdiv v (series_max (kv :: s))) k _ H).
Qed.

Lemma get_series_mul (k : label) (s : series) (w : Q) :
  mem k (keys s) = true ->
  get k (series_mul s w) = fmul (get k s) (Fin w).
Proof. exact (get_map_values (fun v => fmul v (Fin w)) k s). Qed.

(** ** The recommenders return under well-formed tables *)

Lemma wf_content (d : dataset) :
  wf_dataset d = true ->
  squareb (length (categories d)) (content_based_cosine_sim d) = true.
Proof.
  unfold wf_dataset. rewrite !andb_true_iff. tauto.
Qed.

Lemma wf_index (d : dataset) :
  wf_dataset d = true ->
  uim_index d = map Z.of_nat (seq 0 (length (uim_index d))).
Proof.
  unfold wf_dataset. rewrite !andb_true_iff. intro H.
  apply list_eqb_true. tauto.
Qed.

Lemma wf_user_similarity (d : dataset) :
  wf_dataset d = true ->
  squareb (length (uim_index d)) (user_similarity d) = true.
Proof. unfold wf_dataset. rewrite !andb_true_iff. tauto. Qed.

Lemma wf_videos (d : dataset) (i : interaction) :
  wf_dataset d = true ->
  In i (interactions d) -> In (video_id i) (map fst (categories d)).
Proof.
  unfold wf_dataset. rewrite !andb_true_iff. intros H Hi.
  apply mem_In. destruct H as [[_ H] _].
  rewrite forallb_forall in H. now apply H.
Qed.

Lemma wf_index_position (d : dataset) (u : Z) :
  wf_dataset d = true ->
  In u (uim_index d) ->
  exists i, u = Z.of_nat i /\ (i < length (uim_index d))%nat.
Proof.
  intros W H. rewrite (wf_index d W) in H. apply in_map_iff in H.
  destruct H as [i [<- Hi]]. apply in_seq in Hi. exists i.
  split; [reflexivity | lia].
Qed.

Lemma wf_position_index (d : dataset) (i : nat) :
  wf_dataset d = true ->
  (i < length (uim_index d))%nat -> In (Z.of_nat i) (uim_index d).
Proof.
  intros W H. rewrite (wf_index d W). apply in_map, in_seq. lia.
Qed.

Lemma ndarray_getitem_ok {A} (a : list A) (i : nat) :
  (i < length a)%nat ->
  exists x, ndarray_getitem a (Z.of_nat i) = Ok x /\ nth_error a i = Some x.
Proof.
  intro H. unfold ndarray_getitem.
  replace (Z.of_nat i <? 0)%Z with false by (symmetry; apply Z.ltb_ge; lia).
  replace ((0 <=? Z.of_nat i) && (Z.of_nat i <? Z.of_nat (length a)))%Z
    with true
    by (symmetry; apply andb_true_iff; split;
        [apply Z.leb_le | apply Z.ltb_lt]; lia).
  rewrite Nat2Z.id. destruct (nth_error a i) as [x|] eqn:E.
  - now exists x.
  - apply nth_error_None in E. lia.
Qed.

Lemma argsort_lt (r : list Q) (p : nat) :
  In p (argsort r) -> (p < length r)%nat.
Proof.
  unfold argsort. intro H. apply in_map_iff in H.
  destruct H as [x [<- Hx]]. apply stable_sort_In in Hx.
  now apply enumerate_fst_lt.
Qed.

Lemma slice_to_neg_rev_In {A} (n : nat) (l : list A) (x : A) :
  In x (slice_to_neg_rev n l) -> In x l.
Proof.
  unfold slice_to_neg_rev. intro H. apply In_firstn in H. now apply in_rev.
Qed.

Lemma mapM_ok {A B} (f : A -> result B) (l : list A) :
  (forall a, In a l -> exists b, f a = Ok b) ->
  exists bs, mapM f l = Ok bs /\ length bs = length l.
Proof.
  induction l as [|a l IH]; intro H; simpl.
  - now exists [].
  - destruct (H a) as [b Eb]; [now left|].
    destruct IH as [bs [Ebs L]]; [intros; apply H; now right|].
    rewrite Eb, Ebs. simpl. exists (b :: bs). simpl. now rewrite L.
Qed.

Lemma uim_loc_ok (d : dataset) (u : Z) :
  In u (uim_index d) ->
  uim_loc d u = Ok (map (uim_cell d u) (uim_columns d)).
Proof. intro H. apply mem_In in H. unfold uim_loc. now rewrite H. Qed.

(** The collaborative recommender under well-formed tables: the rows it
    averages and the watched videos it removes do not depend on
    [res_length]. *)
Lemma recommend_videos_by_users_ok (d : dataset) (u : Z) (n : nat) :
  wf_dataset d = true ->
  In u (uim_index d) ->
  exists similar rows watched,
    similar_users d u n = Ok similar
    /\ mapM (fun p => uim_loc d (Z.of_nat p)) similar = Ok rows
    /\ length rows = length similar
    /\ items_user_has_watched d u = Ok watched
    /\ forall r,
        recommend_videos_by_users d u n r
        = Ok (head r (filter (fun kv => negb (mem (fst kv) watched))
                        (sort_values_desc
                           (mean_axis0 (uim_columns d) rows)))).
Proof.
  intros W Hu.
  destruct (wf_index_position d u W Hu) as [i [-> Hi]].
  pose proof (squareb_rows _ _ (wf_user_similarity d W)) as [Ln Lr].
  destruct (ndarray_getitem_ok (user_similarity d) i) as [sims [Eg En]];
    [lia|].
  assert (Es : similar_users d (Z.of_nat i) n
               = Ok (slice_to_neg_rev n (argsort sims))).
  { unfold similar_users. now rewrite Eg. }
  destruct (mapM_ok (fun p => uim_loc d (Z.of_nat p))
                    (slice_to_neg_rev n (argsort sims)))
    as [rows [Er Lrows]].
  { intros p Hp. eexists. apply uim_loc_ok, wf_position_index; [exact W|].
    apply slice_to_neg_rev_In, argsort_lt in Hp.
    rewrite (Lr sims) in Hp; [exact Hp|]. eapply nth_error_In, En. }
  exists (slice_to_neg_rev n (argsort sims)), rows.
  eexists. repeat split; try eassumption.
  - unfold items_user_has_watched. rewrite (uim_loc_ok d _ Hu). reflexivity.
  - intro r. unfold recommend_videos_by_users.
    rewrite Es. simpl. rewrite Er. simpl.
    unfold items_user_has_watched. rewrite (uim_loc_ok d _ Hu). reflexivity.
Qed.

Lemma user_history_In (d : dataset) (u v : Z) :
  In v (user_history d u) ->
  exists i, In i (interactions d) /\ user_id i = u /\ video_id i = v.
Proof.
  unfold user_history, get_most_watched_videos_by_user_id, head.
  intro H. apply in_map_iff in H. destruct H as [i [<- Hi]].
  apply In_firstn, stable_sort_In, filter_In in Hi.
  destruct Hi as [Hi E]. apply Z.eqb_eq in E. now exists i.
Qed.

Lemma accumulate_ok (d : dataset) (history : list Z) :
  wf_dataset d = true ->
  (forall v, In v history -> In v (map fst (categories d))) ->
  forall acc, exists s, accumulate d history acc = Ok s.
Proof.
  intro W. induction history as [|v h IH]; intros H acc; simpl.
  - now exists acc.
  - destruct (recommend_similar_videos_ok d v 10 (wf_content d W))
      as [? [? [? [_ [_ [_ E]]]]]].
    { apply H. now left. }
    rewrite E. simpl. apply IH. intros; apply H; now right.
Qed.

Lemma content_scores_ok (d : dataset) (u : Z) :
  wf_dataset d = true -> exists s, content_scores d u = Ok s.
Proof.
  intro W. apply accumulate_ok; [exact W|].
  intros v Hv. apply user_history_In in Hv.
  destruct Hv as [i [Hi [_ <-]]]. now apply wf_videos.
Qed.

(** The hybrid recommender never returns one of the 20 most watched videos
    of the user. *)
Lemma recommended_not_in_user_history (d : dataset) (u : Z) (w : Q)
    (n : nat) (res : series) (k : label) :
  recommmend_videos_for_user d u w n = Ok res ->
  In k (keys res) -> ~ In k (user_history d u).
Proof.
  unfold recommmend_videos_for_user.
  destruct (combined_scores d u w) as [combined|]; simpl; [|discriminate].
  intros E Hk. injection E as <-. apply in_map_iff in Hk.
  destruct Hk as [kv [<- H]].
  apply In_firstn, sort_values_desc_In, drop_In in H. tauto.
Qed.

(** ** More on lists and sorting *)

Lemma filter_of_map {A B} (f : B -> bool) (g : A -> B) (l : list A) :
  filter f (map g l) = map g (filter (fun x => f (g x)) l).
Proof.
  induction l as [|x l IH]; simpl; [reflexivity|].
  destruct (f (g x)); simpl; now rewrite IH.
Qed.

Lemma filter_none {A} (f : A -> bool) (l : list A) :
  (forall x, In x l -> f x = false) -> filter f l = [].
Proof.
  induction l as [|x l IH]; intro H; simpl; [reflexivity|].
  rewrite (H x) by now left. apply IH. intros; apply H; now right.
Qed.

Lemma filter_all {A} (f : A -> bool) (l : list A) :
  (forall x, In x l -> f x = true) -> filter f l = l.
Proof.
  induction l as [|x l IH]; intro H; simpl; [reflexivity|].
  rewrite (H x) by now left. f_equal. apply IH. intros; apply H; now right.
Qed.

Lemma filter_partition_perm {A} (f : A -> bool) (l : list A) :
  Permutation (filter (fun x => negb (f x)) l ++ filter f l) l.
Proof.
  induction l as [|x l IH]; simpl; [apply perm_nil|].
  destruct (f x); simpl.
  - apply Permutation_sym. eapply Permutation_trans;
      [apply perm_skip, Permutation_sym, IH | apply Permutation_middle].
  - now apply perm_skip.
Qed.

Lemma keys_filter_NoDup (keep : label * float64 -> bool) (s : series) :
  NoDup (keys s) -> NoDup (keys (filter keep s)).
Proof.
  unfold keys. induction s as [|kv s IH]; simpl; intro N; [constructor|].
  inversion N as [|? ? Hkv N']; subst.
  destruct (keep kv); simpl; [|now apply IH].
  constructor; [|now apply IH].
  intro H. apply Hkv. apply in_map_iff in H. destruct H as [y [E Hy]].
  apply filter_In in Hy. apply in_map_iff. exists y. tauto.
Qed.

Lemma keys_firstn_NoDup (n : nat) (s : series) :
  NoDup (keys s) -> NoDup (keys (firstn n s)).
Proof.
  unfold keys. rewrite <- (firstn_skipn n s) at 1. rewrite map_app.
  apply NoDup_app_remove_r.
Qed.

Section SortedSplit.
Context {A : Type} (before : A -> A -> bool).

Lemma insert_map {B} (before' : B -> B -> bool) (f : A -> B) (x : A)
    (l : list A) :
  (forall y, In y l -> before' (f y) (f x) = before y x) ->
  insert before' (f x) (map f l) = map f (insert before x l).
Proof.
  induction l as [|y l IH]; intro H; simpl; [reflexivity|].
  rewrite (H y) by now left.
  destruct (before y x); simpl; [|reflexivity].
  f_equal. apply IH. intros; apply H; now right.
Qed.

Lemma stable_sort_map {B} (before' : B -> B -> bool) (f : A -> B)
    (l : list A) :
  (forall x y, In x l -> In y l -> before' (f y) (f x) = before y x) ->
  stable_sort before' (map f l) = map f (stable_sort before l).
Proof.
  induction l as [|x l IH]; intro H; simpl; [reflexivity|].
  rewrite IH by (intros; apply H; now right).
  apply insert_map. intros y Hy. apply stable_sort_In in Hy.
  apply H; [now left | now right].
Qed.
End SortedSplit.

(** Ascending lists of labels without repetition. *)

Lemma Z_before_asym (a b : Z) : Z.ltb a b = true -> Z.ltb b a = false.
Proof. rewrite Z.ltb_lt, Z.ltb_ge. lia. Qed.

Lemma Z_ord_trans (a b c : Z) :
  ord Z.ltb a b -> ord Z.ltb b c -> ord Z.ltb a c.
Proof. unfold ord. rewrite !Z.ltb_ge. lia. Qed.

Lemma sorted_distinct_NoDup (l : list Z) : NoDup (sorted_distinct l).
Proof.
  unfold sorted_distinct.
  apply (Permutation_NoDup (Permutation_sym (stable_sort_perm Z.ltb _))).
  apply NoDup_nodup.
Qed.

Lemma sorted_NoDup_lt (l : list Z) :
  StronglySorted (ord Z.ltb) l -> NoDup l -> StronglySorted Z.lt l.
Proof.
  induction 1 as [|x l _ IH Hx]; intro N; constructor;
    inversion N as [|? ? Hn N']; subst.
  - now apply IH.
  - apply Forall_forall. intros y Hy. rewrite Forall_forall in Hx.
    specialize (Hx y Hy). unfold ord in Hx. apply Z.ltb_ge in Hx.
    assert (x <> y) by (intro; subst; contradiction). lia.
Qed.

Lemma sorted_distinct_ascending (l : list Z) :
  StronglySorted Z.lt (sorted_distinct l).
Proof.
  apply sorted_NoDup_lt; [|apply sorted_distinct_NoDup].
  apply stable_sort_sorted; [exact Z_before_asym | exact Z_ord_trans].
Qed.

Lemma StronglySorted_filter {A} (R : A -> A -> Prop) (p : A -> bool)
    (l : list A) :
  StronglySorted R l -> StronglySorted R (filter p l).
Proof.
  induction 1 as [|x l _ IH Hx]; simpl; [constructor|].
  destruct (p x); [constructor|]; trivial.
  apply Forall_forall. intros y Hy. apply filter_In in Hy.
  rewrite Forall_forall in Hx. now apply Hx.
Qed.

(** ** The order of the values *)

Lemma Qltb_compat (a a' b b' : Q) :
  a == a' -> b == b' -> Qltb a b = Qltb a' b'.
Proof.
  intros Ha Hb. unfold Qltb. now rewrite Ha, Hb.
Qed.

Lemma fltb_total_agrees (a b : float64) :
  isnan a = false -> isnan b = false -> fltb_total a b = fltb a b.
Proof. destruct a, b; simpl; congruence. Qed.

Lemma by_value_desc_total_asym (a b : label * float64) :
  by_value_desc_total a b = true -> by_value_desc_total b a = false.
Proof.
  unfold by_value_desc_total.
  destruct (snd a), (snd b); simpl; try congruence.
  rewrite Qltb_true, Qltb_false. apply Qlt_le_weak.
Qed.

Lemma by_value_desc_total_trans (a b c : label * float64) :
  ord by_value_desc_total a b -> ord by_value_desc_total b c ->
  ord by_value_desc_total a c.
Proof.
  unfold ord, by_value_desc_total.
  destruct (snd a), (snd b), (snd c); simpl; try congruence.
  rewrite !Qltb_false. intros H1 H2. now apply Qle_trans with q0.
Qed.

Lemma stable_sort_total (s : series) :
  no_nan s ->
  stable_sort by_value_desc s = stable_sort by_value_desc_total s.
Proof.
  intro H.
  pose proof (stable_sort_map by_value_desc_total by_value_desc
                (fun kv => kv) s) as E.
  rewrite map_id in E. rewrite E; [now rewrite map_id|].
  intros x y Hx Hy. unfold by_value_desc, by_value_desc_total.
  symmetry. apply fltb_total_agrees; now apply H.
Qed.

Lemma no_nan_filter (p : label * float64 -> bool) (s : series) :
  no_nan s -> no_nan (filter p s).
Proof. intros H kv Hkv. apply filter_In in Hkv. now apply H. Qed.

Lemma no_nan_sort (s : series) :
  no_nan s -> no_nan (stable_sort by_value_desc s).
Proof. intros H kv Hkv. apply stable_sort_In in Hkv. now apply H. Qed.

Lemma desc_sort_sorted (s : series) :
  no_nan s ->
  StronglySorted (ord by_value_desc_total) (stable_sort by_value_desc s).
Proof.
  intro H. rewrite stable_sort_total by exact H.
  apply stable_sort_sorted;
    [exact by_value_desc_total_asym | exact by_value_desc_total_trans].
Qed.

Lemma no_nan_nonnan (s : series) :
  no_nan (filter (fun kv => negb (isnan (snd kv))) s).
Proof.
  intros kv H. apply filter_In in H. now apply negb_true_iff.
Qed.

Lemma sort_values_desc_perm (s : series) :
  Permutation (sort_values_desc s) s.
Proof.
  unfold sort_values_desc.
  eapply Permutation_trans;
    [apply Permutation_app_tail, stable_sort_perm|].
  apply (filter_partition_perm (fun kv => isnan (snd kv))).
Qed.

(** ** The maximum of a component *)

Lemma fmax_skipna_finite (acc v : float64) :
  finite_or_nan acc -> finite_or_nan v -> finite_or_nan (fmax_skipna acc v).
Proof.
  unfold fmax_skipna. destruct v, acc; simpl; trivial.
  now destruct (Qltb _ _).
Qed.

Lemma fold_max_ge (vs : list float64) :
  Forall finite_or_nan vs ->
  forall acc y,
    finite_or_nan acc ->
    acc = Fin y \/ In (Fin y) vs ->
    exists m, fold_left fmax_skipna vs acc = Fin m /\ y <= m.
Proof.
  induction 1 as [|v vs Hv _ IH]; intros acc y Ha H; simpl.
  - destruct H as [->|[]]. exists y. split; [reflexivity | apply Qle_refl].
  - assert (Hf : finite_or_nan (fmax_skipna acc v))
      by now apply fmax_skipna_finite.
    assert (Hy : (acc = Fin y \/ v = Fin y) ->
                 exists y', fmax_skipna acc v = Fin y' /\ y <= y').
    { unfold fmax_skipna. intros [->| ->].
      - destruct v as [b| | |]; simpl; try contradiction.
        + destruct (Qltb y b) eqn:L.
          * exists b. split; [reflexivity|].
            apply Qltb_true in L. now apply Qlt_le_weak.
          * exists y. split; [reflexivity | apply Qle_refl].
        + exists y. split; [reflexivity | apply Qle_refl].
      - destruct acc as [a| | |]; simpl; try contradiction.
        + destruct (Qltb a y) eqn:L.
          * exists y. split; [reflexivity | apply Qle_refl].
          * exists a. split; [reflexivity | now apply Qltb_false]. 
        + exists y. split; [reflexivity | apply Qle_refl]. }
    destruct H as [H|[H|H]].
    + destruct Hy as [y' [E L]]; [now left|].
      destruct (IH _ y' Hf (or_introl E)) as [m [Em Lm]].
      exists m. split; [exact Em | now apply Qle_trans with y'].
    + destruct Hy as [y' [E L]]; [now right|].
      destruct (IH _ y' Hf (or_introl E)) as [m [Em Lm]].
      exists m. split; [exact Em | now apply Qle_trans with y'].
    + apply (IH _ y Hf). now right.
Qed.

Lemma series_max_ge (s : series) (k : label) (y : Q) :
  (forall kv, In kv s -> finite_or_nan (snd kv)) ->
  In (k, Fin y) s ->
  exists m, series_max s = Fin m /\ y <= m.
Proof.
  intros Hs Hin. unfold series_max. apply fold_max_ge.
  - apply Forall_forall. intros v Hv. apply in_map_iff in Hv.
    destruct Hv as [kv [<- Hkv]]. now apply Hs.
  - exact I.
  - right. apply in_map_iff. now exists (k, Fin y).
Qed.

(** ** Values of the blend at weight 0 *)

Lemma fmul_zero (v : float64) : zero_or_nan (fmul v (Fin 0)).
Proof.
  destruct v as [x| | |]; [right | left | left | left]; try reflexivity.
  exists (Qred (x * 0)). split; [reflexivity|]. rewrite Qred_correct. ring.
Qed.

Lemma zero_weight_content (content : series) (k : label) :
  zero_or_nan (get k (series_mul content 0)).
Proof.
  destruct (mem k (keys content)) eqn:M.
  - rewrite get_series_mul by exact M. apply fmul_zero.
  - left. apply get_absent. now rewrite keys_series_mul.
Qed.

Lemma fill_add_collab (t : float64) (y : Q) :
  zero_or_nan t -> fill_add t (Fin y) = Fin (Qred y).
Proof.
  intros [->|[q [-> Hq]]]; unfold fill_add, isnan, fadd; f_equal;
    apply Qred_complete; [|rewrite Hq]; ring.
Qed.

Lemma fill_add_no_collab (t : float64) :
  zero_or_nan t -> positive (fill_add t NaN) = false.
Proof.
  intros [->|[q [-> Hq]]]; unfold fill_add, isnan, fadd, positive, fltb;
    [reflexivity|].
  apply Qltb_false. rewrite Qred_correct, Hq. discriminate.
Qed.

Lemma rescale_value (m x : Q) :
  0 < m -> Qred (Qred (Qred (x / m) * (1 - 0))) == x / m.
Proof.
  intro Hm. rewrite !Qred_correct. field.
  intro E. rewrite E in Hm. discriminate.
Qed.

Lemma rescale_order (m x y : Q) :
  0 < m ->
  fltb (rescale m (Fin x)) (rescale m (Fin y)) = fltb (Fin x) (Fin y).
Proof.
  intro Hm. unfold rescale, fltb.
  rewrite (Qltb_compat _ _ _ _ (rescale_value m x Hm) (rescale_value m y Hm)).
  assert (Hi : 0 < / m) by now apply Qinv_lt_0_compat.
  destruct (Qltb x y) eqn:L.
  - apply Qltb_true. apply Qltb_true in L. unfold Qdiv.
    now apply Qmult_lt_r.
  - apply Qltb_false. apply Qltb_false in L. unfold Qdiv.
    now apply Qmult_le_r.
Qed.

Lemma rescale_positive (m x : Q) :
  0 < m -> positive (rescale m (Fin x)) = positive (Fin x).
Proof.
  intro Hm. unfold positive, rescale, fltb.
  rewrite (Qltb_compat 0 0 _ (x / m) (Qeq_refl 0) (rescale_value m x Hm)).
  assert (Hi : 0 < / m) by now apply Qinv_lt_0_compat.
  assert (Z : 0 == 0 * / m) by ring.
  unfold Qdiv. destruct (Qltb 0 x) eqn:L.
  - apply Qltb_true. apply Qltb_true in L. rewrite Z. now apply Qmult_lt_r.
  - apply Qltb_false. apply Qltb_false in L. rewrite Z. now apply Qmult_le_r.
Qed.

Lemma get_entry (k : label) (s : series) :
  In k (keys s) -> In (k, get k s) s.
Proof.
  induction s as [|[k' v] s IH]; simpl; [tauto|].
  intro H. destruct (Z.eqb k k') eqn:E.
  - apply Z.eqb_eq in E. subst. now left.
  - right. apply IH. destruct H as [H|H]; [|exact H].
    apply Z.eqb_neq in E. congruence.
Qed.

Lemma align_index_cases (l r : list label) :
  align_index l r = r
  \/ (r = [] /\ align_index l r = l)
  \/ align_index l r = sorted_distinct (l ++ r).
Proof.
  unfold align_index. destruct (list_eqb l r) eqn:E.
  - apply list_eqb_true in E. subst. now left.
  - now right; right.
Qed.

(** ** The collaborative ranking inside the hybrid ranking *)

Lemma map_snd_enumerate {A} (l : list A) : map snd (enumerate l) = l.
Proof.
  unfold enumerate. generalize 0%nat.
  induction l as [|x l IH]; intro s; simpl; [reflexivity|].
  now rewrite IH.
Qed.

Lemma keys_mean_axis0 (cols : list Z) (rows : list (list Q)) :
  keys (mean_axis0 cols rows) = cols.
Proof.
  unfold mean_axis0, keys. rewrite map_map. simpl.
  apply map_snd_enumerate.
Qed.

(** ** Range of the scores *)

Lemma values_in_get (P : Q -> Prop) (s : series) (k : label) :
  values_in P s ->
  (mem k (keys s) = false /\ get k s = NaN)
  \/ (mem k (keys s) = true /\ exists q, get k s = Fin q /\ P q).
Proof.
  intro H. destruct (mem k (keys s)) eqn:M.
  - right. split; [reflexivity|].
    apply mem_In, get_entry in M. exact (H _ M).
  - left. split; [reflexivity | now apply get_absent].
Qed.

Lemma series_add_values (P1 P2 P : Q -> Prop) (l r : series) :
  (forall a b, a == b -> P a -> P b) ->
  (forall a b, P1 a -> P2 b -> P (a + b)) ->
  (forall a, P1 a -> P (a + 0)) ->
  (forall b, P2 b -> P (0 + b)) ->
  values_in P1 l -> values_in P2 r -> values_in P (series_add l r).
Proof.
  intros Hc H12 H1 H2 Hl Hr [k v] Hin. simpl.
  rewrite (series_add_value _ _ _ _ Hin).
  assert (Hk : In k (keys l) \/ In k (keys r)).
  { rewrite <- align_index_In, <- keys_series_add.
    unfold keys. apply in_map_iff. now exists (k, v). }
  destruct (values_in_get P1 l k Hl) as [[Ml ->]|[_ [a [-> Pa]]]];
    destruct (values_in_get P2 r k Hr) as [[Mr ->]|[_ [b [-> Pb]]]];
    unfold fill_add, isnan, fadd.
  - exfalso. rewrite <- !mem_In in Hk. destruct Hk; congruence.
  - eexists. split; [reflexivity|].
    apply (Hc (0 + b)); [symmetry; apply Qred_correct | now apply H2].
  - eexists. split; [reflexivity|].
    apply (Hc (a + 0)); [symmetry; apply Qred_correct | now apply H1].
  - eexists. split; [reflexivity|].
    apply (Hc (a + b)); [symmetry; apply Qred_correct | now apply H12].
Qed.

Lemma nonneg_compat (a b : Q) : a == b -> 0 <= a -> 0 <= b.
Proof. intros E H. now rewrite <- E. Qed.

Lemma series_add_nonneg (l r : series) :
  values_in (Qle 0) l -> values_in (Qle 0) r ->
  values_in (Qle 0) (series_add l r).
Proof.
  apply series_add_values.
  - exact nonneg_compat.
  - intros a b Ha Hb. rewrite <- (Qplus_0_l 0). now apply Qplus_le_compat.
  - intros a Ha. now rewrite Qplus_0_r.
  - intros b Hb. now rewrite Qplus_0_l.
Qed.

Lemma recommend_similar_videos_nonneg (d : dataset) (v : Z) (r : nat)
    (s : series) :
  (forall row x, In row (content_based_cosine_sim d) -> In x row -> 0 <= x) ->
  recommend_similar_videos d v r = Ok s -> values_in (Qle 0) s.
Proof.
  intro Hd. unfold recommend_similar_videos.
  destruct (index_of v _) as [idx|]; cbn [bind]; [|discriminate].
  unfold iloc at 1.
  destruct (nth_error (content_based_cosine_sim d) idx) as [sims|] eqn:En;
    cbn [bind]; [|discriminate].
  destruct (mapM _ _) as [ids|]; cbn [bind]; [|discriminate].
  intro E. injection E as <-. intros [k x] Hkv.
  apply in_combine_r in Hkv. rewrite map_map in Hkv.
  apply in_map_iff in Hkv. destruct Hkv as [[i y] [E Hp]].
  simpl in E. subst x. exists y. split; [reflexivity|].
  apply In_firstn in Hp.
  assert (Hq : In (i, y) (sorted_sim_scores sims)).
  { destruct (sorted_sim_scores sims); [destruct Hp | now right]. }
  unfold sorted_sim_scores in Hq.
  apply stable_sort_In in Hq. unfold enumerate in Hq.
  apply in_combine_r in Hq.
  apply (Hd sims); [eapply nth_error_In, En | exact Hq].
Qed.

Lemma accumulate_nonneg (d : dataset) (history : list Z) :
  (forall row x, In row (content_based_cosine_sim d) -> In x row -> 0 <= x) ->
  forall acc s,
    values_in (Qle 0) acc ->
    accumulate d history acc = Ok s -> values_in (Qle 0) s.
Proof.
  intro Hd. induction history as [|v h IH]; intros acc s Ha; simpl.
  - intro E. now injection E as <-.
  - destruct (recommend_similar_videos d v 10) as [sim|] eqn:Es; simpl;
      [|discriminate].
    apply IH. apply series_add_nonneg; [exact Ha|].
    now apply (recommend_similar_videos_nonneg d v 10).
Qed.

Lemma fold_qmax_nonneg (ws : list Q) (w : Q) :
  0 <= w -> (forall x, In x ws -> 0 <= x) -> 0 <= fold_left qmax ws w.
Proof.
  revert w. induction ws as [|x ws IH]; intros w Hw H; simpl; [exact Hw|].
  apply IH; [|intros; apply H; now right].
  unfold qmax. destruct (Qltb w x); [apply H; now left | exact Hw].
Qed.

Lemma uim_cell_nonneg (d : dataset) (u v : Z) :
  (forall i, In i (interactions d) -> 0 <= watch_ratio i) ->
  0 <= uim_cell d u v.
Proof.
  intro H. unfold uim_cell.
  assert (Hw : forall x,
             In x (map watch_ratio
                     (filter (fun i => Z.eqb (user_id i) u
                                       && Z.eqb (video_id i) v)
                             (interactions d))) -> 0 <= x).
  { intros x Hx. apply in_map_iff in Hx. destruct Hx as [i [<- Hi]].
    apply filter_In in Hi. now apply H. }
  destruct (map watch_ratio _) as [|w ws]; [apply Qle_refl|].
  apply fold_qmax_nonneg; [apply Hw; now left|].
  intros; apply Hw; now right.
Qed.

Lemma fold_Qplus_nonneg (xs : list Q) (acc : Q) :
  0 <= acc -> (forall x, In x xs -> 0 <= x) -> 0 <= fold_left Qplus xs acc.
Proof.
  revert acc. induction xs as [|x xs IH]; intros acc Ha H; simpl;
    [exact Ha|].
  apply IH; [|intros; apply H; now right].
  rewrite <- (Qplus_0_l 0). apply Qplus_le_compat; [exact Ha|].
  apply H. now left.
Qed.

Lemma mean_nonneg (xs : list Q) :
  xs <> [] -> (forall x, In x xs -> 0 <= x) ->
  exists q, mean xs = Fin q /\ 0 <= q.
Proof.
  intros Hne H. destruct xs as [|x xs]; [congruence|].
  unfold mean. eexists. split; [reflexivity|].
  rewrite Qred_correct. unfold Qdiv. apply Qmult_le_0_compat.
  - apply fold_Qplus_nonneg; [apply Qle_refl | exact H].
  - apply Qinv_le_0_compat. unfold Qle. simpl. lia.
Qed.

Lemma mapM_In {A B} (f : A -> result B) (l : list A) (bs : list B) (b : B) :
  mapM f l = Ok bs -> In b bs -> exists a, In a l /\ f a = Ok b.
Proof.
  revert bs. induction l as [|a l IH]; intros bs; simpl.
  - intro E. injection E as <-. intros [].
  - destruct (f a) as [b0|] eqn:Ea; cbn [bind]; [|discriminate].
    destruct (mapM f l) as [bs0|]; cbn [bind]; [|discriminate].
    intro E. injection E as <-. intros [<-|H].
    + exists a. split; [now left | exact Ea].
    + destruct (IH bs0 eq_refl H) as [a' [Ha' Ea']].
      exists a'. split; [now right | exact Ea'].
Qed.

Lemma mean_axis0_nonneg (cols : list Z) (rows : list (list Q)) :
  rows <> [] ->
  (forall r x, In r rows -> In x r -> 0 <= x) ->
  values_in (Qle 0) (mean_axis0 cols rows).
Proof.
  intros Hne H kv Hkv. unfold mean_axis0 in Hkv.
  apply in_map_iff in Hkv. destruct Hkv as [[j c] [<- _]]. simpl.
  apply mean_nonneg.
  - destruct rows; [congruence | discriminate].
  - intros x Hx. apply in_map_iff in Hx. destruct Hx as [r [<- Hr]].
    destruct (nth_in_or_default j r 0) as [Hin| ->];
      [now apply (H r) | apply Qle_refl].
Qed.

Lemma similar_users_nonempty (d : dataset) (u : Z) (k : nat)
    (l : list nat) :
  wf_dataset d = true ->
  In u (uim_index d) ->
  similar_users d u (S (S k)) = Ok l -> l <> [].
Proof.
  intros W Hu.
  destruct (wf_index_position d u W Hu) as [i [-> Hi]].
  pose proof (squareb_rows _ _ (wf_user_similarity d W)) as [Ln Lr].
  destruct (ndarray_getitem_ok (user_similarity d) i) as [sims [Eg En]];
    [lia|].
  unfold similar_users. rewrite Eg. cbn [bind].
  intro E. injection E as <-. unfold slice_to_neg_rev.
  assert (L : length (rev (argsort sims)) = length (uim_index d)).
  { rewrite length_rev. unfold argsort.
    rewrite length_map, stable_sort_length. unfold enumerate.
    rewrite length_combine, length_seq, Nat.min_id.
    apply Lr. eapply nth_error_In, En. }
  destruct (rev (argsort sims)); [simpl in L; lia | discriminate].
Qed.

Lemma collaborative_nonneg (d : dataset) (u : Z) (r : nat) (s : series) :
  wf_dataset d = true ->
  In u (uim_index d) ->
  (forall i, In i (interactions d) -> 0 <= watch_ratio i) ->
  recommend_videos_by_users d u 10 r = Ok s -> values_in (Qle 0) s.
Proof.
  intros W Hu Hd.
  destruct (recommend_videos_by_users_ok d u 10 W Hu)
    as [similar [rows [watched [Es [Er [Lr [_ Eb]]]]]]].
  rewrite Eb. intro E. injection E as <-. intros kv H.
  apply In_firstn, filter_In, proj1 in H.
  apply (proj1 (sort_values_desc_In _ _)) in H.
  revert kv H.
  change (values_in (Qle 0) (mean_axis0 (uim_columns d) rows)).
  apply mean_axis0_nonneg.
  - apply similar_users_nonempty in Es; trivial.
    destruct rows; [|discriminate].
    destruct similar; [congruence | discriminate].
  - intros row x Hrow Hx.
    destruct (mapM_In _ _ _ _ Er Hrow) as [p [_ Ep]].
    unfold uim_loc in Ep. destruct (mem _ _); [|discriminate].
    injection Ep as <-. apply in_map_iff in Hx.
    destruct Hx as [v [<- _]]. now apply uim_cell_nonneg.
Qed.

Lemma normalize_unit (s : series) :
  values_in (Qle 0) s -> ~ zero_max s ->
  values_in (fun q => 0 <= q <= 1) (normalize s).
Proof.
  intros Hs Hz. destruct s as [|kv0 s0]; [intros ? []|].
  remember (kv0 :: s0) as s eqn:E.
  assert (Hf : forall kv, In kv s -> finite_or_nan (snd kv)).
  { intros kv H. destruct (Hs kv H) as [q [-> _]]. exact I. }
  assert (Hnorm : normalize s
                  = map (fun kv => (fst kv, fdiv (snd kv) (series_max s))) s)
    by now subst.
  rewrite Hnorm. clear Hnorm E kv0 s0.
  intros kv H. apply in_map_iff in H. destruct H as [[k v] [<- H]].
  destruct (Hs _ H) as [q [Ev Hq]]. simpl in Ev. subst v. cbn [fst snd].
  destruct (series_max_ge s k q Hf H) as [m [Em Lm]]. rewrite Em.
  assert (Hm : 0 < m).
  { apply Qle_lt_or_eq in Lm. apply Qle_lt_or_eq in Hq.
    destruct (Qlt_le_dec 0 m) as [L|L]; [exact L|]. exfalso.
    apply Hz. exists m. split; [exact Em|].
    apply Qle_antisym; [exact L|].
    destruct Hq as [Hq|Hq], Lm as [Lm|Lm].
    - apply Qlt_le_weak. now apply Qlt_trans with q.
    - rewrite <- Lm. now apply Qlt_le_weak.
    - rewrite Hq. now apply Qlt_le_weak.
    - rewrite Hq, Lm. apply Qle_refl. }
  unfold fdiv.
  replace (Qeqb m 0) with false.
  2:{ symmetry. apply Qeqb_false. intro Z. rewrite Z in Hm. discriminate. }
  exists (Qred (q / m)). split; [reflexivity|]. rewrite Qred_correct. split.
  - apply Qle_shift_div_l; [exact Hm|]. now rewrite Qmult_0_l.
  - apply Qle_shift_div_r; [exact Hm|]. now rewrite Qmult_1_l.
Qed.

Lemma series_mul_values (s : series) (w : Q) :
  0 <= w ->
  values_in (fun q => 0 <= q <= 1) s ->
  values_in (fun q => 0 <= q <= w) (series_mul s w).
Proof.
  intros Hw Hs kv H. unfold series_mul in H. apply in_map_iff in H.
  destruct H as [[k v] [<- H]]. destruct (Hs _ H) as [q [Ev [H0 H1]]].
  simpl in Ev. subst v. cbn [fst snd]. exists (Qred (q * w)).
  split; [reflexivity|]. rewrite Qred_correct. split.
  - now apply Qmult_le_0_compat.
  - rewrite <- (Qmult_1_l w) at 2. now apply Qmult_le_compat_r.
Qed.

Lemma unit_compat (a b : Q) : a == b -> 0 <= a <= 1 -> 0 <= b <= 1.
Proof. intros E H. now rewrite <- E. Qed.

(** X1.  When no component has the maximum 0, non-negative watch ratios and
    similarities give scores in [0, 1]: the case left out by the
    normalisation guard is the only one that produces nan. *)
Lemma scores_in_unit_interval_unless_zero_max (d : dataset) (u : Z)
    (w : Q) (n : nat) :
  wf_dataset d = true ->
  In u (uim_index d) ->
  0 <= w <= 1 ->
  (forall i, In i (interactions d) -> 0 <= watch_ratio i) ->
  (forall row x, In row (content_based_cosine_sim d) -> In x row -> 0 <= x) ->
  (forall content, content_scores d u = Ok content -> ~ zero_max content) ->
  (forall collab,
      recommend_videos_by_users d u 10 50 = Ok collab -> ~ zero_max collab) ->
  exists res,
    recommmend_videos_for_user d u w n = Ok res
    /\ values_in (fun q => 0 <= q <= 1) res.
Proof.
  intros W Hu [Hw0 Hw1] Hr Hs Zc Ze.
  destruct (content_scores_ok d u W) as [content Ec].
  destruct (recommend_videos_by_users_ok d u 10 W Hu)
    as [similar [rows [watched [_ [_ [_ [_ Eb]]]]]]].
  assert (Nc : values_in (Qle 0) content).
  { unfold content_scores in Ec.
    apply (accumulate_nonneg d (user_history d u) Hs [] content);
      [intros ? [] | exact Ec]. }
  assert (Ne : values_in (Qle 0)
                 (head 50 (filter (fun kv => negb (mem (fst kv) watched))
                             (sort_values_desc
                                (mean_axis0 (uim_columns d) rows))))).
  { apply (collaborative_nonneg d u 50); trivial. }
  unfold recommmend_videos_for_user, combined_scores.
  rewrite Eb, Ec. cbn [bind]. eexists. split; [reflexivity|].
  intros kv H. apply In_firstn in H.
  apply (proj1 (sort_values_desc_In _ _)) in H.
  apply drop_In, proj1 in H. revert kv H.
  apply (series_add_values (fun q => 0 <= q <= w)
           (fun q => 0 <= q <= 1 - w) (fun q => 0 <= q <= 1)).
  - exact unit_compat.
  - intros a b [Ha0 Ha1] [Hb0 Hb1]. split.
    + rewrite <- (Qplus_0_l 0). now apply Qplus_le_compat.
    + setoid_replace 1 with (w + (1 - w)) by ring.
      now apply Qplus_le_compat.
  - intros a [Ha0 Ha1]. rewrite Qplus_0_r. split; [exact Ha0|].
    now apply Qle_trans with w.
  - intros b [Hb0 Hb1]. rewrite Qplus_0_l. split; [exact Hb0|].
    apply Qle_trans with (1 - w); [exact Hb1|].
    setoid_replace 1 with (1 - 0) at 2 by ring.
    apply Qplus_le_compat; [apply Qle_refl|]. now apply Qopp_le_compat.
  - apply series_mul_values; [exact Hw0|].
    apply normalize_unit; [exact Nc | now apply Zc].
  - apply series_mul_values.
    + setoid_replace 0 with (w - w) by ring.
      apply Qplus_le_compat; [exact Hw1 | apply Qle_refl].
    + apply normalize_unit; [exact Ne | apply Ze, Eb].
Qed.

Lemma scores_in_unit_interval_unless_zero_max_witness :
  wf_dataset two_users = true
  /\ In 0%Z (uim_index two_users)
  /\ 0 <= 3 # 10 <= 1
  /\ exists res,
      recommmend_videos_for_user two_users 0 (3 # 10) 10 = Ok res
      /\ values_in (fun q => 0 <= q <= 1) res.
Proof.
  assert (W : wf_dataset two_users = true) by (vm_compute; reflexivity).
  assert (U : In 0%Z (uim_index two_users)).
  { apply mem_In. reflexivity. }
  assert (B : 0 <= 3 # 10 <= 1) by (split; discriminate).
  split; [exact W|]. split; [exact U|]. split; [exact B|].
  apply (scores_in_unit_interval_unless_zero_max two_users 0 (3 # 10) 10
           W U B).
  - intros i [<-|[<-|[<-|[]]]]; discriminate.
  - intros r x Hr Hx. vm_compute in Hr.
    destruct Hr as [<-|[<-|[<-|[]]]];
      destruct Hx as [<-|[<-|[<-|[]]]]; discriminate.
  - intros content E [m [Em Z]]. vm_compute in E. injection E as <-.
    vm_compute in Em. injection Em as <-. discriminate.
  - intros collab E [m [Em Z]]. vm_compute in E. injection E as <-.
    vm_compute in Em. injection Em as <-. discriminate.
Defined.

(** * Further properties of the notebook's functions *)

(** ** Benchmark functions *)

Lemma of_nat_nonneg (n : nat) : 0 <= of_nat n.
Proof. unfold of_nat, Qle. simpl. lia. Qed.

Lemma of_nat_zero (n : nat) : of_nat n == 0 <-> n = O.
Proof. unfold of_nat, Qeq. simpl. lia. Qed.

Lemma of_nat_le (n m : nat) : (n <= m)%nat -> of_nat n <= of_nat m.
Proof. unfold of_nat, Qle. simpl. lia. Qed.

Lemma of_nat_pos (n : nat) : n <> O -> 0 < of_nat n.
Proof. unfold of_nat, Qlt. simpl. lia. Qed.

Lemma truediv_ok (a b : Q) : ~ b == 0 -> truediv a b = Ok (a / b).
Proof. intro H. unfold truediv. apply Qeqb_false in H. now rewrite H. Qed.

Lemma truediv_zero (a b : Q) :
  b == 0 -> truediv a b = Raise ZeroDivisionError.
Proof. intro H. unfold truediv. apply Qeqb_true in H. now rewrite H. Qed.

Lemma ratio_bounds (n m : nat) :
  m <> O -> 0 <= of_nat n / of_nat m
            /\ ((n <= m)%nat -> of_nat n / of_nat m <= 1).
Proof.
  intro Hm. pose proof (of_nat_pos m Hm) as Pm. split.
  - apply Qle_shift_div_l; [exact Pm|]. rewrite Qmult_0_l.
    apply of_nat_nonneg.
  - intro L. apply Qle_shift_div_r; [exact Pm|]. rewrite Qmult_1_l.
    now apply of_nat_le.
Qed.

Lemma ratio_zero (n m : nat) :
  m <> O -> (of_nat n / of_nat m == 0 <-> n = O).
Proof.
  intro Hm. pose proof (of_nat_pos m Hm) as Pm.
  rewrite <- of_nat_zero. split; intro H.
  - assert (E : of_nat n == of_nat n / of_nat m * of_nat m).
    { field. intro Z. rewrite Z in Pm. discriminate. }
    rewrite E, H. ring.
  - rewrite H. unfold Qdiv. ring.
Qed.

Lemma set_inter_length_l (x y : set Z) :
  (length (set_inter Z.eq_dec x y) <= length x)%nat.
Proof.
  induction x as [|a x IH]; simpl; [lia|].
  destruct (set_mem Z.eq_dec a y); simpl; lia.
Qed.

Lemma set_inter_NoDup_l (x y : set Z) :
  NoDup x -> NoDup (set_inter Z.eq_dec x y).
Proof.
  induction x as [|a x IH]; simpl; intro N; [constructor|].
  inversion N as [|? ? Ha N']; subst.
  destruct (set_mem Z.eq_dec a y); [|now apply IH].
  constructor; [|now apply IH].
  intro H. apply set_inter_elim1 in H. contradiction.
Qed.

Lemma set_inter_length_r (x y : set Z) :
  NoDup x -> (length (set_inter Z.eq_dec x y) <= length y)%nat.
Proof.
  intro N. apply NoDup_incl_length; [now apply set_inter_NoDup_l|].
  intros a Ha. now apply set_inter_elim2 in Ha.
Qed.

Lemma set_inter_empty (x y : set Z) :
  length (set_inter Z.eq_dec x y) = O
  <-> forall f, In f x -> ~ In f y.
Proof.
  split.
  - intros H f Hx Hy.
    assert (Hi : In f (set_inter Z.eq_dec x y))
      by now apply set_inter_intro.
    destruct (set_inter Z.eq_dec x y); [destruct Hi | discriminate].
  - intro H. destruct (set_inter Z.eq_dec x y) as [|f l] eqn:E;
      [reflexivity|]. exfalso.
    assert (Hi : In f (set_inter Z.eq_dec x y)) by (rewrite E; now left).
    apply set_inter_elim in Hi. destruct Hi as [Hx Hy]. exact (H f Hx Hy).
Qed.

Lemma set_inter_full (x y : set Z) :
  NoDup x -> NoDup y ->
  (length (set_inter Z.eq_dec x y) = length y <-> incl y x).
Proof.
  intros N N'. split; intro H.
  - intros f Hf.
    assert (I : incl y (set_inter Z.eq_dec x y)).
    { apply NoDup_length_incl.
      - now apply set_inter_NoDup_l.
      - lia.
      - intros a Ha. now apply set_inter_elim2 in Ha. }
    apply I in Hf. now apply set_inter_elim1 in Hf.
  - apply Nat.le_antisymm; [now apply set_inter_length_r|].
    apply NoDup_incl_length; [exact N'|].
    intros a Ha. apply set_inter_intro; [now apply H | exact Ha].
Qed.

Lemma ratio_one (n m : nat) :
  m <> O -> (of_nat n / of_nat m == 1 <-> n = m).
Proof.
  intro Hm. pose proof (of_nat_pos m Hm) as Pm.
  assert (Z : ~ of_nat m == 0) by (intro Z; rewrite Z in Pm; discriminate).
  split; intro H.
  - assert (E : of_nat n == of_nat n / of_nat m * of_nat m) by (now field).
    rewrite H, Qmult_1_l in E. unfold of_nat, Qeq in E. simpl in E. lia.
  - rewrite H. now field.
Qed.

(** X2.  [precision_at_k]: a zero [k] raises; otherwise the value is the
    number of common elements over [k], it is not negative, at most
    [min(len(recommended), len(relevant)) / k], and 0 exactly when the
    two sets are disjoint. *)
Theorem precision_at_k_range (recommended relevant : set Z) (k : nat) :
  NoDup recommended ->
  (k = O ->
   precision_at_k recommended relevant k = Raise ZeroDivisionError)
  /\ (k <> O ->
      exists v,
        precision_at_k recommended relevant k = Ok v
        /\ 0 <= v
        /\ v <= of_nat (Nat.min (length recommended) (length relevant))
                / of_nat k
        /\ (v == 0 <-> forall f, In f recommended -> ~ In f relevant)).
Proof.
  intro N. unfold precision_at_k. split.
  - intros ->. now apply truediv_zero.
  - intro Hk. pose proof (of_nat_pos k Hk) as Pk.
    rewrite truediv_ok by (now rewrite of_nat_zero).
    eexists. split; [reflexivity|]. split; [|split].
    + now apply ratio_bounds.
    + unfold Qdiv. apply Qmult_le_compat_r.
      * apply of_nat_le. apply Nat.min_glb;
          [apply set_inter_length_l | now apply set_inter_length_r].
      * apply Qlt_le_weak. now apply Qinv_lt_0_compat.
    + rewrite ratio_zero by exact Hk. apply set_inter_empty.
Qed.

Lemma precision_at_k_range_witness :
  NoDup [10%Z; 11%Z]
  /\ exists v,
      precision_at_k [10%Z; 11%Z] [10%Z] 2 = Ok v
      /\ 0 <= v
      /\ v <= of_nat (Nat.min 2 1) / of_nat 2
      /\ (v == 0 <-> forall f, In f [10%Z; 11%Z] -> ~ In f [10%Z]).
Proof.
  assert (N : NoDup [10%Z; 11%Z]).
  { repeat constructor; simpl; intuition discriminate. }
  split; [exact N|].
  apply (precision_at_k_range [10%Z; 11%Z] [10%Z] 2 N). discriminate.
Defined.

(** X3.  [recall_at_k] never raises; its value lies in [0, 1], is 0 exactly
    when the two sets are disjoint (so for an empty [relevant]), and is 1
    exactly when a non-empty [relevant] is included in [recommended]. *)
Theorem recall_at_k_range (recommended relevant : set Z) :
  NoDup recommended ->
  NoDup relevant ->
  exists v,
    recall_at_k recommended relevant = Ok v
    /\ 0 <= v <= 1
    /\ (v == 0 <-> forall f, In f recommended -> ~ In f relevant)
    /\ (relevant <> [] -> (v == 1 <-> incl relevant recommended)).
Proof.
  intros N N'. unfold recall_at_k.
  pose proof (set_inter_length_r recommended relevant N) as L.
  destruct (Nat.eq_dec (length relevant) 0) as [E|E].
  - rewrite E. simpl. exists 0. split; [reflexivity|].
    split; [split; discriminate|]. split.
    + split; [|reflexivity]. intros _. apply set_inter_empty. lia.
    + intros H. destruct relevant; [congruence | discriminate].
  - replace (0 <? length relevant)%nat with true
      by (symmetry; apply Nat.ltb_lt; lia).
    rewrite truediv_ok by (now rewrite of_nat_zero).
    eexists. split; [reflexivity|]. split; [|split].
    + split; now apply ratio_bounds.
    + rewrite ratio_zero by exact E. apply set_inter_empty.
    + intros _. rewrite ratio_one by exact E. now apply set_inter_full.
Qed.

Lemma recall_at_k_range_witness :
  NoDup [10%Z; 11%Z] /\ NoDup [10%Z]
  /\ exists v,
      recall_at_k [10%Z; 11%Z] [10%Z] = Ok v
      /\ 0 <= v <= 1
      /\ (v == 0 <-> forall f, In f [10%Z; 11%Z] -> ~ In f [10%Z])
      /\ ([10%Z] <> [] -> (v == 1 <-> incl [10%Z] [10%Z; 11%Z])).
Proof.
  assert (N : NoDup [10%Z; 11%Z]).
  { repeat constructor; simpl; intuition discriminate. }
  assert (N' : NoDup [10%Z]).
  { repeat constructor; simpl; intuition discriminate. }
  split; [exact N|]. split; [exact N'|].
  exact (recall_at_k_range [10%Z; 11%Z] [10%Z] N N').
Defined.

Lemma f1_score_at_k_value (p r : Q) :
  ~ p + r == 0 -> f1_score_at_k p r = Ok (2 * (p * r) / (p + r)).
Proof.
  intro H. unfold f1_score_at_k. apply Qeqb_false in H. rewrite H.
  unfold truediv. now rewrite H.
Qed.

Lemma f1_score_at_k_zero_sum (p r : Q) :
  p + r == 0 -> f1_score_at_k p r = Ok 0.
Proof.
  intro H. unfold f1_score_at_k. apply Qeqb_true in H. now rewrite H.
Qed.


(** X5.  The hit ratio is 0 or 1; for [k > 0] it is 1 exactly when the
    precision is positive, exactly when the recall is positive; when it is
    0 the F1 score of the two is 0. *)
Theorem hit_ratio_at_k_agrees (recommended relevant : set Z) (k : nat) :
  k <> O ->
  exists p r,
    precision_at_k recommended relevant k = Ok p
    /\ recall_at_k recommended relevant = Ok r
    /\ (hit_ratio_at_k recommended relevant = 0%nat
        \/ hit_ratio_at_k recommended relevant = 1%nat)
    /\ (hit_ratio_at_k recommended relevant = 1%nat <-> 0 < p)
    /\ (hit_ratio_at_k recommended relevant = 1%nat <-> 0 < r)
    /\ (hit_ratio_at_k recommended relevant = 0%nat ->
        f1_score_at_k p r = Ok 0).
Proof.
  intro Hk. unfold precision_at_k, recall_at_k, hit_ratio_at_k.
  set (c := length (set_inter Z.eq_dec recommended relevant)).
  assert (Hr : c <> O -> length relevant <> O).
  { unfold c. intros Hc E.
    destruct (set_inter Z.eq_dec recommended relevant) as [|f l] eqn:I;
      [now apply Hc|].
    assert (Hf : In f (set_inter Z.eq_dec recommended relevant))
      by (rewrite I; now left).
    apply set_inter_elim2 in Hf. destruct relevant; [destruct Hf|].
    discriminate. }
  clearbody c.
  pose proof (of_nat_pos k Hk) as Pk.
  rewrite truediv_ok by (now rewrite of_nat_zero).
  assert (Pp : 0 < of_nat c / of_nat k <-> c <> O).
  { pose proof (ratio_bounds c k Hk) as [B _].
    pose proof (ratio_zero c k Hk) as Z. split.
    - intros H E. apply Z in E. rewrite E in H. discriminate.
    - intro H. apply Qle_lt_or_eq in B. destruct B as [B|B]; [exact B|].
      exfalso. apply H, Z. now symmetry. }
  destruct (Nat.eq_dec (length relevant) 0) as [E|E].
  - assert (Hc : c = O) by (destruct c; [reflexivity | now exfalso; apply Hr]).
    subst c. rewrite E. simpl (0 <? 0)%nat. cbv iota.
    exists (of_nat 0 / of_nat k), 0.
    split; [reflexivity|]. split; [reflexivity|]. split; [now left|].
    split; [|split].
    + split; [discriminate|]. intro H. apply Pp in H. congruence.
    + split; discriminate.
    + intros _. apply f1_score_at_k_zero_sum. unfold Qdiv, of_nat. ring.
  - replace (0 <? length relevant)%nat with true
      by (symmetry; apply Nat.ltb_lt; lia).
    rewrite truediv_ok by (now rewrite of_nat_zero).
    assert (Pr : 0 < of_nat c / of_nat (length relevant) <-> c <> O).
    { pose proof (ratio_bounds c _ E) as [B _].
      pose proof (ratio_zero c _ E) as Z. split.
      - intros H Ec. apply Z in Ec. rewrite Ec in H. discriminate.
      - intro H. apply Qle_lt_or_eq in B. destruct B as [B|B]; [exact B|].
        exfalso. apply H, Z. now symmetry. }
    exists (of_nat c / of_nat k), (of_nat c / of_nat (length relevant)).
    destruct c as [|c'].
    + simpl (0 <? 0)%nat. cbv iota.
      split; [reflexivity|]. split; [reflexivity|]. split; [now left|].
      split; [|split].
      * split; [discriminate|]. intro H. apply Pp in H. congruence.
      * split; [discriminate|]. intro H. apply Pr in H. congruence.
      * intros _. apply f1_score_at_k_zero_sum. unfold Qdiv, of_nat. ring.
    + change (0 <? S c')%nat with true. cbv iota.
      split; [reflexivity|]. split; [reflexivity|]. split; [now right|].
      split; [|split].
      * split; [intros _; now apply Pp | reflexivity].
      * split; [intros _; now apply Pr | reflexivity].
      * discriminate.
Qed.

Lemma hit_ratio_at_k_agrees_witness :
  2%nat <> O
  /\ exists p r,
      precision_at_k [10%Z; 11%Z] [10%Z] 2 = Ok p
      /\ recall_at_k [10%Z; 11%Z] [10%Z] = Ok r
      /\ (hit_ratio_at_k [10%Z; 11%Z] [10%Z] = 0%nat
          \/ hit_ratio_at_k [10%Z; 11%Z] [10%Z] = 1%nat)
      /\ (hit_ratio_at_k [10%Z; 11%Z] [10%Z] = 1%nat <-> 0 < p)
      /\ (hit_ratio_at_k [10%Z; 11%Z] [10%Z] = 1%nat <-> 0 < r)
      /\ (hit_ratio_at_k [10%Z; 11%Z] [10%Z] = 0%nat ->
          f1_score_at_k p r = Ok 0).
Proof.
  assert (H : 2%nat <> O) by discriminate.
  split; [exact H|].
  exact (hit_ratio_at_k_agrees [10%Z; 11%Z] [10%Z] 2 H).
Defined.

(** ** Features of videos *)

Lemma set_update_In (s : set Z) (feats : list Z) (f : Z) :
  In f (set_update s feats) <-> In f s \/ In f feats.
Proof.
  unfold set_update. revert s.
  induction feats as [|a feats IH]; intro s; simpl; [tauto|].
  rewrite IH, set_add_iff. intuition.
Qed.

Lemma set_update_NoDup (s : set Z) (feats : list Z) :
  NoDup s -> NoDup (set_update s feats).
Proof.
  unfold set_update. revert s.
  induction feats as [|a feats IH]; intros s N; simpl; [exact N|].
  apply IH. now apply set_add_nodup.
Qed.

Lemma feat_of_known (d : dataset) (v : Z) :
  In v (map fst (categories d)) -> exists fs, feat_of d v = Ok fs.
Proof.
  intro H. unfold feat_of.
  destruct (find _ (categories d)) as [c|] eqn:E; [now exists (snd c)|].
  exfalso. apply in_map_iff in H. destruct H as [c [Ec Hc]].
  pose proof (find_none _ _ E c Hc) as F. simpl in F.
  rewrite Ec, Z.eqb_refl in F. discriminate.
Qed.

Lemma feat_of_row (d : dataset) (v : Z) (fs : list Z) :
  feat_of d v = Ok fs -> In (v, fs) (categories d).
Proof.
  unfold feat_of.
  destruct (find _ (categories d)) as [[v' fs']|] eqn:E; [|discriminate].
  intro H. injection H as <-. apply find_some in E. destruct E as [Hin E].
  simpl in E. apply Z.eqb_eq in E. now subst.
Qed.

Lemma feat_of_unknown (d : dataset) (v : Z) :
  ~ In v (map fst (categories d)) -> feat_of d v = Raise IndexError.
Proof.
  intro H. unfold feat_of.
  destruct (find _ (categories d)) as [[v' fs']|] eqn:E; [|reflexivity].
  exfalso. apply H. apply find_some in E. destruct E as [Hin E].
  simpl in E. apply Z.eqb_eq in E. subst.
  apply in_map_iff. now exists (v, fs').
Qed.

Lemma features_loop_known (d : dataset) (videos : list Z) :
  (forall v, In v videos -> In v (map fst (categories d))) ->
  forall acc,
  exists feats,
    features_loop d videos acc = Ok feats
    /\ (NoDup acc -> NoDup feats)
    /\ forall f,
        In f feats
        <-> In f acc
            \/ exists v fs, In v videos /\ feat_of d v = Ok fs /\ In f fs.
Proof.
  induction videos as [|v videos IH]; intros H acc; simpl.
  - exists acc. split; [reflexivity|]. split; [tauto|].
    intro f. split; [now left|]. intros [Hf|[? [? [[] _]]]]. exact Hf.
  - destruct (feat_of_known d v) as [fs E]; [apply H; now left|].
    rewrite E. cbn [bind].
    destruct (IH (fun x Hx => H x (or_intror Hx)) (set_update acc fs))
      as [feats [El [N Hf]]].
    exists feats. split; [exact El|]. split.
    + intro Na. now apply N, set_update_NoDup.
    + intro f. rewrite Hf, set_update_In. split.
      * intros [[Ha|Hfs]|[x [xs [Hx [Ex Hxs]]]]].
        -- now left.
        -- right. exists v, fs. repeat split; trivial. now left.
        -- right. exists x, xs. repeat split; trivial. now right.
      * intros [Ha|[x [xs [[->|Hx] [Ex Hxs]]]]].
        -- left. now left.
        -- left. right. rewrite E in Ex. now injection Ex as <-.
        -- right. now exists x, xs.
Qed.

Lemma features_loop_raises (d : dataset) (videos : list Z) (acc : set Z)
    (e : exn) :
  features_loop d videos acc = Raise e ->
  e = IndexError /\ exists v, In v videos /\ ~ In v (map fst (categories d)).
Proof.
  revert acc. induction videos as [|v videos IH]; intro acc; simpl;
    [discriminate|].
  destruct (in_dec Z.eq_dec v (map fst (categories d))) as [K|K].
  - destruct (feat_of_known d v K) as [fs E]. rewrite E. cbn [bind].
    intro H. destruct (IH _ H) as [He [x [Hx Nx]]].
    split; [exact He|]. exists x. split; [now right | exact Nx].
  - rewrite (feat_of_unknown d v K). cbn [bind]. intro H.
    injection H as <-. split; [reflexivity|]. exists v.
    split; [now left | exact K].
Qed.

Lemma features_loop_ok_known (d : dataset) (videos : list Z) (acc : set Z)
    (feats : set Z) :
  features_loop d videos acc = Ok feats ->
  forall v, In v videos -> In v (map fst (categories d)).
Proof.
  revert acc. induction videos as [|x videos IH]; intros acc E v Hv;
    [destruct Hv|]. simpl in E.
  destruct (feat_of d x) as [fs|] eqn:Ef; cbn [bind] in E; [|discriminate].
  destruct Hv as [->|Hv]; [|now apply (IH _ E)].
  apply feat_of_row in Ef. apply in_map_iff. now exists (v, fs).
Qed.

Lemma get_features_of_videos_ok (d : dataset) (videos : list Z) :
  (forall v, In v videos -> In v (map fst (categories d))) ->
  exists feats,
    get_features_of_videos d videos = Ok feats
    /\ NoDup feats
    /\ (length feats <= total_features d)%nat.
Proof.
  intro K. unfold get_features_of_videos.
  destruct (features_loop_known d videos K (empty_set Z))
    as [feats [E [N Hf]]].
  exists feats. split; [exact E|].
  assert (N' : NoDup feats) by (apply N; constructor).
  split; [exact N'|].
  apply NoDup_incl_length; [exact N'|].
  intros f Hin. apply nodup_In, in_flat_map.
  apply Hf in Hin. destruct Hin as [[]|[v [xs [_ [Ex Hx]]]]].
  exists (v, xs). split; [now apply feat_of_row | exact Hx].
Qed.

(** X6.  [get_features_of_videos] raises, and then [IndexError], exactly when
    one of the videos has no row in [categories]. *)
Theorem get_features_of_videos_raises (d : dataset) (videos : list Z) :
  (exists v, In v videos /\ ~ In v (map fst (categories d)))
  <-> get_features_of_videos d videos = Raise IndexError.
Proof.
  unfold get_features_of_videos. split.
  - intros [v [Hv Nv]].
    destruct (features_loop d videos (empty_set Z)) as [feats|e] eqn:E.
    + exfalso. exact (Nv (features_loop_ok_known d videos _ feats E v Hv)).
    + now destruct (features_loop_raises d videos _ e E) as [-> _].
  - intro E. now apply features_loop_raises in E.
Qed.

(** X7.  When every video has a row in [categories], [get_features_of_videos]
    returns a set (no feature twice) that holds exactly the features of
    the first row of each video. *)
Theorem get_features_of_videos_union (d : dataset) (videos : list Z) :
  (forall v, In v videos -> In v (map fst (categories d))) ->
  exists feats,
    get_features_of_videos d videos = Ok feats
    /\ NoDup feats
    /\ forall f,
        In f feats
        <-> exists v fs, In v videos /\ feat_of d v = Ok fs /\ In f fs.
Proof.
  intro H. unfold get_features_of_videos.
  destruct (features_loop_known d videos H (empty_set Z))
    as [feats [E [N Hf]]].
  exists feats. split; [exact E|]. split; [apply N; constructor|].
  intro f. rewrite Hf. split; [intros [[]|K]; exact K | now right].
Qed.

Lemma get_features_of_videos_union_witness :
  (forall v, In v [1%Z; 3%Z] -> In v (map fst (categories two_users)))
  /\ exists feats,
      get_features_of_videos two_users [1%Z; 3%Z] = Ok feats
      /\ NoDup feats
      /\ forall f,
          In f feats
          <-> exists v fs, In v [1%Z; 3%Z]
                           /\ feat_of two_users v = Ok fs /\ In f fs.
Proof.
  assert (K : forall v, In v [1%Z; 3%Z] ->
                        In v (map fst (categories two_users))).
  { intros v [<-|[<-|[]]]; apply mem_In; reflexivity. }
  split; [exact K|].
  exact (get_features_of_videos_union two_users [1%Z; 3%Z] K).
Defined.

(** X8.  The coverage of a feature set returned by [get_features_of_videos]:
    when [categories] holds no feature at all the set is empty and
    [coverage_at_k] raises [ZeroDivisionError]; otherwise the coverage lies
    in [0, 1]. *)
Theorem coverage_of_features (d : dataset) (videos : list Z)
    (feats : set Z) :
  get_features_of_videos d videos = Ok feats ->
  (total_features d = O ->
   feats = []
   /\ coverage_at_k feats (total_features d) = Raise ZeroDivisionError)
  /\ (total_features d <> O ->
      exists c, coverage_at_k feats (total_features d) = Ok c
                /\ 0 <= c <= 1).
Proof.
  intro E.
  pose proof (features_loop_ok_known d videos _ feats E) as K.
  destruct (get_features_of_videos_ok d videos K) as [fs [E' [_ L]]].
  rewrite E in E'. injection E' as <-.
  unfold coverage_at_k. split.
  - intro Z. rewrite Z in *. split.
    + destruct feats; [reflexivity | simpl in L; lia].
    + now apply truediv_zero.
  - intro Z. rewrite truediv_ok by (now rewrite of_nat_zero).
    eexists. split; [reflexivity|]. split; now apply ratio_bounds.
Qed.

Lemma coverage_of_features_witness :
  get_features_of_videos two_users [1%Z; 3%Z] = Ok [10%Z; 11%Z]
  /\ exists c,
      coverage_at_k [10%Z; 11%Z] (total_features two_users) = Ok c
      /\ 0 <= c <= 1.
Proof.
  assert (E : get_features_of_videos two_users [1%Z; 3%Z]
              = Ok [10%Z; 11%Z]) by reflexivity.
  split; [exact E|].
  apply (coverage_of_features two_users [1%Z; 3%Z] [10%Z; 11%Z] E).
  discriminate.
Defined.

(** ** Most watched videos *)

Section ByKey.
Context {A : Type} (key : A -> Q).

Lemma by_key_desc_sorted (l : list A) :
  StronglySorted (fun a b => key b <= key a)
                 (stable_sort (fun y x => Qltb (key x) (key y)) l).
Proof.
  assert (S : StronglySorted (ord (fun y x => Qltb (key x) (key y)))
                (stable_sort (fun y x => Qltb (key x) (key y)) l)).
  { apply stable_sort_sorted.
    - intros a b. rewrite Qltb_true, Qltb_false. apply Qlt_le_weak.
    - intros a b c. unfold ord. rewrite !Qltb_false. intros H1 H2.
      now apply Qle_trans with (key b). }
  induction S as [|x s _ IH Hx]; constructor; [exact IH|].
  eapply Forall_impl; [|exact Hx].
  intros b Hb. unfold ord in Hb. now apply Qltb_false in Hb.
Qed.

Lemma by_key_asc_sorted (l : list A) :
  StronglySorted (fun a b => key a <= key b)
                 (stable_sort (fun y x => Qltb (key y) (key x)) l).
Proof.
  assert (S : StronglySorted (ord (fun y x => Qltb (key y) (key x)))
                (stable_sort (fun y x => Qltb (key y) (key x)) l)).
  { apply stable_sort_sorted.
    - intros a b. rewrite Qltb_true, Qltb_false. apply Qlt_le_weak.
    - intros a b c. unfold ord. rewrite !Qltb_false. intros H1 H2.
      now apply Qle_trans with (key b). }
  induction S as [|x s _ IH Hx]; constructor; [exact IH|].
  eapply Forall_impl; [|exact Hx].
  intros b Hb. unfold ord in Hb. now apply Qltb_false in Hb.
Qed.
End ByKey.

Lemma StronglySorted_split {A} (R : A -> A -> Prop) (l1 l2 : list A) :
  StronglySorted R (l1 ++ l2) ->
  forall a b, In a l1 -> In b l2 -> R a b.
Proof.
  induction l1 as [|x l1 IH]; simpl; intros S a b Ha Hb; [destruct Ha|].
  inversion S as [|? ? S' Hx]; subst. destruct Ha as [<-|Ha].
  - rewrite Forall_forall in Hx. apply Hx, in_or_app. now right.
  - now apply IH.
Qed.

(** X9.  [get_most_watched_videos_by_user_id] returns the [head_count] rows of
    the user with the largest watch ratios, largest first: what it
    returns and what it leaves out are together the rows of the user, no
    row left out has a larger ratio than a returned one, and all the
    user's rows are returned when there are at most [head_count].  A user
    without rows gets the empty table, not an exception. *)
Theorem get_most_watched_videos_by_user_id_top (df : list interaction)
    (u : Z) (head_count : nat) :
  exists rest,
    Permutation (get_most_watched_videos_by_user_id df u head_count ++ rest)
                (filter (fun i => Z.eqb (user_id i) u) df)
    /\ (forall a b,
           In a (get_most_watched_videos_by_user_id df u head_count) ->
           In b rest -> watch_ratio b <= watch_ratio a)
    /\ StronglySorted (fun a b => watch_ratio b <= watch_ratio a)
                      (get_most_watched_videos_by_user_id df u head_count)
    /\ length (get_most_watched_videos_by_user_id df u head_count)
       = Nat.min head_count
                 (length (filter (fun i => Z.eqb (user_id i) u) df)).
Proof.
  unfold get_most_watched_videos_by_user_id, head.
  set (sorted := stable_sort _ _).
  assert (S : StronglySorted (fun a b => watch_ratio b <= watch_ratio a)
                sorted) by apply (by_key_desc_sorted watch_ratio).
  exists (skipn head_count sorted). split; [|split; [|split]].
  - rewrite firstn_skipn. apply stable_sort_perm.
  - apply StronglySorted_split. now rewrite firstn_skipn.
  - now apply StronglySorted_firstn.
  - rewrite length_firstn. unfold sorted. now rewrite stable_sort_length.
Qed.

(** ** Shape of the rankings *)

Lemma StronglySorted_append {A} (R : A -> A -> Prop) (l1 l2 : list A) :
  StronglySorted R l1 -> StronglySorted R l2 ->
  (forall a b, In a l1 -> In b l2 -> R a b) ->
  StronglySorted R (l1 ++ l2).
Proof.
  induction 1 as [|x l1 _ IH Hx]; simpl; intros S2 H; [exact S2|].
  constructor.
  - apply IH; [exact S2|]. intros; apply H; [now right | assumption].
  - apply Forall_forall. intros y Hy. apply in_app_or in Hy.
    destruct Hy as [Hy|Hy].
    + rewrite Forall_forall in Hx. now apply Hx.
    + apply H; [now left | exact Hy].
Qed.

Lemma all_nan_descending (s : series) :
  (forall kv, In kv s -> isnan (snd kv) = true) -> descending s.
Proof.
  unfold descending. induction s as [|x s IH]; intro H; constructor.
  - apply IH. intros; apply H; now right.
  - apply Forall_forall. intros y _.
    assert (Hx : isnan (snd x) = true) by (apply H; now left).
    destruct (snd x); try discriminate. now destruct (snd y).
Qed.

Lemma sort_values_desc_descending (s : series) :
  descending (sort_values_desc s).
Proof.
  unfold descending, sort_values_desc. apply StronglySorted_append.
  - pose proof (desc_sort_sorted _ (no_nan_nonnan s)) as S.
    pose proof (no_nan_sort _ (no_nan_nonnan s)) as N.
    revert N. induction S as [|x l _ IH Hx]; intro N; constructor.
    + apply IH. intros kv Hkv. apply N. now right.
    + apply Forall_forall. intros y Hy. rewrite Forall_forall in Hx.
      specialize (Hx y Hy). unfold ord, by_value_desc_total in Hx.
      rewrite fltb_total_agrees in Hx; [exact Hx | |];
        apply N; [now left | now right].
  - apply all_nan_descending. intros kv H. now apply filter_In in H.
  - intros a b _ Hb. apply filter_In in Hb. destruct Hb as [_ Hb].
    destruct (snd b); try discriminate. now destruct (snd a).
Qed.

Lemma sort_values_desc_nan_last (s : series) : nan_last (sort_values_desc s).
Proof.
  unfold sort_values_desc. eexists. eexists. split; [reflexivity|]. split.
  - apply no_nan_sort, no_nan_nonnan.
  - intros kv H. now apply filter_In in H.
Qed.

Lemma nan_last_filter (p : label * float64 -> bool) (s : series) :
  nan_last s -> nan_last (filter p s).
Proof.
  intros [a [b [-> [Na Nb]]]]. exists (filter p a), (filter p b).
  split; [apply filter_app|]. split.
  - now apply no_nan_filter.
  - intros kv H. apply filter_In in H. now apply Nb.
Qed.

Lemma nan_last_firstn (n : nat) (s : series) :
  nan_last s -> nan_last (firstn n s).
Proof.
  intros [a [b [-> [Na Nb]]]].
  exists (firstn n a), (firstn (n - length a) b).
  split; [apply firstn_app|]. split.
  - intros kv H. apply Na. now apply In_firstn in H.
  - intros kv H. apply Nb. now apply In_firstn in H.
Qed.

Lemma descending_filter (p : label * float64 -> bool) (s : series) :
  descending s -> descending (filter p s).
Proof. apply StronglySorted_filter. Qed.

Lemma descending_firstn (n : nat) (s : series) :
  descending s -> descending (firstn n s).
Proof. apply StronglySorted_firstn. Qed.

Lemma sort_values_desc_keys_NoDup (s : series) :
  NoDup (keys s) -> NoDup (keys (sort_values_desc s)).
Proof.
  apply Permutation_NoDup, Permutation_map, Permutation_sym,
    sort_values_desc_perm.
Qed.

Lemma combine_map_In {A B} (f : A -> B) (l : list A) (x : A) :
  In x l -> In (x, f x) (combine l (map f l)).
Proof.
  induction l as [|y l IH]; simpl; [tauto|].
  intros [->|H]; [now left | right; now apply IH].
Qed.

Lemma combine_map_inv {A B} (f : A -> B) (l : list A) (x : A) (y : B) :
  In (x, y) (combine l (map f l)) -> In x l /\ y = f x.
Proof.
  induction l as [|z l IH]; simpl; [tauto|].
  intros [H|H].
  - injection H as -> <-. split; [now left | reflexivity].
  - destruct (IH H) as [Hx Hy]. split; [now right | exact Hy].
Qed.

Lemma items_user_has_watched_spec (d : dataset) (u : Z) (watched : list Z)
    (v : Z) :
  items_user_has_watched d u = Ok watched ->
  (In v watched <-> In v (uim_columns d) /\ ~ uim_cell d u v == 0).
Proof.
  unfold items_user_has_watched, uim_loc.
  destruct (mem u (uim_index d)); cbn [bind]; [|discriminate].
  intro E. injection E as <-. rewrite in_map_iff. split.
  - intros [[c x] [Ec H]]. simpl in Ec. subst c.
    apply filter_In in H. destruct H as [H Hx]. simpl in Hx.
    apply combine_map_inv in H. destruct H as [Hc ->].
    split; [exact Hc|]. apply negb_true_iff in Hx. now apply Qeqb_false.
  - intros [Hc Hx]. exists (v, uim_cell d u v). split; [reflexivity|].
    apply filter_In. split; [now apply combine_map_In|].
    simpl. apply negb_true_iff. now apply Qeqb_false.
Qed.

(** X10.  What [recommend_videos_by_users] returns: at most [res_length]
    entries, no label twice, scores in descending order with the nan
    scores last; every label is a column of the pivot table for which the
    user has no non-zero watch ratio. *)
Theorem recommend_videos_by_users_shape (d : dataset) (u : Z)
    (nb_top_similar res_length : nat) (s : series) :
  recommend_videos_by_users d u nb_top_similar res_length = Ok s ->
  (length s <= res_length)%nat
  /\ NoDup (keys s)
  /\ descending s
  /\ nan_last s
  /\ forall k, In k (keys s) ->
               In k (uim_columns d) /\ uim_cell d u k == 0.
Proof.
  unfold recommend_videos_by_users.
  destruct (similar_users d u nb_top_similar) as [similar|];
    cbn [bind]; [|discriminate].
  destruct (mapM _ similar) as [rows|]; cbn [bind]; [|discriminate].
  destruct (items_user_has_watched d u) as [watched|] eqn:Ew;
    cbn [bind]; [|discriminate].
  intro E. injection E as <-. unfold head.
  split; [apply firstn_le_length|]. split; [|split; [|split]].
  - apply keys_firstn_NoDup, keys_filter_NoDup, sort_values_desc_keys_NoDup.
    rewrite keys_mean_axis0. apply sorted_distinct_NoDup.
  - apply descending_firstn, descending_filter, sort_values_desc_descending.
  - apply nan_last_firstn, nan_last_filter, sort_values_desc_nan_last.
  - intros k Hk. apply in_map_iff in Hk. destruct Hk as [kv [<- Hkv]].
    apply In_firstn, filter_In in Hkv. destruct Hkv as [Hkv Hw].
    apply (proj1 (sort_values_desc_In _ _)) in Hkv.
    assert (Hc : In (fst kv) (uim_columns d)).
    { rewrite <- (keys_mean_axis0 (uim_columns d) rows).
      now apply in_map. }
    split; [exact Hc|].
    apply negb_true_iff, mem_not_In in Hw.
    destruct (Qeq_dec (uim_cell d u (fst kv)) 0) as [Z|Z]; [exact Z|].
    exfalso. apply Hw.
    now apply (items_user_has_watched_spec d u watched (fst kv) Ew).
Qed.

Lemma recommend_videos_by_users_shape_witness :
  recommend_videos_by_users two_users 0 10 50 = Ok [(3%Z, Fin 2)]
  /\ (length [(3%Z, Fin 2)] <= 50)%nat
  /\ NoDup (keys [(3%Z, Fin 2)])
  /\ descending [(3%Z, Fin 2)]
  /\ nan_last [(3%Z, Fin 2)]
  /\ forall k, In k (keys [(3%Z, Fin 2)]) ->
               In k (uim_columns two_users) /\ uim_cell two_users 0 k == 0.
Proof.
  assert (E : recommend_videos_by_users two_users 0 10 50
              = Ok [(3%Z, Fin 2)]) by (vm_compute; reflexivity).
  split; [exact E|].
  exact (recommend_videos_by_users_shape two_users 0 10 50 _ E).
Defined.

(** ** Candidates of the content based recommender *)

Lemma distinctb_NoDup (l : list Z) : distinctb l = true -> NoDup l.
Proof.
  induction l as [|x l IH]; simpl; intro H; constructor;
    apply andb_true_iff in H; destruct H as [Hx Hl].
  - now apply mem_not_In, negb_true_iff.
  - now apply IH.
Qed.

Lemma wf_categories_NoDup (d : dataset) :
  wf_dataset d = true -> NoDup (map fst (categories d)).
Proof.
  unfold wf_dataset. rewrite !andb_true_iff. intro H.
  apply distinctb_NoDup. tauto.
Qed.

Lemma index_of_None (v : Z) (l : list Z) :
  ~ In v l -> index_of v l = None.
Proof.
  induction l as [|x l IH]; simpl; [reflexivity|].
  intro H. destruct (Z.eqb x v) eqn:E.
  - apply Z.eqb_eq in E. tauto.
  - rewrite IH; [reflexivity | tauto].
Qed.

Lemma index_of_nth (v : Z) (l : list Z) (i : nat) :
  index_of v l = Some i -> nth i l 0%Z = v /\ (i < length l)%nat.
Proof.
  revert i. induction l as [|x l IH]; intro i; simpl; [discriminate|].
  destruct (Z.eqb x v) eqn:E.
  - intro H. injection H as <-. apply Z.eqb_eq in E. split; [exact E|lia].
  - destruct (index_of v l) as [j|]; simpl; [|discriminate].
    intro H. injection H as <-. destruct (IH j eq_refl). split; [assumption|lia].
Qed.

Lemma map_fst_enumerate {A} (l : list A) :
  map fst (enumerate l) = seq 0 (length l).
Proof.
  unfold enumerate. generalize 0%nat.
  induction l as [|x l IH]; intro s; simpl; [reflexivity|].
  now rewrite IH.
Qed.

Lemma sorted_sim_scores_positions (sims : list Q) :
  Permutation (map fst (sorted_sim_scores sims)) (seq 0 (length sims)).
Proof.
  rewrite <- map_fst_enumerate. apply Permutation_map.
  apply stable_sort_perm.
Qed.

Lemma NoDup_map_nth (ids : list Z) (ps : list nat) :
  NoDup ids -> NoDup ps ->
  (forall p, In p ps -> (p < length ids)%nat) ->
  NoDup (map (fun p => nth p ids 0%Z) ps).
Proof.
  intros Ni Np. induction Np as [|p ps Hp Np IH]; simpl; intro H;
    constructor.
  - intro Hin. apply in_map_iff in Hin. destruct Hin as [q [E Hq]].
    assert (q = p).
    { apply (proj1 (NoDup_nth ids 0%Z) Ni); [apply H; now right | | exact E].
      apply H. now left. }
    subst q. contradiction.
  - apply IH. intros; apply H; now right.
Qed.

Lemma NoDup_firstn {A} (n : nat) (l : list A) :
  NoDup l -> NoDup (firstn n l).
Proof.
  intro N. rewrite <- (firstn_skipn n l) in N.
  now apply NoDup_app_remove_r in N.
Qed.

Lemma recommend_similar_videos_raises (d : dataset) (v : Z) (r : nat)
    (e : exn) :
  recommend_similar_videos d v r = Raise e -> e = IndexError.
Proof.
  unfold recommend_similar_videos.
  destruct (index_of v _); cbn [bind]; [|congruence].
  unfold iloc at 1.
  destruct (nth_error (content_based_cosine_sim d) n); cbn [bind];
    [|congruence].
  match goal with |- context [mapM ?f ?l] =>
    assert (M : forall e', mapM f l = Raise e' -> e' = IndexError) end.
  { generalize (map fst (firstn r (skipn 1 (sorted_sim_scores l)))).
    intro ps. induction ps as [|p ps IH]; simpl; intro e';
      [discriminate|].
    unfold iloc at 1. destruct (nth_error _ p); cbn [bind]; [|congruence].
    destruct (mapM _ ps) eqn:Ep; cbn [bind]; [discriminate|].
    intro H. injection H as <-. now apply IH. }
  destruct (mapM _ _) eqn:Em; cbn [bind]; [discriminate|].
  intro H. injection H as <-. now apply M.
Qed.

Lemma recommend_similar_videos_labels (d : dataset) (v : Z)
    (res_length : nat) :
  squareb (length (categories d)) (content_based_cosine_sim d) = true ->
  NoDup (map fst (categories d)) ->
  In v (map fst (categories d)) ->
  exists s,
    recommend_similar_videos d v res_length = Ok s
    /\ length s = Nat.min res_length (length (categories d) - 1)
    /\ NoDup (keys s)
    /\ forall k, In k (keys s) -> In k (map fst (categories d)).
Proof.
  intros W N H.
  destruct (recommend_similar_videos_ok d v res_length W H)
    as [sims [top [rest [Es [Ls [_ E]]]]]].
  eexists. split; [exact E|].
  pose proof (sorted_sim_scores_positions sims) as P. rewrite Es in P.
  simpl in P.
  assert (Lr : length rest = (length (categories d) - 1)%nat).
  { apply Permutation_length in P. simpl in P.
    rewrite length_map, length_seq in P. lia. }
  assert (Nr : NoDup (map fst rest)).
  { pose proof (Permutation_NoDup (Permutation_sym P)
                  (seq_NoDup (length sims) 0)) as Q.
    now inversion Q. }
  assert (Br : forall p, In p (map fst rest) ->
                         (p < length (map fst (categories d)))%nat).
  { intros p Hp. rewrite length_map, <- Ls.
    assert (Hq : In p (seq 0 (length sims))).
    { apply (Permutation_in _ P). now right. }
    apply in_seq in Hq. lia. }
  split; [|split].
  - rewrite length_map, length_firstn. lia.
  - unfold keys. rewrite map_map. simpl.
    rewrite <- (map_map fst (fun p => nth p (map fst (categories d)) 0%Z)).
    apply NoDup_map_nth; [exact N | |].
    + rewrite <- firstn_map. now apply NoDup_firstn.
    + intros p Hp. apply Br. rewrite <- firstn_map in Hp.
      now apply In_firstn in Hp.
  - intros k Hk. unfold keys in Hk. rewrite map_map in Hk. simpl in Hk.
    apply in_map_iff in Hk. destruct Hk as [p [<- Hp]].
    apply nth_In, Br, in_map. now apply In_firstn in Hp.
Qed.

(** X11.  [recommend_similar_videos] on a video that has no row in [categories]
    raises [IndexError].  For a video of the table (similarity array of
    the size of the table, video ids of the table distinct) it returns
    exactly [min(res_length, len(categories) - 1)] entries, whose labels
    are distinct video ids of the table. *)
Theorem recommend_similar_videos_count (d : dataset) (v : Z)
    (res_length : nat) :
  squareb (length (categories d)) (content_based_cosine_sim d) = true ->
  NoDup (map fst (categories d)) ->
  (~ In v (map fst (categories d)) ->
   recommend_similar_videos d v res_length = Raise IndexError)
  /\ (In v (map fst (categories d)) ->
      exists s,
        recommend_similar_videos d v res_length = Ok s
        /\ length s = Nat.min res_length (length (categories d) - 1)
        /\ NoDup (keys s)
        /\ forall k, In k (keys s) -> In k (map fst (categories d))).
Proof.
  intros W N. split.
  - intro H. unfold recommend_similar_videos.
    now rewrite (index_of_None v _ H).
  - now apply recommend_similar_videos_labels.
Qed.

Lemma recommend_similar_videos_count_witness :
  squareb (length (categories two_users))
          (content_based_cosine_sim two_users) = true
  /\ NoDup (map fst (categories two_users))
  /\ In 1%Z (map fst (categories two_users))
  /\ exists s,
      recommend_similar_videos two_users 1 10 = Ok s
      /\ length s = Nat.min 10 (length (categories two_users) - 1)
      /\ NoDup (keys s)
      /\ forall k, In k (keys s) -> In k (map fst (categories two_users)).
Proof.
  assert (W : squareb (length (categories two_users))
                      (content_based_cosine_sim two_users) = true)
    by (vm_compute; reflexivity).
  assert (N : NoDup (map fst (categories two_users))).
  { apply distinctb_NoDup. reflexivity. }
  assert (H : In 1%Z (map fst (categories two_users))) by (now left).
  split; [exact W|]. split; [exact N|]. split; [exact H|].
  exact (proj2 (recommend_similar_videos_count two_users 1 10 W N) H).
Defined.

Lemma combine_seq_nth {A} (l : list A) (s i : nat) (x d : A) :
  In (i, x) (combine (seq s (length l)) l) ->
  (s <= i)%nat /\ nth (i - s) l d = x.
Proof.
  revert s. induction l as [|y l IH]; intro s; simpl; [tauto|].
  intros [H|H].
  - injection H as -> ->. split; [lia|]. now rewrite Nat.sub_diag.
  - destruct (IH (S s) H) as [L E]. split; [lia|].
    replace (i - s)%nat with (S (i - S s)) by lia. exact E.
Qed.

Lemma enumerate_nth {A} (l : list A) (i : nat) (x d : A) :
  In (i, x) (enumerate l) -> nth i l d = x.
Proof.
  intro H. destruct (combine_seq_nth l 0 i x d H) as [_ E].
  now rewrite Nat.sub_0_r in E.
Qed.

(** X12.  When the similarity of a video with itself is strictly larger than
    its similarity with every other video, [recommend_similar_videos]
    never returns the video itself.  (With a tie this fails: see
    [recommend_similar_videos_tie].) *)
Theorem recommend_similar_videos_excludes_query (d : dataset) (v : Z)
    (res_length idx : nat) (sims : list Q) (s : series) :
  squareb (length (categories d)) (content_based_cosine_sim d) = true ->
  NoDup (map fst (categories d)) ->
  index_of v (map fst (categories d)) = Some idx ->
  nth_error (content_based_cosine_sim d) idx = Some sims ->
  (forall j, j <> idx -> (j < length sims)%nat ->
             nth j sims 0 < nth idx sims 0) ->
  recommend_similar_videos d v res_length = Ok s ->
  ~ In v (keys s).
Proof.
  intros W N Ei En Hmax E Hv.
  destruct (index_of_nth v _ idx Ei) as [Ev Li].
  assert (Hin : In v (map fst (categories d))).
  { rewrite <- Ev. now apply nth_In. }
  destruct (recommend_similar_videos_ok d v res_length W Hin)
    as [sims' [top [rest [Es [Ls [[idx' [Ei' En']] E']]]]]].
  rewrite Ei in Ei'. injection Ei' as <-.
  rewrite En in En'. injection En' as <-.
  rewrite E in E'. injection E' as ->.
  unfold keys in Hv. rewrite map_map in Hv. simpl in Hv.
  apply in_map_iff in Hv. destruct Hv as [[p y] [Ep Hp]]. simpl in Ep.
  apply In_firstn in Hp.
  pose proof (sorted_sim_scores_positions sims) as P.
  pose proof (sorted_sim_scores_sorted sims) as S.
  rewrite Es in P, S. simpl in P.
  assert (Hall : forall q, In q (top :: rest) -> In q (enumerate sims)).
  { intros q Hq. rewrite <- Es in Hq. now apply stable_sort_In in Hq. }
  assert (Lp : (p < length sims)%nat).
  { apply (enumerate_fst_lt sims (p, y)). apply Hall. now right. }
  assert (p = idx).
  { apply (proj1 (NoDup_nth (map fst (categories d)) 0%Z) N);
      [rewrite length_map; lia | exact Li | now rewrite Ev]. }
  subst p.
  destruct top as [j z].
  assert (Dj : j <> idx).
  { pose proof (Permutation_NoDup (Permutation_sym P)
                  (seq_NoDup (length sims) 0)) as Q.
    inversion Q as [|? ? Hj _]; subst. intros ->. apply Hj.
    apply in_map_iff. now exists (idx, y). }
  assert (Ey : nth idx sims 0 = y).
  { apply enumerate_nth, Hall. now right. }
  assert (Ez : nth j sims 0 = z).
  { apply enumerate_nth, Hall. now left. }
  assert (Lj : (j < length sims)%nat).
  { apply (enumerate_fst_lt sims (j, z)). apply Hall. now left. }
  inversion S as [|? ? _ Htop]; subst.
  rewrite Forall_forall in Htop. specialize (Htop _ Hp). simpl in Htop.
  specialize (Hmax j Dj Lj). exact (Qlt_not_le _ _ Hmax Htop).
Qed.

Lemma recommend_similar_videos_excludes_query_witness :
  squareb (length (categories three_users))
          (content_based_cosine_sim three_users) = true
  /\ NoDup (map fst (categories three_users))
  /\ recommend_similar_videos three_users 1 10
     = Ok [(2%Z, Fin 0); (3%Z, Fin 0)]
  /\ ~ In 1%Z (keys [(2%Z, Fin 0); (3%Z, Fin 0)]).
Proof.
  assert (W : squareb (length (categories three_users))
                      (content_based_cosine_sim three_users) = true)
    by (vm_compute; reflexivity).
  assert (N : NoDup (map fst (categories three_users))).
  { apply distinctb_NoDup. reflexivity. }
  assert (E : recommend_similar_videos three_users 1 10
              = Ok [(2%Z, Fin 0); (3%Z, Fin 0)]) by (vm_compute; reflexivity).
  split; [exact W|]. split; [exact N|]. split; [exact E|].
  apply (recommend_similar_videos_excludes_query three_users 1 10 0
           [1; 0; 0] _ W N); [reflexivity | reflexivity | | exact E].
  intros [|[|[|j]]] Hj Hl; simpl in *;
    [congruence | reflexivity | reflexivity | lia].
Defined.

(** Videos 1 and 2 of [two_users] have the same feature: the candidates
    of video 2 start with video 2 itself, the skipped entry being video
    1. *)
Example recommend_similar_videos_tie :
  recommend_similar_videos two_users 2 10
  = Ok [(2%Z, Fin 1); (3%Z, Fin 0)].
Proof. reflexivity. Qed.

(** ** Selection of the similar users *)

Lemma argsort_positions (sims : list Q) :
  Permutation (argsort sims) (seq 0 (length sims)).
Proof.
  unfold argsort. rewrite <- map_fst_enumerate. apply Permutation_map.
  apply stable_sort_perm.
Qed.

(** X13.  Under well-formed tables [similar_users] selects
    [min(nb_top_similar - 1, n)] of the [n] users when [nb_top_similar]
    is at least 1, and [n - 1] users when it is 0; the selected positions
    are distinct and are row labels of the pivot table. *)
Theorem similar_users_count (d : dataset) (u : Z) (nb_top_similar : nat) :
  wf_dataset d = true ->
  In u (uim_index d) ->
  exists l,
    similar_users d u nb_top_similar = Ok l
    /\ length l
       = Nat.min (match nb_top_similar with
                  | O => length (uim_index d) - 1
                  | S k => k
                  end)
                 (length (uim_index d))
    /\ NoDup l
    /\ forall p, In p l -> In (Z.of_nat p) (uim_index d).
Proof.
  intros W Hu.
  destruct (wf_index_position d u W Hu) as [i [-> Hi]].
  pose proof (squareb_rows _ _ (wf_user_similarity d W)) as [Ln Lr].
  destruct (ndarray_getitem_ok (user_similarity d) i) as [sims [Eg En]];
    [lia|].
  assert (Ls : length sims = length (uim_index d)).
  { apply Lr. eapply nth_error_In, En. }
  pose proof (argsort_positions sims) as P.
  unfold similar_users. rewrite Eg. cbn [bind].
  eexists. split; [reflexivity|]. unfold slice_to_neg_rev.
  split; [|split].
  - rewrite length_firstn, !length_rev, (Permutation_length P), length_seq.
    now rewrite Ls.
  - apply NoDup_firstn, NoDup_rev.
    apply (Permutation_NoDup (Permutation_sym P)), seq_NoDup.
  - intros p Hp. apply In_firstn, in_rev, argsort_lt in Hp.
    apply wf_position_index; [exact W | lia].
Qed.

Lemma similar_users_count_witness :
  wf_dataset two_users = true
  /\ In 0%Z (uim_index two_users)
  /\ exists l,
      similar_users two_users 0 10 = Ok l
      /\ length l = Nat.min 9 (length (uim_index two_users))
      /\ NoDup l
      /\ forall p, In p l -> In (Z.of_nat p) (uim_index two_users).
Proof.
  assert (W : wf_dataset two_users = true) by (vm_compute; reflexivity).
  assert (U : In 0%Z (uim_index two_users)).
  { apply mem_In. reflexivity. }
  split; [exact W|]. split; [exact U|].
  exact (similar_users_count two_users 0 10 W U).
Defined.

(** X14.  When the similarity of a user with itself is strictly larger than
    its similarity with every other user, the first user selected for
    [nb_top_similar >= 2] is the user itself. *)
Theorem similar_users_self_first (d : dataset) (i k : nat) (sims : list Q)
    (l : list nat) :
  nth_error (user_similarity d) i = Some sims ->
  (i < length sims)%nat ->
  (forall j, j <> i -> (j < length sims)%nat ->
             nth j sims 0 < nth i sims 0) ->
  similar_users d (Z.of_nat i) (S (S k)) = Ok l ->
  hd_error l = Some i.
Proof.
  intros En Li Hmax.
  destruct (ndarray_getitem_ok (user_similarity d) i) as [sims' [Eg En']].
  { apply nth_error_Some. congruence. }
  rewrite En in En'. injection En' as <-.
  unfold similar_users. rewrite Eg. cbn [bind]. intro E. injection E as <-.
  unfold slice_to_neg_rev, argsort. rewrite <- map_rev.
  set (L := stable_sort _ (enumerate sims)).
  assert (Srt : StronglySorted (fun a b => snd a <= snd b) L)
    by apply (by_key_asc_sorted snd).
  assert (Hall : forall q, In q L -> In q (enumerate sims)).
  { intros q Hq. now apply stable_sort_In in Hq. }
  assert (Hi : In (i, nth i sims 0) L).
  { apply stable_sort_In. unfold enumerate.
    assert (G : forall s (xs : list Q) j,
               (j < length xs)%nat ->
               In ((s + j)%nat, nth j xs 0) (combine (seq s (length xs)) xs)).
    { intros s xs. revert s. induction xs as [|x xs IH]; intros s j Hj;
        simpl in *; [lia|].
      destruct j as [|j]; [left; f_equal; lia|].
      right. replace (s + S j)%nat with (S s + j)%nat by lia.
      apply IH. lia. }
    exact (G 0%nat sims i Li). }
  destruct (rev L) as [|[j z] rest] eqn:Er.
  { apply in_rev in Hi. rewrite Er in Hi. destruct Hi. }
  simpl. f_equal.
  destruct (Nat.eq_dec j i) as [->|Dj]; [reflexivity|]. exfalso.
  assert (EL : L = rev rest ++ [(j, z)]).
  { rewrite <- (rev_involutive L), Er. reflexivity. }
  assert (Hj : In (j, z) (enumerate sims)).
  { apply Hall. rewrite EL. apply in_or_app. right. now left. }
  rewrite EL in Srt, Hi. apply in_app_or in Hi. destruct Hi as [Hi|[Hi|[]]].
  - pose proof (StronglySorted_split _ _ _ Srt _ (j, z) Hi
                  (or_introl eq_refl)) as Q.
    simpl in Q. rewrite <- (enumerate_nth sims j z 0 Hj) in Q.
    apply (Qlt_not_le _ _ (Hmax j Dj (enumerate_fst_lt sims (j, z) Hj))).
    exact Q.
  - injection Hi as Hj' _. now apply Dj.
Qed.

Lemma similar_users_self_first_witness :
  similar_users two_users 0 10 = Ok [0%nat; 1%nat]
  /\ hd_error [0%nat; 1%nat] = Some 0%nat.
Proof.
  assert (E : similar_users two_users (Z.of_nat 0) 10 = Ok [0%nat; 1%nat])
    by (vm_compute; reflexivity).
  split; [exact E|].
  apply (similar_users_self_first two_users 0 8 [1; 3 # 5] _);
    [reflexivity | simpl; lia | | exact E].
  intros [|[|j]] Hj Hl; simpl in *; [congruence | reflexivity | lia].
Defined.

(** X15.  With [nb_top_similar = 1] no user is selected: under well-formed
    tables [recommend_videos_by_users] then returns the unwatched columns
    in label order, each with the score nan. *)
Theorem recommend_videos_by_users_no_neighbour (d : dataset) (u : Z)
    (res_length : nat) :
  wf_dataset d = true ->
  In u (uim_index d) ->
  exists watched s,
    items_user_has_watched d u = Ok watched
    /\ recommend_videos_by_users d u 1 res_length = Ok s
    /\ keys s = firstn res_length
                  (filter (fun k => negb (mem k watched)) (uim_columns d))
    /\ forall kv, In kv s -> snd kv = NaN.
Proof.
  intros W Hu.
  destruct (recommend_videos_by_users_ok d u 1 W Hu)
    as [similar [rows [watched [Es [_ [Lr [Ew Eb]]]]]]].
  assert (similar = []).
  { unfold similar_users in Es.
    destruct (ndarray_getitem _ _); cbn [bind] in Es; [|discriminate].
    now injection Es as <-. }
  subst similar. destruct rows; [|discriminate].
  exists watched. eexists. split; [exact Ew|]. split; [apply Eb|].
  assert (M : forall cols,
             sort_values_desc (mean_axis0 cols [])
             = map (fun k => (k, NaN)) cols).
  { intro cols. unfold sort_values_desc, mean_axis0.
    rewrite (filter_none (fun kv => negb (isnan (snd kv)))),
      filter_all.
    - simpl. rewrite <- (map_snd_enumerate cols) at 2.
      now rewrite map_map.
    - intros kv H. apply in_map_iff in H. now destruct H as [? [<- _]].
    - intros kv H. apply in_map_iff in H. now destruct H as [? [<- _]]. }
  rewrite M. split.
  - unfold head, keys. rewrite <- firstn_map, filter_of_map, map_map.
    simpl. now rewrite map_id.
  - intros kv H. apply In_firstn, filter_In, proj1, in_map_iff in H.
    now destruct H as [? [<- _]].
Qed.

Lemma recommend_videos_by_users_no_neighbour_witness :
  wf_dataset two_users = true
  /\ In 0%Z (uim_index two_users)
  /\ exists watched s,
      items_user_has_watched two_users 0 = Ok watched
      /\ recommend_videos_by_users two_users 0 1 10 = Ok s
      /\ keys s = firstn 10 (filter (fun k => negb (mem k watched))
                               (uim_columns two_users))
      /\ forall kv, In kv s -> snd kv = NaN.
Proof.
  assert (W : wf_dataset two_users = true) by (vm_compute; reflexivity).
  assert (U : In 0%Z (uim_index two_users)).
  { apply mem_In. reflexivity. }
  split; [exact W|]. split; [exact U|].
  exact (recommend_videos_by_users_no_neighbour two_users 0 10 W U).
Defined.

(** ** The hybrid ranking *)

Lemma series_add_catalogued (d : dataset) (l r : series) :
  catalogued d l -> catalogued d r -> catalogued d (series_add l r).
Proof.
  intros [Nl Il] [Nr Ir]. unfold catalogued. rewrite keys_series_add. split.
  - destruct (align_index_cases (keys l) (keys r)) as [E|[[_ E]|E]];
      rewrite E; trivial. apply sorted_distinct_NoDup.
  - intros k Hk. apply align_index_In in Hk. destruct Hk; auto.
Qed.

Lemma accumulate_catalogued (d : dataset) (history : list Z) :
  wf_dataset d = true ->
  forall acc s,
    catalogued d acc ->
    accumulate d history acc = Ok s -> catalogued d s.
Proof.
  intro W. induction history as [|v h IH]; intros acc s Ha; simpl.
  - intro E. now injection E as <-.
  - destruct (recommend_similar_videos d v 10) as [sim|] eqn:Es;
      cbn [bind]; [|discriminate].
    apply IH. apply series_add_catalogued; [exact Ha|].
    destruct (in_dec Z.eq_dec v (map fst (categories d))) as [K|K].
    + destruct (recommend_similar_videos_labels d v 10 (wf_content d W)
                  (wf_categories_NoDup d W) K) as [s' [E' [_ C]]].
      rewrite Es in E'. injection E' as <-. exact C.
    + unfold recommend_similar_videos in Es.
      rewrite (index_of_None v _ K) in Es. discriminate.
Qed.

Lemma uim_columns_catalogued (d : dataset) (k : Z) :
  wf_dataset d = true ->
  In k (uim_columns d) -> In k (map fst (categories d)).
Proof.
  intros W H. unfold uim_columns in H.
  apply (proj1 (sorted_distinct_In _ _)) in H.
  apply in_map_iff in H. destruct H as [i [<- Hi]]. now apply wf_videos.
Qed.

Lemma collaborative_catalogued (d : dataset) (u : Z)
    (N res_length : nat) (s : series) :
  wf_dataset d = true ->
  recommend_videos_by_users d u N res_length = Ok s -> catalogued d s.
Proof.
  intros W Eb. unfold recommend_videos_by_users in Eb.
  destruct (similar_users d u N) as [similar|]; cbn [bind] in Eb;
    [|discriminate].
  destruct (mapM _ similar) as [rows|]; cbn [bind] in Eb; [|discriminate].
  destruct (items_user_has_watched d u) as [watched|]; cbn [bind] in Eb;
    [|discriminate].
  injection Eb as <-. unfold head. split.
  - apply keys_firstn_NoDup, keys_filter_NoDup,
      sort_values_desc_keys_NoDup.
    rewrite keys_mean_axis0. apply sorted_distinct_NoDup.
  - intros k Hk. apply in_map_iff in Hk. destruct Hk as [kv [<- Hkv]].
    apply In_firstn, filter_In, proj1 in Hkv.
    apply (proj1 (sort_values_desc_In _ _)) in Hkv.
    apply (uim_columns_catalogued d _ W).
    rewrite <- (keys_mean_axis0 (uim_columns d) rows). now apply in_map.
Qed.

Lemma recommmend_videos_for_user_ok (d : dataset) (u : Z) (w : Q)
    (n : nat) :
  wf_dataset d = true ->
  In u (uim_index d) ->
  exists res, recommmend_videos_for_user d u w n = Ok res.
Proof.
  intros W Hu.
  destruct (content_scores_ok d u W) as [content Ec].
  destruct (recommend_videos_by_users_ok d u 10 W Hu)
    as [similar [rows [watched [_ [_ [_ [_ Eb]]]]]]].
  unfold recommmend_videos_for_user, combined_scores.
  rewrite Eb, Ec. cbn [bind]. now eexists.
Qed.

Lemma hybrid_catalogued (d : dataset) (u : Z) (w : Q) (n : nat)
    (res : series) :
  wf_dataset d = true ->
  recommmend_videos_for_user d u w n = Ok res -> catalogued d res.
Proof.
  intros W. unfold recommmend_videos_for_user, combined_scores.
  destruct (recommend_videos_by_users d u 10 50) as [collab|] eqn:Eb;
    cbn [bind]; [|discriminate].
  destruct (content_scores d u) as [content|] eqn:Ec; cbn [bind];
    [|discriminate].
  intro E. injection E as <-.
  assert (Cc : catalogued d content).
  { apply (accumulate_catalogued d (user_history d u) W [] content);
      [|exact Ec]. split; [constructor | intros ? []]. }
  pose proof (collaborative_catalogued d u 10 50 collab W Eb) as Ce.
  assert (Cm : catalogued d
                 (series_add (series_mul (normalize content) w)
                             (series_mul (normalize collab) (1 - w)))).
  { apply series_add_catalogued; unfold catalogued;
      rewrite keys_series_mul, keys_normalize; assumption. }
  destruct Cm as [Nm Im]. unfold head, drop. split.
  - now apply keys_firstn_NoDup, sort_values_desc_keys_NoDup,
      keys_filter_NoDup.
  - intros k Hk. apply in_map_iff in Hk. destruct Hk as [kv [<- Hkv]].
    apply In_firstn in Hkv.
    apply (proj1 (sort_values_desc_In _ _)) in Hkv.
    apply filter_In, proj1 in Hkv. apply Im. now apply in_map.
Qed.

(** X16.  What [recommmend_videos_for_user] returns under well-formed tables:
    at most [res_length] entries, no video twice, scores in descending
    order with the nan scores last; every video has a row in
    [categories] and is none of the 20 most watched videos of the user. *)
Theorem recommmend_videos_for_user_shape (d : dataset) (u : Z) (w : Q)
    (res_length : nat) (res : series) :
  wf_dataset d = true ->
  recommmend_videos_for_user d u w res_length = Ok res ->
  (length res <= res_length)%nat
  /\ NoDup (keys res)
  /\ descending res
  /\ nan_last res
  /\ forall k, In k (keys res) ->
               In k (map fst (categories d)) /\ ~ In k (user_history d u).
Proof.
  intros W E.
  destruct (hybrid_catalogued d u w res_length res W E) as [N I].
  unfold recommmend_videos_for_user in E.
  destruct (combined_scores d u w) as [combined|]; cbn [bind] in E;
    [|discriminate].
  injection E as <-. unfold head.
  split; [apply firstn_le_length|]. split; [exact N|].
  split; [apply descending_firstn, sort_values_desc_descending|].
  split; [apply nan_last_firstn, sort_values_desc_nan_last|].
  intros k Hk. split; [now apply I|].
  apply in_map_iff in Hk. destruct Hk as [kv [<- Hkv]].
  apply In_firstn in Hkv. apply (proj1 (sort_values_desc_In _ _)) in Hkv.
  apply drop_In in Hkv. tauto.
Qed.

Lemma recommmend_videos_for_user_shape_witness :
  wf_dataset two_users = true
  /\ recommmend_videos_for_user two_users 0 (3 # 10) 10
     = Ok [(3%Z, Fin (7 # 10)); (2%Z, Fin (3 # 10))]
  /\ (length [(3%Z, Fin (7 # 10)); (2%Z, Fin (3 # 10))] <= 10)%nat
  /\ NoDup (keys [(3%Z, Fin (7 # 10)); (2%Z, Fin (3 # 10))])
  /\ descending [(3%Z, Fin (7 # 10)); (2%Z, Fin (3 # 10))]
  /\ nan_last [(3%Z, Fin (7 # 10)); (2%Z, Fin (3 # 10))]
  /\ forall k, In k (keys [(3%Z, Fin (7 # 10)); (2%Z, Fin (3 # 10))]) ->
               In k (map fst (categories two_users))
               /\ ~ In k (user_history two_users 0).
Proof.
  assert (W : wf_dataset two_users = true) by (vm_compute; reflexivity).
  assert (E : recommmend_videos_for_user two_users 0 (3 # 10) 10
              = Ok [(3%Z, Fin (7 # 10)); (2%Z, Fin (3 # 10))])
    by (vm_compute; reflexivity).
  split; [exact W|]. split; [exact E|].
  exact (recommmend_videos_for_user_shape two_users 0 (3 # 10) 10 _ W E).
Defined.

(** ** Exceptions of the recommenders *)

Lemma recommend_videos_by_users_raises (d : dataset) (u : Z) (N r : nat)
    (e : exn) :
  recommend_videos_by_users d u N r = Raise e -> is_lookup_error e = true.
Proof.
  unfold recommend_videos_by_users.
  destruct (similar_users d u N) as [similar|e'] eqn:Es; cbn [bind].
  - destruct (mapM _ similar) as [rows|e'] eqn:Er; cbn [bind].
    + unfold items_user_has_watched.
      destruct (uim_loc d u) as [row|e'] eqn:El; cbn [bind];
        [discriminate|].
      intro H. injection H as <-.
      now rewrite (uim_loc_raises d u e' El).
    + intro H. injection H as <-.
      now rewrite (mapM_uim_loc_raises d similar e' Er).
  - intro H. injection H as <-.
    now rewrite (similar_users_raises d u N e' Es).
Qed.

Lemma accumulate_raises (d : dataset) (history : list Z) (acc : series)
    (e : exn) :
  accumulate d history acc = Raise e -> e = IndexError.
Proof.
  revert acc. induction history as [|v h IH]; intro acc; simpl;
    [discriminate|].
  destruct (recommend_similar_videos d v 10) as [s|e'] eqn:Es; cbn [bind].
  - apply IH.
  - intro H. injection H as <-.
    exact (recommend_similar_videos_raises d v 10 e' Es).
Qed.

Lemma accumulate_unknown (d : dataset) (history : list Z) (v : Z) :
  In v history -> ~ In v (map fst (categories d)) ->
  forall acc, accumulate d history acc = Raise IndexError.
Proof.
  intros Hv Nv. induction history as [|x h IH]; [destruct Hv|].
  intro acc. simpl.
  destruct (recommend_similar_videos d x 10) as [s|e'] eqn:Es; cbn [bind].
  - destruct Hv as [->|Hv]; [|now apply IH].
    unfold recommend_similar_videos in Es.
    rewrite (index_of_None v _ Nv) in Es. discriminate.
  - now rewrite (recommend_similar_videos_raises d x 10 e' Es).
Qed.

(** X17.  Whatever the tables and the arguments, an exception raised by one of
    the three recommenders is a lookup error ([IndexError] or [KeyError]):
    the divisions of the means and of the normalisation never raise. *)
Theorem recommenders_raise_lookup_errors (d : dataset) (u v : Z)
    (nb_top_similar res_length : nat) (content_weight : Q) (e : exn) :
  recommend_videos_by_users d u nb_top_similar res_length = Raise e
  \/ recommend_similar_videos d v res_length = Raise e
  \/ recommmend_videos_for_user d u content_weight res_length = Raise e ->
  is_lookup_error e = true.
Proof.
  intros [H|[H|H]].
  - exact (recommend_videos_by_users_raises d u _ _ e H).
  - now rewrite (recommend_similar_videos_raises d v _ e H).
  - unfold recommmend_videos_for_user, combined_scores in H.
    destruct (recommend_videos_by_users d u 10 50) as [collab|e'] eqn:Eb;
      cbn [bind] in H.
    + destruct (content_scores d u) as [content|e'] eqn:Ec;
        cbn [bind] in H; [discriminate|].
      injection H as <-.
      now rewrite (accumulate_raises d (user_history d u) [] e' Ec).
    + injection H as <-.
      exact (recommend_videos_by_users_raises d u _ _ e' Eb).
Qed.

Lemma recommenders_raise_lookup_errors_witness :
  recommmend_videos_for_user two_users 7 (3 # 10) 10 = Raise IndexError
  /\ is_lookup_error IndexError = true.
Proof.
  assert (H : recommmend_videos_for_user two_users 7 (3 # 10) 10
              = Raise IndexError) by reflexivity.
  split; [exact H|].
  exact (recommenders_raise_lookup_errors two_users 7 1 10 10 (3 # 10)
           IndexError (or_intror (or_intror H))).
Defined.

(** X18.  A video among the 20 most watched of the user that has no row in
    [categories] makes the hybrid recommender raise: [IndexError] when the
    collaborative component was computed, a lookup error in any case. *)
Theorem uncatalogued_history_raises (d : dataset) (u : Z)
    (content_weight : Q) (res_length : nat) (v : Z) :
  In v (user_history d u) ->
  ~ In v (map fst (categories d)) ->
  (exists e, recommmend_videos_for_user d u content_weight res_length
             = Raise e /\ is_lookup_error e = true)
  /\ ((exists collab, recommend_videos_by_users d u 10 50 = Ok collab) ->
      recommmend_videos_for_user d u content_weight res_length
      = Raise IndexError).
Proof.
  intros Hv Nv.
  pose proof (accumulate_unknown d (user_history d u) v Hv Nv []) as Ec.
  unfold recommmend_videos_for_user, combined_scores.
  destruct (recommend_videos_by_users d u 10 50) as [collab|e] eqn:Eb;
    cbn [bind].
  - unfold content_scores. rewrite Ec. cbn [bind].
    split; [now exists IndexError | reflexivity].
  - split.
    + exists e. split; [reflexivity|].
      exact (recommend_videos_by_users_raises d u _ _ e Eb).
    + intros [collab Ex]. discriminate.
Qed.

Lemma uncatalogued_history_raises_witness :
  In 9%Z (user_history uncatalogued_video 0)
  /\ ~ In 9%Z (map fst (categories uncatalogued_video))
  /\ recommmend_videos_for_user uncatalogued_video 0 (3 # 10) 10
     = Raise IndexError.
Proof.
  assert (H : In 9%Z (user_history uncatalogued_video 0)) by (now left).
  assert (N : ~ In 9%Z (map fst (categories uncatalogued_video))).
  { apply mem_not_In. reflexivity. }
  split; [exact H|]. split; [exact N|].
  apply (uncatalogued_history_raises uncatalogued_video 0 (3 # 10) 10 9 H N).
  now eexists.
Defined.

(** ** The evaluation *)

Lemma f1_score_at_k_nonneg (p r : Q) :
  0 <= p -> 0 <= r -> exists v, f1_score_at_k p r = Ok v /\ 0 <= v.
Proof.
  intros Hp Hr. destruct (Qeq_dec (p + r) 0) as [Z|Z].
  - exists 0. split; [now apply f1_score_at_k_zero_sum | discriminate].
  - exists (2 * (p * r) / (p + r)).
    split; [now apply f1_score_at_k_value|].
    apply Qle_shift_div_l; [lra | nra].
Qed.

Lemma recall_at_k_unit (recommended relevant : set Z) :
  NoDup recommended ->
  exists v, recall_at_k recommended relevant = Ok v /\ 0 <= v <= 1.
Proof.
  intro N. unfold recall_at_k.
  destruct (Nat.eq_dec (length relevant) 0) as [E|E].
  - rewrite E. simpl. exists 0. split; [reflexivity|]. split; discriminate.
  - replace (0 <? length relevant)%nat with true
      by (symmetry; apply Nat.ltb_lt; lia).
    rewrite truediv_ok by (now rewrite of_nat_zero).
    eexists. split; [reflexivity|].
    split; apply ratio_bounds; trivial. now apply set_inter_length_r.
Qed.

Lemma ratio_pos (n m : nat) :
  m <> O -> (0 < of_nat n / of_nat m <-> n <> O).
Proof.
  intro Hm.
  pose proof (ratio_bounds n m Hm) as [B _].
  pose proof (ratio_zero n m Hm) as Z. split.
  - intros H E. apply Z in E. rewrite E in H. discriminate.
  - intro H. apply Qle_lt_or_eq in B. destruct B as [B|B]; [exact B|].
    exfalso. apply H, Z. now symmetry.
Qed.

Lemma hit_ratio_at_k_one (recommended relevant : set Z) :
  hit_ratio_at_k recommended relevant = 1%nat
  <-> length (set_inter Z.eq_dec recommended relevant) <> O.
Proof.
  unfold hit_ratio_at_k.
  destruct (length (set_inter Z.eq_dec recommended relevant)); simpl;
    split; congruence.
Qed.

(** X19.  [metrics K] on well-formed tables that know user 14.  [K = 0] raises
    [ZeroDivisionError].  For [K > 0]: a test video among the [K] most
    watched of user 14 without a row in [categories] raises [IndexError];
    otherwise a [categories] table without any feature raises
    [ZeroDivisionError], and in the remaining case the five numbers are
    returned, with precision and F1 score not negative, recall and
    coverage in [0, 1], and the hit ratio 1 exactly when the precision is
    positive. *)
Theorem metrics_outcome (d : dataset) (test_df : list interaction)
    (K : nat) :
  wf_dataset d = true ->
  In 14%Z (uim_index d) ->
  (K = O -> metrics d test_df K = Raise ZeroDivisionError)
  /\ (K <> O ->
      ((exists i, In i (get_most_watched_videos_by_user_id test_df 14 K)
                  /\ ~ In (video_id i) (map fst (categories d))) ->
       metrics d test_df K = Raise IndexError)
      /\ ((forall i, In i (get_most_watched_videos_by_user_id test_df 14 K)
                     -> In (video_id i) (map fst (categories d))) ->
          (total_features d = O ->
           metrics d test_df K = Raise ZeroDivisionError)
          /\ (total_features d <> O ->
              exists m,
                metrics d test_df K = Ok m
                /\ 0 <= precision m
                /\ 0 <= recall m <= 1
                /\ 0 <= f1_score m
                /\ 0 <= coverage m <= 1
                /\ (hit_ratio m = 1%nat <-> 0 < precision m)
                /\ (hit_ratio m <> 1%nat -> hit_ratio m = 0%nat)))).
Proof.
  intros W Hu.
  destruct (recommmend_videos_for_user_ok d 14 (3 # 10) K W Hu)
    as [res Er].
  destruct (hybrid_catalogued d 14 (3 # 10) K res W Er) as [_ Cr].
  destruct (get_features_of_videos_ok d (keys res) Cr)
    as [rf [Erf [Nrf Lrf]]].
  unfold metrics. rewrite Er. cbn [bind]. rewrite Erf. cbn [bind]. split.
  - intros ->. unfold get_most_watched_videos_by_user_id, head.
    simpl firstn. simpl map. unfold get_features_of_videos at 1.
    simpl features_loop. cbn [bind]. unfold precision_at_k.
    rewrite truediv_zero by reflexivity. reflexivity.
  - intro HK. split.
    + intros [i [Hi Ni]].
      assert (R : get_features_of_videos d
                    (map video_id
                       (get_most_watched_videos_by_user_id test_df 14 K))
                  = Raise IndexError).
      { unfold get_features_of_videos.
        destruct (features_loop d _ (empty_set Z)) as [feats|e] eqn:E.
        - exfalso. apply Ni.
          apply (features_loop_ok_known d _ _ feats E). now apply in_map.
        - now destruct (features_loop_raises d _ _ e E) as [-> _]. }
      rewrite R. reflexivity.
    + intro Kt.
      destruct (get_features_of_videos_ok d
                  (map video_id
                     (get_most_watched_videos_by_user_id test_df 14 K)))
        as [ff [Eff [Nff Lff]]].
      { intros v Hv. apply in_map_iff in Hv. destruct Hv as [i [<- Hi]].
        now apply Kt. }
      rewrite Eff. cbn [bind].
      assert (Ep : precision_at_k rf ff K
                   = Ok (of_nat (length (set_inter Z.eq_dec rf ff))
                         / of_nat K)).
      { unfold precision_at_k. apply truediv_ok. now rewrite of_nat_zero. }
      rewrite Ep. cbn [bind].
      destruct (recall_at_k_unit rf ff Nrf) as [r [Erc Br]].
      rewrite Erc. cbn [bind].
      pose proof (ratio_bounds (length (set_inter Z.eq_dec rf ff)) K HK)
        as [Bp _].
      destruct (f1_score_at_k_nonneg _ r Bp (proj1 Br)) as [f [Ef Bf]].
      rewrite Ef. cbn [bind]. split.
      * intro Z. unfold coverage_at_k. rewrite Z.
        rewrite truediv_zero by reflexivity. reflexivity.
      * intro Z.
        assert (Ec : coverage_at_k rf (total_features d)
                     = Ok (of_nat (length rf) / of_nat (total_features d))).
        { unfold coverage_at_k. apply truediv_ok. now rewrite of_nat_zero. }
        rewrite Ec. cbn [bind]. eexists. split; [reflexivity|].
        cbn [precision recall f1_score coverage hit_ratio].
        split; [exact Bp|]. split; [exact Br|]. split; [exact Bf|].
        split; [split; now apply ratio_bounds|]. split.
        -- rewrite hit_ratio_at_k_one. symmetry. now apply ratio_pos.
        -- unfold hit_ratio_at_k. destruct (0 <? _)%nat; congruence.
Qed.

Lemma metrics_outcome_witness :
  wf_dataset fifteen_users = true
  /\ In 14%Z (uim_index fifteen_users)
  /\ exists m,
      metrics fifteen_users fifteen_users_test 1 = Ok m
      /\ 0 <= precision m
      /\ 0 <= recall m <= 1
      /\ 0 <= f1_score m
      /\ 0 <= coverage m <= 1
      /\ (hit_ratio m = 1%nat <-> 0 < precision m)
      /\ (hit_ratio m <> 1%nat -> hit_ratio m = 0%nat).
Proof.
  assert (W : wf_dataset fifteen_users = true) by (vm_compute; reflexivity).
  assert (U : In 14%Z (uim_index fifteen_users)).
  { apply mem_In. vm_compute. reflexivity. }
  split; [exact W|]. split; [exact U|].
  apply (metrics_outcome fifteen_users fifteen_users_test 1 W U).
  - discriminate.
  - intros i Hi. apply mem_In. vm_compute in Hi.
    destruct Hi as [<-|[]]. vm_compute. reflexivity.
  - vm_compute. discriminate.
Defined.

(** ** The pivot table *)

Lemma fold_qmax_max (ws : list Q) (w : Q) :
  w <= fold_left qmax ws w
  /\ (forall x, In x ws -> x <= fold_left qmax ws w)
  /\ In (fold_left qmax ws w) (w :: ws).
Proof.
  revert w. induction ws as [|x ws IH]; intro w; simpl.
  - split; [apply Qle_refl|]. split; [intros ? []| now left].
  - destruct (IH (qmax w x)) as [B [A I]].
    assert (M : w <= qmax w x /\ x <= qmax w x
                /\ (qmax w x = w \/ qmax w x = x)).
    { unfold qmax. destruct (Qltb w x) eqn:E.
      - apply Qltb_true in E. split; [now apply Qlt_le_weak|].
        split; [apply Qle_refl | now right].
      - apply Qltb_false in E. split; [apply Qle_refl|].
        split; [exact E | now left]. }
    destruct M as [Mw [Mx Me]]. split; [now apply Qle_trans with (qmax w x)|].
    split.
    + intros y [<-|Hy]; [now apply Qle_trans with (qmax w x) | now apply A].
    + destruct I as [I|I]; [|now right; right].
      rewrite <- I. destruct Me as [->| ->]; [now left | now right; left].
Qed.

Lemma uim_cell_absent (d : dataset) (u v : Z) :
  (forall i, In i (interactions d) -> user_id i = u -> video_id i <> v) ->
  uim_cell d u v = 0.
Proof.
  intro H. unfold uim_cell.
  destruct (filter _ (interactions d)) as [|i l] eqn:E; [reflexivity|].
  exfalso. assert (Hi : In i (filter (fun i => Z.eqb (user_id i) u
                                               && Z.eqb (video_id i) v)
                                (interactions d)))
    by (rewrite E; now left).
  apply filter_In in Hi. destruct Hi as [Hi B].
  apply andb_true_iff in B. destruct B as [Bu Bv].
  apply Z.eqb_eq in Bu, Bv. exact (H i Hi Bu Bv).
Qed.

Lemma uim_cell_max (d : dataset) (u v : Z) (i : interaction) :
  In i (interactions d) -> user_id i = u -> video_id i = v ->
  watch_ratio i <= uim_cell d u v
  /\ exists j, In j (interactions d) /\ user_id j = u /\ video_id j = v
               /\ uim_cell d u v = watch_ratio j.
Proof.
  intros Hi Eu Ev. unfold uim_cell.
  set (p := fun i => Z.eqb (user_id i) u && Z.eqb (video_id i) v).
  assert (Hf : In i (filter p (interactions d))).
  { apply filter_In. split; [exact Hi|]. unfold p.
    now rewrite Eu, Ev, !Z.eqb_refl. }
  assert (Hp : forall x, In x (map watch_ratio (filter p (interactions d)))
                 -> exists j, In j (interactions d) /\ user_id j = u
                              /\ video_id j = v /\ x = watch_ratio j).
  { intros x Hx. apply in_map_iff in Hx. destruct Hx as [j [<- Hj]].
    apply filter_In in Hj. destruct Hj as [Hj B]. unfold p in B.
    apply andb_true_iff in B. destruct B as [Bu Bv].
    apply Z.eqb_eq in Bu, Bv. now exists j. }
  apply (in_map watch_ratio) in Hf.
  destruct (map watch_ratio (filter p (interactions d))) as [|w ws];
    [destruct Hf|].
  destruct (fold_qmax_max ws w) as [B [A I]]. split.
  - destruct Hf as [<-|Hf]; [exact B | now apply A].
  - now apply Hp.
Qed.

(** X20.  The pivot table [user_item_matrix]: its row labels are the user ids
    of [interactions] and its column labels the video ids, each in
    ascending order without repetition; a cell without interaction holds
    the fill value 0, any other cell the largest watch ratio of its
    interactions. *)
Theorem user_item_matrix_cells (d : dataset) :
  (StronglySorted Z.lt (uim_index d)
   /\ forall u, In u (uim_index d)
                <-> exists i, In i (interactions d) /\ user_id i = u)
  /\ (StronglySorted Z.lt (uim_columns d)
      /\ forall v, In v (uim_columns d)
                   <-> exists i, In i (interactions d) /\ video_id i = v)
  /\ forall u v,
      ((forall i, In i (interactions d) -> user_id i = u ->
                  video_id i <> v) ->
       uim_cell d u v = 0)
      /\ forall i, In i (interactions d) -> user_id i = u ->
                   video_id i = v ->
                   watch_ratio i <= uim_cell d u v
                   /\ exists j, In j (interactions d) /\ user_id j = u
                                /\ video_id j = v
                                /\ uim_cell d u v = watch_ratio j.
Proof.
  split; [|split].
  - split; [apply sorted_distinct_ascending|]. intro u. unfold uim_index.
    rewrite sorted_distinct_In, in_map_iff. split; intros [i H]; exists i;
      tauto.
  - split; [apply sorted_distinct_ascending|]. intro v. unfold uim_columns.
    rewrite sorted_distinct_In, in_map_iff. split; intros [i H]; exists i;
      tauto.
  - intros u v. split; [apply uim_cell_absent | apply uim_cell_max].
Qed.

(** X21.  [items_user_has_watched]: for a user of the pivot table whose watch
    ratios are not negative, the videos returned are those of which the
    user has an interaction with a positive watch ratio; a video met only
    with ratio 0 does not count as watched. *)
Theorem items_user_has_watched_positive (d : dataset) (u : Z) :
  In u (uim_index d) ->
  (forall i, In i (interactions d) -> user_id i = u -> 0 <= watch_ratio i) ->
  exists watched,
    items_user_has_watched d u = Ok watched
    /\ forall v,
        In v watched
        <-> exists i, In i (interactions d) /\ user_id i = u
                      /\ video_id i = v /\ 0 < watch_ratio i.
Proof.
  intros Hu Hr.
  destruct (items_user_has_watched d u) as [watched|e] eqn:E.
  - exists watched. split; [reflexivity|]. intro v.
    rewrite (items_user_has_watched_spec d u watched v E). split.
    + intros [Hc Hz].
      destruct (existsb (fun i => Z.eqb (user_id i) u
                                  && Z.eqb (video_id i) v)
                  (interactions d)) eqn:X.
      * apply existsb_exists in X. destruct X as [i [Hi B]].
        apply andb_true_iff in B. destruct B as [Bu Bv].
        apply Z.eqb_eq in Bu, Bv.
        destruct (uim_cell_max d u v i Hi Bu Bv) as [_ [j [Hj [Ju [Jv Ej]]]]].
        exists j. repeat split; trivial.
        pose proof (Hr j Hj Ju) as P. rewrite Ej in Hz.
        apply Qle_lt_or_eq in P. destruct P as [P|P]; [exact P|].
        exfalso. apply Hz. now symmetry.
      * exfalso. apply Hz. rewrite uim_cell_absent; [reflexivity|].
        intros i Hi Eu Ev.
        assert (T : existsb (fun i => Z.eqb (user_id i) u
                                      && Z.eqb (video_id i) v)
                      (interactions d) = true).
        { apply existsb_exists. exists i. split; [exact Hi|].
          now rewrite Eu, Ev, !Z.eqb_refl. }
        congruence.
    + intros [i [Hi [Eu [Ev P]]]]. split.
      * unfold uim_columns. apply sorted_distinct_In, in_map_iff.
        now exists i.
      * destruct (uim_cell_max d u v i Hi Eu Ev) as [L _]. intro Z.
        rewrite Z in L. exact (Qlt_not_le _ _ P L).
  - exfalso. unfold items_user_has_watched, uim_loc in E.
    apply mem_In in Hu. rewrite Hu in E. discriminate.
Qed.

Lemma items_user_has_watched_positive_witness :
  In 1%Z (uim_index zero_maximum)
  /\ (forall i, In i (interactions zero_maximum) -> user_id i = 1%Z ->
                0 <= watch_ratio i)
  /\ exists watched,
      items_user_has_watched zero_maximum 1 = Ok watched
      /\ forall v,
          In v watched
          <-> exists i, In i (interactions zero_maximum) /\ user_id i = 1%Z
                        /\ video_id i = v /\ 0 < watch_ratio i.
Proof.
  assert (U : In 1%Z (uim_index zero_maximum)).
  { apply mem_In. reflexivity. }
  assert (R : forall i, In i (interactions zero_maximum) ->
                        user_id i = 1%Z -> 0 <= watch_ratio i).
  { intros i [<-|[<-|[<-|[]]]] _; discriminate. }
  split; [exact U|]. split; [exact R|].
  exact (items_user_has_watched_positive zero_maximum 1 U R).
Defined.

(** * The rankings for every order of equal keys *)

(** ** The stable sorts meet the contract *)

Lemma all_nan_total (s : series) :
  (forall kv, In kv s -> isnan (snd kv) = true) ->
  StronglySorted (fun a b => fltb_total (snd a) (snd b) = false) s.
Proof.
  induction s as [|x s IH]; intro H; constructor.
  - apply IH. intros; apply H; now right.
  - apply Forall_forall. intros y Hy.
    assert (Hx : isnan (snd x) = true) by (apply H; now left).
    assert (Hy' : isnan (snd y) = true) by (apply H; now right).
    destruct (snd x); try discriminate. now destruct (snd y).
Qed.

Lemma sort_values_desc_total (s : series) :
  StronglySorted (fun a b => fltb_total (snd a) (snd b) = false)
                 (sort_values_desc s).
Proof.
  unfold sort_values_desc. apply StronglySorted_append.
  - exact (desc_sort_sorted _ (no_nan_nonnan s)).
  - apply all_nan_total. intros kv H. now apply filter_In in H.
  - intros a b _ Hb. apply filter_In in Hb. destruct Hb as [_ Hb].
    destruct (snd b); try discriminate. now destruct (snd a).
Qed.

Lemma argsort_ascending (row : list Q) :
  StronglySorted (fun i j => nth i row 0 <= nth j row 0) (argsort row).
Proof.
  unfold argsort.
  pose proof (by_key_asc_sorted (@snd nat Q) (enumerate row)) as S.
  assert (H : forall p,
             In p (stable_sort (fun y x => Qltb (snd y) (snd x))
                               (enumerate row)) ->
             nth (fst p) row 0 = snd p).
  { intros [i x] Hp. apply stable_sort_In in Hp.
    now apply enumerate_nth. }
  induction S as [|p l _ IH Hp]; simpl; constructor.
  - apply IH. intros q Hq. apply H. now right.
  - apply Forall_forall. intros j Hj. apply in_map_iff in Hj.
    destruct Hj as [q [<- Hq]]. rewrite Forall_forall in Hp.
    rewrite (H p), (H q); [now apply Hp | now right | now left].
Qed.

Lemma stable_sorts : sorts stable.
Proof.
  split; [|split].
  - intro row. split; [apply argsort_positions | apply argsort_ascending].
  - intro s. split; [apply sort_values_desc_perm|].
    apply sort_values_desc_total.
  - intro df. split; [apply stable_sort_perm|].
    exact (by_key_desc_sorted watch_ratio df).
Qed.

(** The recommenders of the first part are the recommenders over the
    stable sorts. *)
Lemma by_stable (d : dataset) (u : Z) (w : Q) (N n : nat) :
  recommend_videos_by_users_by stable d u N n
  = recommend_videos_by_users d u N n
  /\ user_history_by stable d u = user_history d u
  /\ content_scores_by stable d u = content_scores d u
  /\ combined_scores_by stable d u w = combined_scores d u w
  /\ recommmend_videos_for_user_by stable d u w n
     = recommmend_videos_for_user d u w n.
Proof. repeat split. Qed.

(** ** The recommenders return under well-formed tables *)

Lemma np_argsort_lt (k : sort_kind) (row : list Q) (p : nat) :
  sorts k -> In p (np_argsort k row) -> (p < length row)%nat.
Proof.
  intros [A _] H. destruct (A row) as [P _].
  apply (Permutation_in _ P), in_seq in H. lia.
Qed.

Lemma np_argsort_length (k : sort_kind) (row : list Q) :
  sorts k -> length (np_argsort k row) = length row.
Proof.
  intros [A _]. destruct (A row) as [P _].
  apply Permutation_length in P. now rewrite length_seq in P.
Qed.

Lemma pd_sort_values_In (k : sort_kind) (s : series)
    (kv : label * float64) :
  sorts k -> (In kv (pd_sort_values k s) <-> In kv s).
Proof.
  intros [_ [V _]]. destruct (V s) as [P _]. split.
  - apply (Permutation_in _ P).
  - apply (Permutation_in _ (Permutation_sym P)).
Qed.

Lemma pd_sort_values_keys_NoDup (k : sort_kind) (s : series) :
  sorts k -> NoDup (keys s) -> NoDup (keys (pd_sort_values k s)).
Proof.
  intros [_ [V _]]. destruct (V s) as [P _].
  apply Permutation_NoDup, Permutation_map, Permutation_sym, P.
Qed.

Lemma collaborative_by_ok (k : sort_kind) (d : dataset) (u : Z) (n : nat) :
  sorts k ->
  wf_dataset d = true ->
  In u (uim_index d) ->
  exists rows watched,
    (n = 10%nat -> rows <> [])
    /\ items_user_has_watched d u = Ok watched
    /\ forall r,
        recommend_videos_by_users_by k d u n r
        = Ok (head r (filter (fun kv => negb (mem (fst kv) watched))
                        (pd_sort_values k
                           (mean_axis0 (uim_columns d) rows)))).
Proof.
  intros K W Hu.
  destruct (wf_index_position d u W Hu) as [i [-> Hi]].
  pose proof (squareb_rows _ _ (wf_user_similarity d W)) as [Ln Lr].
  destruct (ndarray_getitem_ok (user_similarity d) i) as [sims [Eg En]];
    [lia|].
  assert (Ls : length sims = length (uim_index d)).
  { apply Lr. eapply nth_error_In, En. }
  assert (Es : similar_users_by k d (Z.of_nat i) n
               = Ok (slice_to_neg_rev n (np_argsort k sims))).
  { unfold similar_users_by. now rewrite Eg. }
  destruct (mapM_ok (fun p => uim_loc d (Z.of_nat p))
                    (slice_to_neg_rev n (np_argsort k sims)))
    as [rows [Er Lrows]].
  { intros p Hp. eexists. apply uim_loc_ok, wf_position_index; [exact W|].
    apply slice_to_neg_rev_In, (np_argsort_lt k _ _ K) in Hp. lia. }
  exists rows. eexists. split; [|split].
  - intros -> E. subst rows. simpl in Lrows. symmetry in Lrows.
    unfold slice_to_neg_rev in Lrows.
    rewrite length_firstn, length_rev, (np_argsort_length k _ K) in Lrows.
    lia.
  - unfold items_user_has_watched. rewrite (uim_loc_ok d _ Hu). reflexivity.
  - intro r. unfold recommend_videos_by_users_by.
    rewrite Es. cbn [bind]. rewrite Er. cbn [bind].
    unfold items_user_has_watched. rewrite (uim_loc_ok d _ Hu). reflexivity.
Qed.

Lemma user_history_by_In (k : sort_kind) (d : dataset) (u v : Z) :
  sorts k ->
  In v (user_history_by k d u) ->
  exists i, In i (interactions d) /\ user_id i = u /\ video_id i = v.
Proof.
  intros [_ [_ R]].
  unfold user_history_by, get_most_watched_videos_by, head.
  intro H. apply in_map_iff in H. destruct H as [i [<- Hi]].
  apply In_firstn in Hi.
  destruct (R (filter (fun i => Z.eqb (user_id i) u) (interactions d)))
    as [P _].
  apply (Permutation_in _ P), filter_In in Hi.
  destruct Hi as [Hi E]. apply Z.eqb_eq in E. now exists i.
Qed.

Lemma content_scores_by_ok (k : sort_kind) (d : dataset) (u : Z) :
  sorts k ->
  wf_dataset d = true -> exists s, content_scores_by k d u = Ok s.
Proof.
  intros K W. apply accumulate_ok; [exact W|].
  intros v Hv. apply (user_history_by_In k d u v K) in Hv.
  destruct Hv as [i [Hi [_ <-]]]. now apply wf_videos.
Qed.

(** ** The components hold numbers *)

Lemma recommend_similar_videos_finite (d : dataset) (v : Z) (r : nat)
    (s : series) :
  recommend_similar_videos d v r = Ok s -> all_finite s.
Proof.
  unfold recommend_similar_videos.
  destruct (index_of v _) as [idx|]; cbn [bind]; [|discriminate].
  destruct (iloc (content_based_cosine_sim d) idx) as [sims|];
    cbn [bind]; [|discriminate].
  destruct (mapM _ _) as [ids|]; cbn [bind]; [|discriminate].
  intro E. injection E as <-. intros [k x] Hkv.
  apply in_combine_r in Hkv. apply in_map_iff in Hkv.
  destruct Hkv as [y [<- _]]. now exists y.
Qed.

Lemma accumulate_finite (d : dataset) (history : list Z) :
  forall acc s,
    all_finite acc -> accumulate d history acc = Ok s -> all_finite s.
Proof.
  induction history as [|v h IH]; intros acc s Ha; simpl.
  - intro E. now injection E as <-.
  - destruct (recommend_similar_videos d v 10) as [sim|] eqn:Es;
      cbn [bind]; [|discriminate].
    apply IH.
    apply (series_add_values (fun _ => True) (fun _ => True)); trivial.
    now apply (recommend_similar_videos_finite d v 10).
Qed.

Lemma mean_axis0_finite (cols : list Z) (rows : list (list Q)) :
  rows <> [] -> all_finite (mean_axis0 cols rows).
Proof.
  intros Hne kv Hkv. unfold mean_axis0 in Hkv.
  apply in_map_iff in Hkv. destruct Hkv as [[j c] [<- _]]. simpl.
  destruct rows as [|r rows]; [congruence|]. simpl.
  eexists. split; [reflexivity | exact I].
Qed.

(** ** The maximum of a component *)

Lemma maximum_exists (s : series) :
  s <> [] -> all_finite s -> exists m, is_maximum m s.
Proof.
  induction s as [|[v a] s IH]; intros Hne F; [congruence|].
  destruct (F (v, a) (or_introl eq_refl)) as [x [Ex _]]. simpl in Ex.
  subst a. destruct s as [|kv s].
  - exists x. split.
    + exists v, x. split; [now left | reflexivity].
    + intros v' s' [E|[]]. injection E as <- <-. exists x.
      split; [reflexivity | apply Qle_refl].
  - destruct IH as [m [[v' [y [Hy Ey]]] Hm]]; [discriminate | |].
    { intros e He. apply F. now right. }
    destruct (Qlt_le_dec m x) as [L|L].
    + exists x. split.
      * exists v, x. split; [now left | reflexivity].
      * intros v'' s' [E|H].
        -- injection E as <- <-. exists x.
           split; [reflexivity | apply Qle_refl].
        -- destruct (Hm v'' s' H) as [z [-> Hz]]. exists z.
           split; [reflexivity|].
           apply Qle_trans with m; [exact Hz | now apply Qlt_le_weak].
    + exists m. split.
      * exists v', y. split; [now right | exact Ey].
      * intros v'' s' [E|H].
        -- injection E as <- <-. exists x. now split.
        -- exact (Hm v'' s' H).
Qed.

Lemma fold_max_In (vs : list float64) :
  forall acc m,
    fold_left fmax_skipna vs acc = Fin m -> acc = Fin m \/ In (Fin m) vs.
Proof.
  induction vs as [|v vs IH]; intros acc m; simpl; [now left|].
  intro H. destruct (IH _ _ H) as [E|E]; [|now right; right].
  unfold fmax_skipna in E. destruct (isnan v); [now left|].
  destruct (isnan acc); [right; left; exact E|].
  destruct (fltb acc v); [right; left; exact E | now left].
Qed.

(** The maximum that the code divides by is the maximum of the
    specification. *)
Lemma series_max_is_maximum (s : series) (m : Q) :
  is_maximum m s -> exists m', series_max s = Fin m' /\ m' == m.
Proof.
  intros [[v [x [Hx Ex]]] Hm].
  destruct (series_max_ge s v x) as [m' [E L]]; [|exact Hx|].
  { intros [v' s'] H. destruct (Hm v' s' H) as [z [-> _]]. exact I. }
  exists m'. split; [exact E|].
  unfold series_max in E. apply fold_max_In in E.
  destruct E as [E|E]; [discriminate|].
  apply in_map_iff in E. destruct E as [[v' s'] [Es H]]. simpl in Es.
  subst s'. destruct (Hm v' _ H) as [z [Ez Lz]]. injection Ez as <-.
  apply Qle_antisym; [exact Lz | now rewrite <- Ex].
Qed.

(** ** One component of the blend *)

Lemma find_get (v : label) (s : series) :
  match find (fun kv => Z.eqb (fst kv) v) s with
  | Some kv => mem v (keys s) = true /\ snd kv = get v s
  | None => mem v (keys s) = false
  end.
Proof.
  induction s as [|[v' a] s IH]; simpl; [reflexivity|].
  rewrite (Z.eqb_sym v v'). destruct (Z.eqb v' v); simpl; [now split|].
  exact IH.
Qed.

(** What the code holds for a label after normalisation and weighting.
    In a component whose maximum is not 0 it is the weight times the score
    of the specification.  It is nan when the label is missing, and also
    when the maximum is 0 and no score of the component is negative (all
    scores are 0 then, and 0 is divided by 0). *)
Lemma component_value (s : series) (m w : Q) (v : label) :
  (s <> [] -> is_maximum m s) ->
  (m == 0 -> values_in (Qle 0) s) ->
  (In v (keys s) /\ ~ m == 0
   /\ exists q, get v (series_mul (normalize s) w) = Fin q
                /\ q == w * spec_component_score s m v)
  \/ ((In v (keys s) -> m == 0)
      /\ spec_component_score s m v = 0
      /\ get v (series_mul (normalize s) w) = NaN).
Proof.
  intros H Hz. unfold spec_component_score.
  pose proof (find_get v s) as F.
  destruct (find (fun kv => Z.eqb (fst kv) v) s) as [[v' a]|].
  - destruct F as [M Ea]. simpl in Ea.
    pose proof (H (mem_keys_nonempty v s M)) as Hm.
    destruct (series_max_is_maximum s m Hm) as [m' [Em Emm]].
    assert (G : get v (series_mul (normalize s) w)
                = fmul (fdiv a (Fin m')) (Fin w)).
    { rewrite get_series_mul by (now rewrite keys_normalize).
      rewrite get_normalize by exact M. now rewrite <- Ea, Em. }
    assert (Hin : In (v, a) s).
    { rewrite Ea. apply get_entry. now apply mem_In. }
    destruct Hm as [_ Hm]. destruct (Hm v a Hin) as [x [-> Lx]].
    destruct (Qeq_dec m 0) as [Z|Z].
    + right. split; [now intros _|].
      replace (Qeqb m 0) with true by (symmetry; now apply Qeqb_true).
      split; [reflexivity|]. rewrite G. unfold fdiv.
      replace (Qeqb m' 0) with true
        by (symmetry; apply Qeqb_true; now rewrite Emm).
      destruct (Hz Z (v, Fin x) Hin) as [y [Ey Ly]]. simpl in Ey.
      injection Ey as <-.
      assert (E0 : x == 0) by (apply Qle_antisym; [now rewrite <- Z|exact Ly]).
      rewrite (proj1 (Qeq_alt x 0) E0). reflexivity.
    + left. split; [now apply mem_In|]. split; [exact Z|].
      replace (Qeqb m 0) with false by (symmetry; now apply Qeqb_false).
      rewrite G. unfold fdiv.
      replace (Qeqb m' 0) with false
        by (symmetry; apply Qeqb_false; now rewrite Emm).
      unfold fmul. eexists. split; [reflexivity|].
      rewrite !Qred_correct, Emm. ring.
  - right. split.
    + intro Hv. apply mem_In in Hv. congruence.
    + split; [reflexivity|].
      apply get_absent. now rewrite keys_series_mul, keys_normalize.
Qed.

Lemma combined_value (content collab : series) (mc me w : Q) (v : label) :
  (content <> [] -> is_maximum mc content) ->
  (collab <> [] -> is_maximum me collab) ->
  (mc == 0 -> values_in (Qle 0) content) ->
  (me == 0 -> values_in (Qle 0) collab) ->
  ((In v (keys content) /\ ~ mc == 0) \/ (In v (keys collab) /\ ~ me == 0) ->
   exists q,
     fill_add (get v (series_mul (normalize content) w))
              (get v (series_mul (normalize collab) (1 - w))) = Fin q
     /\ q == spec_final_score w (spec_component_score content mc v)
                              (spec_component_score collab me v))
  /\ ((In v (keys content) -> mc == 0) ->
      (In v (keys collab) -> me == 0) ->
      fill_add (get v (series_mul (normalize content) w))
               (get v (series_mul (normalize collab) (1 - w))) = NaN).
Proof.
  intros Hc He Zc Ze. unfold spec_final_score.
  destruct (component_value content mc w v Hc Zc)
    as [[Ic [Nc [a [-> Ha]]]] | [Ic [-> ->]]];
    destruct (component_value collab me (1 - w) v He Ze)
      as [[Ie [Ne [b [-> Hb]]]] | [Ie [-> ->]]];
    unfold fill_add, isnan, fadd; split.
  - intros _. eexists. split; [reflexivity|].
    now rewrite Qred_correct, Ha, Hb.
  - intros H _. now exfalso; apply Nc, H.
  - intros _. eexists. split; [reflexivity|]. rewrite Qred_correct, Ha. ring.
  - intros H _. now exfalso; apply Nc, H.
  - intros _. eexists. split; [reflexivity|]. rewrite Qred_correct, Hb. ring.
  - intros _ H. now exfalso; apply Ne, H.
  - intros [[H N]|[H N]]; exfalso; [apply N, Ic, H | apply N, Ie, H].
  - reflexivity.
Qed.

(** ** Labels of the components *)

Lemma collaborative_by_catalogued (k : sort_kind) (d : dataset)
    (rows : list (list Q)) (watched : list Z) (r : nat) :
  sorts k ->
  wf_dataset d = true ->
  catalogued d (head r (filter (fun kv => negb (mem (fst kv) watched))
                          (pd_sort_values k
                             (mean_axis0 (uim_columns d) rows)))).
Proof.
  intros K W. unfold head. split.
  - apply keys_firstn_NoDup, keys_filter_NoDup,
      (pd_sort_values_keys_NoDup k _ K).
    rewrite keys_mean_axis0. apply sorted_distinct_NoDup.
  - intros v Hv. apply in_map_iff in Hv. destruct Hv as [kv [<- Hkv]].
    apply In_firstn, filter_In, proj1 in Hkv.
    apply (proj1 (pd_sort_values_In k _ _ K)) in Hkv.
    apply (uim_columns_catalogued d _ W).
    rewrite <- (keys_mean_axis0 (uim_columns d) rows). now apply in_map.
Qed.

Lemma collaborative_by_finite (k : sort_kind) (rows : list (list Q))
    (cols watched : list Z) (r : nat) :
  sorts k ->
  rows <> [] ->
  all_finite (head r (filter (fun kv => negb (mem (fst kv) watched))
                    (pd_sort_values k (mean_axis0 cols rows)))).
Proof.
  intros K Hne kv Hkv. apply In_firstn, filter_In, proj1 in Hkv.
  apply (proj1 (pd_sort_values_In k _ _ K)) in Hkv.
  now apply (mean_axis0_finite cols rows Hne).
Qed.

(** ** The blend *)

Lemma combined_by_parts (k : sort_kind) (d : dataset) (u : Z) (w : Q) :
  sorts k ->
  wf_dataset d = true ->
  In u (uim_index d) ->
  exists content collab,
    content_scores_by k d u = Ok content
    /\ recommend_videos_by_users_by k d u 10 50 = Ok collab
    /\ (forall r, (r <= 50)%nat ->
                  recommend_videos_by_users_by k d u 10 r
                  = Ok (head r collab))
    /\ combined_scores_by k d u w
       = Ok (series_add (series_mul (normalize content) w)
                        (series_mul (normalize collab) (1 - w)))
    /\ catalogued d content /\ all_finite content
    /\ catalogued d collab /\ all_finite collab
    /\ StronglySorted (fun a b => fltb_total (snd a) (snd b) = false) collab.
Proof.
  intros K W Hu.
  destruct (content_scores_by_ok k d u K W) as [content Ec].
  destruct (collaborative_by_ok k d u 10 K W Hu)
    as [rows [watched [Hrows [_ Eb]]]].
  exists content. eexists. split; [exact Ec|].
  split; [apply Eb|]. split; [|split; [|split]].
  - intros r Hr. rewrite Eb. unfold head. rewrite firstn_firstn.
    now rewrite Nat.min_l by exact Hr.
  - unfold combined_scores_by. rewrite Eb, Ec. reflexivity.
  - apply (accumulate_catalogued d (user_history_by k d u) W [] content);
      [|exact Ec]. split; [constructor | intros ? []].
  - split; [|split; [|split]].
    + apply (accumulate_finite d (user_history_by k d u) [] content);
        [intros ? [] | exact Ec].
    + now apply collaborative_by_catalogued.
    + apply collaborative_by_finite; [exact K | now apply Hrows].
    + apply StronglySorted_firstn, StronglySorted_filter.
      destruct K as [_ [V _]]. apply V.
Qed.




(** ** The first entries of a sorted Series *)

Lemma fltb_total_irrefl (a : float64) : fltb_total a a = false.
Proof.
  destruct a as [x| | |]; try reflexivity. simpl.
  apply Qltb_false, Qle_refl.
Qed.

(** [b <= f < a] gives [b < a] in the order that takes nan as least. *)
Lemma fltb_total_le_lt (f b a : float64) :
  fltb_total f b = false -> fltb_total f a = true ->
  fltb_total b a = true.
Proof.
  destruct f as [x| | |], b as [y| | |], a as [z| | |]; simpl;
    try congruence.
  rewrite Qltb_false, !Qltb_true. intros H1 H2.
  now apply Qle_lt_trans with x.
Qed.

(** A list [T] of entries of the sorted Series [S], strictly decreasing,
    such that every other entry of [S] is strictly below all of [T], is
    the head of [S], whatever the order of equal values in [S]. *)
Lemma sorted_top_unique (T : series) :
  forall S : series,
    StronglySorted (fun a b => fltb_total (snd a) (snd b) = false) S ->
    NoDup S ->
    incl T S ->
    StronglySorted (fun a b => fltb_total (snd b) (snd a) = true) T ->
    (forall x, In x S ->
               In x T \/ forall t, In t T ->
                                   fltb_total (snd x) (snd t) = true) ->
    firstn (length T) S = T.
Proof.
  induction T as [|t T IH]; intros S Srt N I St H; [reflexivity|].
  destruct S as [|s S]; [destruct (I t (or_introl eq_refl))|].
  inversion Srt as [|? ? Srt' Hs]; subst.
  inversion N as [|? ? Ns N']; subst.
  inversion St as [|? ? St' Ht]; subst.
  rewrite Forall_forall in Hs, Ht.
  assert (E : s = t).
  { assert (B : s <> t -> fltb_total (snd s) (snd t) = true).
    { intro D. destruct (H s (or_introl eq_refl)) as [[E|HT]|B].
      - now symmetry in E.
      - now apply Ht.
      - apply B. now left. }
    destruct (I t (or_introl eq_refl)) as [E|Hin]; [exact E|].
    assert (D : s <> t) by (intros ->; contradiction).
    pose proof (Hs t Hin) as L. rewrite (B D) in L. discriminate. }
  subst s. simpl. f_equal. apply IH; trivial.
  - intros x Hx. destruct (I x (or_intror Hx)) as [E|Hin]; [|exact Hin].
    subst x. pose proof (Ht t Hx) as L. rewrite fltb_total_irrefl in L.
    discriminate.
  - intros x Hx. destruct (H x (or_intror Hx)) as [[E|HT]|B].
    + subst x. contradiction.
    + now left.
    + right. intros t' Ht'. apply B. now right.
Qed.

(** In a sorted Series whose first [n + 1] values are strictly decreasing,
    every entry after the first [n] is strictly below each of them. *)
Lemma strict_head_gap (c : series) (n : nat) :
  StronglySorted (fun a b => fltb_total (snd a) (snd b) = false) c ->
  StronglySorted (fun a b => fltb_total (snd b) (snd a) = true)
                 (firstn (S n) c) ->
  forall a b, In a (firstn n c) -> In b (skipn n c) ->
              fltb_total (snd b) (snd a) = true.
Proof.
  intros Srt St a b Ha Hb.
  destruct (skipn n c) as [|e rest] eqn:Ek; [destruct Hb|].
  assert (Ec : c = firstn n c ++ e :: rest).
  { rewrite <- Ek. symmetry. apply firstn_skipn. }
  assert (Ln : length (firstn n c) = n).
  { apply (f_equal (@length _)) in Ek. rewrite length_skipn in Ek.
    simpl in Ek. rewrite length_firstn. lia. }
  assert (Eh : firstn (S n) c = firstn n c ++ [e]).
  { rewrite Ec at 1. rewrite firstn_app, Ln.
    rewrite firstn_all2 by (rewrite Ln; lia).
    replace (S n - n)%nat with 1%nat by lia. reflexivity. }
  rewrite Eh in St.
  pose proof (StronglySorted_split _ _ _ St a e Ha (or_introl eq_refl))
    as Lea.
  destruct Hb as [<-|Hb]; [exact Lea|].
  apply fltb_total_le_lt with (snd e); [|exact Lea].
  rewrite Ec in Srt.
  assert (S2 : StronglySorted
                 (fun a b => fltb_total (snd a) (snd b) = false)
                 (e :: rest)).
  { clear -Srt. induction (firstn n c) as [|x l IH]; [exact Srt|].
    apply IH. now inversion Srt. }
  inversion S2 as [|? ? _ He]; subst. rewrite Forall_forall in He.
  now apply He.
Qed.

(** ** The collaborative scores in the blend at weight 0 *)

Lemma zero_weight_collab (content collab : series) (m x : Q) (v : label) :
  NoDup (keys collab) ->
  series_max collab = Fin m -> 0 < m ->
  In (v, Fin x) collab ->
  get v (series_add (series_mul (normalize content) 0)
                    (series_mul (normalize collab) (1 - 0)))
  = rescale m (Fin x).
Proof.
  intros N Em Hm Hin.
  assert (M : mem v (keys collab) = true).
  { apply mem_In, in_map_iff. now exists (v, Fin x). }
  assert (Hk : In v (keys (series_add (series_mul (normalize content) 0)
                             (series_mul (normalize collab) (1 - 0))))).
  { rewrite keys_series_add, align_index_In. right.
    rewrite keys_series_mul, keys_normalize. now apply mem_In. }
  rewrite (series_add_value _ _ _ _ (get_entry _ _ Hk)).
  rewrite (get_series_mul v (normalize collab))
    by (now rewrite keys_normalize).
  rewrite get_normalize by exact M.
  rewrite (get_In v (Fin x) collab N Hin), Em. unfold fdiv.
  replace (Qeqb m 0) with false
    by (symmetry; apply Qeqb_false; intro Z; rewrite Z in Hm;
        discriminate).
  unfold fmul. rewrite fill_add_collab by apply zero_weight_content.
  reflexivity.
Qed.

Lemma zero_weight_content_only (content collab : series) (v : label) :
  mem v (keys collab) = false ->
  positive (fill_add (get v (series_mul (normalize content) 0))
                     (get v (series_mul (normalize collab) (1 - 0))))
  = false.
Proof.
  intro M.
  rewrite (get_absent v (series_mul (normalize collab) (1 - 0)))
    by (now rewrite keys_series_mul, keys_normalize).
  apply fill_add_no_collab, zero_weight_content.
Qed.

Lemma rescale_total (m x y : Q) :
  0 < m ->
  fltb_total (rescale m (Fin x)) (rescale m (Fin y))
  = fltb_total (Fin x) (Fin y).
Proof. intro Hm. exact (rescale_order m x y Hm). Qed.

Lemma below_positive (s t : float64) :
  positive s = false -> positive t = true -> fltb_total s t = true.
Proof.
  unfold positive.
  destruct s as [x| | |], t as [y| | |]; simpl; try congruence.
  rewrite Qltb_false, !Qltb_true. intros H1 H2.
  now apply Qle_lt_trans with 0.
Qed.

Lemma rescaled_strictly_sorted (m : Q) (c : series) :
  0 < m ->
  (forall kv, In kv c -> exists q, snd kv = Fin q) ->
  StronglySorted (fun a b => fltb_total (snd b) (snd a) = true) c ->
  StronglySorted (fun a b => fltb_total (snd b) (snd a) = true)
                 (map (fun kv => (fst kv, rescale m (snd kv))) c).
Proof.
  intros Hm F S. induction S as [|x l _ IH Hx]; simpl; constructor.
  - apply IH. intros kv Hkv. apply F. now right.
  - apply Forall_forall. intros y Hy. apply in_map_iff in Hy.
    destruct Hy as [z [<- Hz]]. simpl. rewrite Forall_forall in Hx.
    destruct (F x (or_introl eq_refl)) as [a Ea].
    destruct (F z (or_intror Hz)) as [b Eb].
    pose proof (Hx z Hz) as L. rewrite Ea, Eb in *.
    now rewrite rescale_total.
Qed.

(** ** The ranking at weight 0 *)


